(** * react-amap-binding: the AMap and Marker binding components

    A shallow embedding of [src/AMap/index.js], of the Marker component and
    of [utils/instanceEventHandler], over a small model of the JavaScript
    values the components handle, of the heap they share with their caller
    and with the map SDK, and of the calls they make on SDK objects.

    Conventions.
    - JavaScript values are [value]; objects, arrays, SDK instances and
      functions live in a heap and are denoted by their address, so that
      identity ([===]) and aliasing are the ones of the program.
    - Numbers are integers: the components never compute with them.
    - The objects that only a component holds ([this.props],
      [this.mapOptions], [this.markerOptions]) are finite maps from keys to
      values; reading a missing key gives [undefined].
    - Every call on an SDK object, every construction with [new] and every
      interaction with the host framework is appended to a trace. *)

From stdpp Require Import base strings list gmap pretty.

Local Open Scope Z_scope.
Local Open Scope string_scope.
Local Open Scope list_scope.

(** ** Values and the heap *)

Abbreviation addr := nat.

Inductive value :=
| VUndefined
| VNull
| VBool (b : bool)
| VNum (n : Z)
| VStr (s : string)
| VRef (a : addr).

Global Instance value_eq_dec : EqDecision value.
Proof. solve_decision. Defined.

(** The constructors of the SDK ([window.AMap.Bounds] and the like) and the
    container element the host framework passes through [ref]. *)
Inductive class := CBounds | CPixel | CIcon | CMap | CMarker | CElement.

Global Instance class_eq_dec : EqDecision class.
Proof. solve_decision. Defined.

(** Functions: those of the caller, and the closures
    [createEventCallback(key, instance).bind(this)] builds. *)
Inductive func :=
| UserFn (id : nat)
| EventCallback (key : string) (instance : value).

Inductive obj :=
| Plain (fields : gmap string value)
| Arr (elems : list value)
| Foreign (c : class) (args : list value)
| Fn (f : func).

(** The values the properties of an object hold; what a closure has
    captured is not a property of it. *)
Definition obj_values (o : obj) : list value :=
  match o with
  | Plain f => (map_to_list f).*2
  | Arr es => es
  | Foreign _ args => args
  | Fn _ => []
  end.

(** ** The world: heap, page and SDK state, and the trace of calls *)

(** Which library a script tag loads; the main script of the SDK defines
    [window.AMap] when it runs. *)
Inductive library := LibAMap | LibUI | LibLoca.

Record script := { src : string; lib : library; loaded : bool }.

(** What [render] returns: [null], or the container [div] and the context
    provider around the children, which are there or not. *)
Inductive element := Null | Container (children : bool).

Inductive effect :=
| ENew (c : class) (args : list value) (a : addr)
| ECall (instance : addr) (method : string) (args : list value)
| EInitAMapUI
| EUserCall (f : value) (args : list value)
| ESetState (map : value)
| ERender (e : element).

(** A listener record [{ eventName, handler }]. *)
Definition listener : Type := string * value.

Record world := {
  heap : list obj;
  windowAMap : bool;
  head : list script;
  registry : list (addr * listener);
  trace : list effect;
}.

Definition set_heap (h : list obj) (w : world) : world :=
  {| heap := h; windowAMap := windowAMap w; head := head w;
     registry := registry w; trace := trace w |}.
Definition set_windowAMap (b : bool) (w : world) : world :=
  {| heap := heap w; windowAMap := b; head := head w;
     registry := registry w; trace := trace w |}.
Definition set_head (s : list script) (w : world) : world :=
  {| heap := heap w; windowAMap := windowAMap w; head := s;
     registry := registry w; trace := trace w |}.
Definition set_registry (r : list (addr * listener)) (w : world) : world :=
  {| heap := heap w; windowAMap := windowAMap w; head := head w;
     registry := r; trace := trace w |}.
Definition emit (e : effect) (w : world) : world :=
  {| heap := heap w; windowAMap := windowAMap w; head := head w;
     registry := registry w; trace := trace w ++ [e] |}.

(** ** Computations: state and exceptions *)

Inductive error := TypeError | NotChildOfAMap.

Inductive result (A : Type) :=
| Ok (a : A) (w : world)
| Throw (e : error) (w : world).
Arguments Ok {A} a w.
Arguments Throw {A} e w.

Definition M (A : Type) : Type := world → result A.

Global Instance M_ret : MRet M := λ A a w, Ok a w.
Global Instance M_bind : MBind M := λ A B f m w,
  match m w with
  | Ok a w' => f a w'
  | Throw e w' => Throw e w'
  end.

Definition throw {A} (e : error) : M A := λ w, Throw e w.
Definition get_world : M world := λ w, Ok w w.
Definition modify (f : world → world) : M unit := λ w, Ok tt (f w).

(** ** Reading values *)

(** [o[k]] on an object only its holder sees. *)
Definition get (o : gmap string value) (k : string) : value :=
  default VUndefined (o !! k).

(** Rest destructuring [{ k1, ..., kn, ...rest } = o]. *)
Definition omit (ks : list string) (o : gmap string value) : gmap string value :=
  foldr delete o ks.

Definition truthy (v : value) : bool :=
  match v with
  | VUndefined | VNull => false
  | VBool b => b
  | VNum n => negb (Z.eqb n 0)
  | VStr s => negb (String.eqb s "")
  | VRef _ => true
  end.

Definition lookup_obj (h : list obj) (v : value) : option obj :=
  match v with
  | VRef a => h !! a
  | _ => None
  end.

(** [v instanceof window.AMap.<c>] *)
Definition instanceof (h : list obj) (v : value) (c : class) : bool :=
  match lookup_obj h v with
  | Some (Foreign c' _) => bool_decide (c' = c)
  | _ => false
  end.

(** [v instanceof Array], with the elements. *)
Definition as_array (h : list obj) (v : value) : option (list value) :=
  match lookup_obj h v with
  | Some (Arr es) => Some es
  | _ => None
  end.

(** [typeof v === 'function'] *)
Definition is_function (h : list obj) (v : value) : bool :=
  match lookup_obj h v with
  | Some (Fn _) => true
  | _ => false
  end.

(** [v.k] for a value that is neither [null] nor [undefined]: the fields of
    a plain object, [undefined] on a primitive; fields of arrays, functions
    and SDK objects are not modelled and read as [undefined]. *)
Definition field (h : list obj) (v : value) (k : string) : value :=
  match lookup_obj h v with
  | Some (Plain f) => get f k
  | _ => VUndefined
  end.

(** The own enumerable properties [{ ...v }] copies, for a plain object;
    those of arrays, strings, functions and SDK objects are not modelled. *)
Definition own_fields (h : list obj) (v : value) : gmap string value :=
  match lookup_obj h v with
  | Some (Plain f) => f
  | _ => ∅
  end.

(** ** Allocation and calls on SDK objects *)

Definition alloc (o : obj) : M value := λ w,
  Ok (VRef (length (heap w))) (set_heap (heap w ++ [o]) w).

(** [new window.AMap.<c>(...args)]; [window.AMap] undefined makes the
    property access throw. *)
Definition new (c : class) (args : list value) : M value := λ w,
  if windowAMap w then
    let a := length (heap w) in
    Ok (VRef a) (emit (ENew c args a) (set_heap (heap w ++ [Foreign c args]) w))
  else Throw TypeError w.

(** [instance.on(eventName, handler)] and [instance.off(eventName, handler)]
    keep the listeners of the instance; [off] removes one registration of
    the pair. *)
Fixpoint remove_first (x : addr * listener) (l : list (addr * listener))
  : list (addr * listener) :=
  match l with
  | [] => []
  | y :: l' => if decide (x = y) then l' else y :: remove_first x l'
  end.

Definition sdk_effect (a : addr) (method : string) (args : list value) (w : world) : world :=
  match args with
  | [VStr e; h] =>
      if decide (method = "on") then set_registry (registry w ++ [(a, (e, h))]) w
      else if decide (method = "off")
      then set_registry (remove_first (a, (e, h)) (registry w)) w
      else w
  | _ => w
  end.

(** [instance[method](...args)]: a method of something that is not an
    object is not a function. *)
Definition call (instance : value) (method : string) (args : list value) : M unit :=
  match instance with
  | VRef a => modify (λ w, emit (ECall a method args) (sdk_effect a method args w))
  | _ => throw TypeError
  end.

(** ** Strings *)

(** [s.substring(n)] *)
Fixpoint substring_from (n : nat) (s : string) : string :=
  match n, s with
  | O, _ => s
  | S n', String _ s' => substring_from n' s'
  | S _, EmptyString => EmptyString
  end.

(** [toLowerCase] on the letters A to Z; the keys of the callback objects
    are identifiers written in ASCII. *)
Definition lower_ascii (c : Ascii.ascii) : Ascii.ascii :=
  let n := Ascii.nat_of_ascii c in
  if (bool_decide (65 ≤ n)%nat && bool_decide (n ≤ 90)%nat)%bool
  then Ascii.ascii_of_nat (n + 32) else c.

Fixpoint toLowerCase (s : string) : string :=
  match s with
  | EmptyString => EmptyString
  | String c s' => String (lower_ascii c) (toLowerCase s')
  end.

(** What a template literal makes of a value; the options it is used on are
    strings by their propTypes, and an object is rendered as the default
    [Object.prototype.toString] does. *)
Definition to_str (v : value) : string :=
  match v with
  | VUndefined => "undefined"
  | VNull => "null"
  | VBool true => "true"
  | VBool false => "false"
  | VNum n => pretty n
  | VStr s => s
  | VRef _ => "[object Object]"
  end.

(** ** utils/instanceEventHandler *)

(** An object whose keys are enumerated: its entries in insertion order. *)
Definition entries : Type := list (string * value).

Definition keys (o : entries) : list string := o.*1.

Fixpoint entry (o : entries) (k : string) : value :=
  match o with
  | [] => VUndefined
  | (k', v) :: o' => if decide (k' = k) then v else entry o' k
  end.

Definition eventName (key : string) : string :=
  toLowerCase (substring_from 2 key).

(** The body of the [forEach] of [bindInstanceEvent], over the keys left. *)
Fixpoint bindKeys (instance : value) (eventCallbacks : entries)
    (ks : list string) (eventCBList : list listener) : M (list listener) :=
  match ks with
  | [] => mret eventCBList
  | key :: ks' =>
      let handler := entry eventCallbacks key in
      call instance "on" [VStr (eventName key); handler];;
      bindKeys instance eventCallbacks ks' (eventCBList ++ [(eventName key, handler)])
  end.

(** [bindInstanceEvent(instance, eventCallbacks, eventCBList)]; the array
    [eventCBList] is extended in place, the result is its new contents. *)
Definition bindInstanceEvent (instance : value) (eventCallbacks : entries)
    (eventCBList : list listener) : M (list listener) :=
  bindKeys instance eventCallbacks (keys eventCallbacks) eventCBList.

Fixpoint offAll (instance : value) (l : list listener) : M unit :=
  match l with
  | [] => mret tt
  | (name, handler) :: l' =>
      call instance "off" [VStr name; handler];;
      offAll instance l'
  end.

(** [removeInstanceEvent(instance, eventCBList)]; [forEach] of [undefined]
    throws. *)
Definition removeInstanceEvent (instance : value)
    (eventCBList : option (list listener)) : M unit :=
  match eventCBList with
  | None => throw TypeError
  | Some l => offAll instance l
  end.

(** ** The helpers of [utils/] the components import *)

Module Utils.

(** Modelled from the spec: [utils/isShallowEqual], which is not among the
    sources.  "There is no algorithm here beyond shallow-equal diffing": two
    values are shallow-equal when they are identical, or when they are two
    arrays, or two plain objects, with the same keys and identical values
    under each key.  Two distinct SDK objects are not: "shallow compare
    bounds always results unequal" for two [AMap.Bounds]. *)
Definition isShallowEqual (h : list obj) (a b : value) : bool :=
  if decide (a = b) then true else
  match lookup_obj h a, lookup_obj h b with
  | Some (Plain f), Some (Plain g) => bool_decide (f = g)
  | Some (Arr xs), Some (Arr ys) => bool_decide (xs = ys)
  | _, _ => false
  end.

(** Modelled from the spec: [utils/isNullVoid], which is not among the
    sources: "either null or undefined". *)
Definition isNullVoid (v : value) : bool :=
  match v with
  | VUndefined | VNull => true
  | _ => false
  end.

(** Modelled from the spec: [utils/mapVersion2Flag], which is not among the
    sources: whether the version asked for is one of the 2.x line. *)
Definition version2Flag (v : value) : bool :=
  match v with
  | VStr (String c _) => bool_decide (c = Ascii.ascii_of_nat 50)
  | _ => false
  end.

(** Modelled from the spec: [utils/breakIfNotChildOfAMap], which is not
    among the sources: a binding component "has to be a child of AMap", so
    the helper throws when the context holds no map. *)
Definition breakIfNotChildOfAMap (map : value) : M unit :=
  if isNullVoid map then throw NotChildOfAMap else mret tt.

(** *** Deep copies

    Modelled from the spec: [utils/cloneDeep], which is not among the
    sources.  "AMap LBS library mutates options. Deep copy those options
    before passing to AMap so that props won't be mutated":
    [cloneDeep(obj, fields)] is a copy of [obj] in which each field named
    is deep-copied.  A deep copy of a value copies every object that can
    be reached from it, once: the copies made so far are remembered, so
    that sharing and cycles are kept. *)

(** An object of the kind and with the keys of [o], holding [vs]. *)
Definition rebuild (o : obj) (vs : list value) : obj :=
  match o with
  | Plain f => Plain (list_to_map (zip (map_to_list f).*1 vs))
  | Arr _ => Arr vs
  | Foreign c _ => Foreign c vs
  | Fn f => Fn f
  end.

Definition copying : Type := gmap addr addr * list obj.

Fixpoint cloneList (clone : value → copying → option (value * copying))
    (vs : list value) (s : copying) : option (list value * copying) :=
  match vs with
  | [] => Some ([], s)
  | v :: vs' =>
      match clone v s with
      | Some (v', s1) =>
          match cloneList clone vs' s1 with
          | Some (vs'', s2) => Some (v' :: vs'', s2)
          | None => None
          end
      | None => None
      end
  end.

(** The objects to copy are those of the heap the copy started from, the
    addresses below [n]; [fuel] bounds the depth of the descent. *)
Fixpoint cloneValue (fuel : nat) (n : nat) (v : value) (s : copying)
  : option (value * copying) :=
  match v with
  | VRef a =>
      match s.1 !! a with
      | Some a' => Some (VRef a', s)
      | None =>
          if decide (a < n)%nat then
            match s.2 !! a with
            | Some o =>
                match fuel with
                | O => None
                | S fuel' =>
                    let a' := length s.2 in
                    let s1 := (<[a := a']> s.1, s.2 ++ [rebuild o []]) in
                    match cloneList (cloneValue fuel' n) (obj_values o) s1 with
                    | Some (vs', s2) => Some (VRef a', (s2.1, <[a' := rebuild o vs']> s2.2))
                    | None => None
                    end
                end
            | None => Some (v, s)
            end
          else Some (v, s)
      end
  | _ => Some (v, s)
  end.

(** A descent is never deeper than the number of objects of the heap
    ([cloneValue_total]), so that the fuel given here is never used up. *)
Definition cloneDeepValue (v : value) : M value := λ w,
  let n := length (heap w) in
  match cloneValue (S n) n v (∅, heap w) with
  | Some (v', s) => Ok v' (set_heap s.2 w)
  | None => Ok v w
  end.

Fixpoint cloneDeep (o : gmap string value) (fields : list string)
  : M (gmap string value) :=
  match fields with
  | [] => mret o
  | k :: fields' =>
      match o !! k with
      | Some v =>
          v' ← cloneDeepValue v;
          cloneDeep (<[k := v']> o) fields'
      | None => cloneDeep o fields'
      end
  end.

End Utils.

(** ** The AMap component *)

Module AMap.

(** The props [parseMapOptions] takes out: the options of the loader and
    the event callbacks, in the order of the destructuring. *)
Definition loaderKeys : list string :=
  ["appKey"; "children"; "locaVersion"; "protocol"; "uiVersion"; "version"].

Definition eventKeys : list string :=
  ["onComplete"; "onClick"; "onDblClick"; "onMapMove"; "onHotspotClick";
   "onHotspotOver"; "onHotspotOut"; "onMoveStart"; "onMoveEnd"; "onZoomChange";
   "onZoomStart"; "onZoomEnd"; "onMouseMove"; "onMouseWheel"; "onMouseOver";
   "onMouseOut"; "onMouseUp"; "onMouseDown"; "onRightClick"; "onDragStart";
   "onDragging"; "onDragEnd"; "onResize"; "onTouchStart"; "onTouchMove";
   "onTouchEnd"].

(** [static parseMapOptions(props)] *)
Definition parseMapOptions (props : gmap string value) : M (gmap string value) :=
  let mapOptions := omit (loaderKeys ++ eventKeys) props in
  let bounds := get mapOptions "bounds" in
  w ← get_world;
  bounds' ←
    (if negb (windowAMap w) then mret VUndefined
     else if instanceof (heap w) bounds CBounds then mret bounds
     else match as_array (heap w) bounds with
          | Some es => new CBounds es
          | None => mret bounds
          end);
  w' ← get_world;
  let boundsProp := if negb (windowAMap w') then VUndefined else bounds in
  mret (<["boundsProp" := boundsProp]> (<["bounds" := bounds']> mapOptions)).

(** [static loadScript(src)]: the script tag is appended to
    [document.head]; the promise returned is denoted by the index of the
    tag, and is resolved by the [onload] of that tag only. *)
Definition loadScript (l : library) (src : string) : M nat := λ w,
  Ok (length (head w))
     (set_head (head w ++ [{| src := src; lib := l; loaded := false |}]) w).

(** [static requireAMap({ appKey, protocol, version, proxyUrl })] *)
Definition requireAMap (appKey protocol version proxyUrl : value) : M nat :=
  let src := to_str protocol +:+ "://webapi.amap.com/maps?v=" +:+ to_str version
             +:+ "&key=" +:+ to_str appKey in
  let src := if truthy proxyUrl
             then to_str proxyUrl +:+ "/maps?v=" +:+ to_str version
                  +:+ "&key=" +:+ to_str appKey
             else src in
  loadScript LibAMap src.

(** [static async requireAMapUI({ protocol, version, proxyUrl })], up to
    its [await]; what follows it is [afterAMapUI]. *)
Definition requireAMapUI (protocol version proxyUrl : value) : M nat :=
  let src := to_str protocol +:+ "://webapi.amap.com/ui/" +:+ to_str version
             +:+ "/main-async.js" in
  let src := if truthy proxyUrl
             then to_str proxyUrl +:+ "/ui/" +:+ to_str version +:+ "/main-async.js"
             else src in
  loadScript LibUI src.

Definition afterAMapUI : M unit := modify (emit EInitAMapUI).

(** [static requireLoca({ appKey, protocol, version, proxyUrl })] *)
Definition requireLoca (appKey protocol version proxyUrl : value) : M nat :=
  let src := to_str protocol +:+ "://webapi.amap.com/loca?key=" +:+ to_str appKey
             +:+ "&v=" +:+ to_str version in
  let src := if truthy proxyUrl
             then to_str proxyUrl +:+ "/loca?key=" +:+ to_str appKey
                  +:+ "&v=" +:+ to_str version
             else src in
  loadScript LibLoca src.

(** Where the host framework has the component. *)
Inductive lifecycle := Created | Mounted | Unmounted.

(** Where [initAMap] is: not called yet, suspended at one of its three
    [await]s on the promise named, or returned. *)
Inductive phase :=
| NotStarted
| AwaitAMap (p : nat)
| AwaitAMapUI (ui loca : nat)
| AwaitLoca (loca : nat)
| Returned
| Rejected (e : error).

(** The instance: [this.props], [this.state.map], [this.map] and the other
    fields the methods assign; then what the host framework and the async
    function keep. *)
Record component := {
  props : gmap string value;
  state_map : value;
  this_map : value;
  mapOptions : gmap string value;
  mapContainer : value;
  AMapEventListeners : option (list listener);
  eventCallbacks : option entries;
  status : lifecycle;
  pc : phase;
  dirty : bool;
}.

Definition with_props p (c : component) : component :=
  {| props := p; state_map := state_map c; this_map := this_map c;
     mapOptions := mapOptions c; mapContainer := mapContainer c;
     AMapEventListeners := AMapEventListeners c; eventCallbacks := eventCallbacks c;
     status := status c; pc := pc c; dirty := dirty c |}.
Definition with_state_map v d (c : component) : component :=
  {| props := props c; state_map := v; this_map := this_map c;
     mapOptions := mapOptions c; mapContainer := mapContainer c;
     AMapEventListeners := AMapEventListeners c; eventCallbacks := eventCallbacks c;
     status := status c; pc := pc c; dirty := d |}.
Definition with_this_map v (c : component) : component :=
  {| props := props c; state_map := state_map c; this_map := v;
     mapOptions := mapOptions c; mapContainer := mapContainer c;
     AMapEventListeners := AMapEventListeners c; eventCallbacks := eventCallbacks c;
     status := status c; pc := pc c; dirty := dirty c |}.
Definition with_mapOptions o (c : component) : component :=
  {| props := props c; state_map := state_map c; this_map := this_map c;
     mapOptions := o; mapContainer := mapContainer c;
     AMapEventListeners := AMapEventListeners c; eventCallbacks := eventCallbacks c;
     status := status c; pc := pc c; dirty := dirty c |}.
Definition with_mapContainer v (c : component) : component :=
  {| props := props c; state_map := state_map c; this_map := this_map c;
     mapOptions := mapOptions c; mapContainer := v;
     AMapEventListeners := AMapEventListeners c; eventCallbacks := eventCallbacks c;
     status := status c; pc := pc c; dirty := dirty c |}.
Definition with_events cbs l (c : component) : component :=
  {| props := props c; state_map := state_map c; this_map := this_map c;
     mapOptions := mapOptions c; mapContainer := mapContainer c;
     AMapEventListeners := l; eventCallbacks := cbs;
     status := status c; pc := pc c; dirty := dirty c |}.
Definition with_status s (c : component) : component :=
  {| props := props c; state_map := state_map c; this_map := this_map c;
     mapOptions := mapOptions c; mapContainer := mapContainer c;
     AMapEventListeners := AMapEventListeners c; eventCallbacks := eventCallbacks c;
     status := s; pc := pc c; dirty := dirty c |}.
Definition with_pc p (c : component) : component :=
  {| props := props c; state_map := state_map c; this_map := this_map c;
     mapOptions := mapOptions c; mapContainer := mapContainer c;
     AMapEventListeners := AMapEventListeners c; eventCallbacks := eventCallbacks c;
     status := status c; pc := p; dirty := dirty c |}.
Definition with_dirty d (c : component) : component :=
  {| props := props c; state_map := state_map c; this_map := this_map c;
     mapOptions := mapOptions c; mapContainer := mapContainer c;
     AMapEventListeners := AMapEventListeners c; eventCallbacks := eventCallbacks c;
     status := status c; pc := pc c; dirty := d |}.

(** [constructor(props)] *)
Definition constructor (p : gmap string value) : M component :=
  o ← parseMapOptions p;
  mret {| props := p; state_map := VUndefined; this_map := VUndefined;
          mapOptions := o; mapContainer := VUndefined;
          AMapEventListeners := None; eventCallbacks := None;
          status := Created; pc := NotStarted; dirty := false |}.

(** [createEventCallback(key, instance).bind(this)] for each key of the
    object literal of [parseEvents], in its order. *)
Fixpoint createEventCallbacks (ks : list string) (instance : value) : M entries :=
  match ks with
  | [] => mret []
  | k :: ks' =>
      f ← alloc (Fn (EventCallback k instance));
      rest ← createEventCallbacks ks' instance;
      mret ((k, f) :: rest)
  end.

(** [parseEvents()] *)
Definition parseEvents (this : component) : M entries :=
  createEventCallbacks eventKeys (this_map this).

(** [bindEvents()] *)
Definition bindEvents (this : component) : M component :=
  cbs ← parseEvents this;
  l ← bindInstanceEvent (this_map this) cbs [];
  mret (with_events (Some cbs) (Some l) this).

(** [this.setState({ map })]: ignored by the host framework once the
    component is unmounted; otherwise the state is replaced and a render
    is due. *)
Definition setState (v : value) (this : component) : M component :=
  modify (emit (ESetState v));;
  mret (match status this with
        | Unmounted => this
        | _ => with_state_map v true this
        end).

(** [render()]: the children are rendered when [state.map] is defined. *)
Definition render (this : component) : element :=
  Container (negb (bool_decide (state_map this = VUndefined))).

Section Diffing.

(** [utils/isShallowEqual] and [utils/mapVersion2Flag] are parameters of
    the component. *)
Variable isShallowEqual : list obj → value → value → bool.
Variable version2Flag : value → bool.

(** [updateMapWithAPI(apiName, previousCompareProp, nextCompareProp,
    nextProp)]; [nextProp] is [None] when the call has three arguments. *)
Definition updateMapWithAPI (this : component) (apiName : string)
    (previousCompareProp nextCompareProp : value) (nextProp : option value) : M unit :=
  let nextProp := default nextCompareProp nextProp in
  w ← get_world;
  if negb (isShallowEqual (heap w) previousCompareProp nextCompareProp) then
    if (bool_decide (apiName = "setCenter") && negb (truthy nextProp))%bool
    then mret tt
    else call (this_map this) apiName [nextProp]
  else mret tt.

(** The setters [componentDidUpdate] goes through, in the order of the
    calls: the method, the option compared, and the option passed. *)
Definition setters : list (string * string * string) :=
  [("setZoom", "zoom", "zoom"); ("setLabelzIndex", "labelzIndex", "labelzIndex");
   ("setCenter", "center", "center"); ("setCity", "city", "city");
   ("setBounds", "boundsProp", "bounds"); ("setLang", "lang", "lang");
   ("setRotation", "rotation", "rotation"); ("setStatus", "status", "status");
   ("setDefaultCursor", "defaultCursor", "defaultCursor");
   ("setMapStyle", "mapStyle", "mapStyle"); ("setFeatures", "features", "features");
   ("setDefaultLayer", "defaultLayer", "defaultLayer"); ("setPitch", "pitch", "pitch")].

(** [componentDidUpdate()] *)
Definition componentDidUpdate (this : component) : M component :=
  if decide (this_map this = VUndefined) then mret this else
  nextMapOptions ← parseMapOptions (props this);
  let update api k :=
    updateMapWithAPI this api (get (mapOptions this) k) (get nextMapOptions k) None in
  update "setZoom" "zoom";;
  update "setLabelzIndex" "labelzIndex";;
  update "setCenter" "center";;
  update "setCity" "city";;
  updateMapWithAPI this "setBounds" (get (mapOptions this) "boundsProp")
    (get nextMapOptions "boundsProp") (Some (get nextMapOptions "bounds"));;
  update "setLang" "lang";;
  update "setRotation" "rotation";;
  update "setStatus" "status";;
  update "setDefaultCursor" "defaultCursor";;
  update "setMapStyle" "mapStyle";;
  update "setFeatures" "features";;
  update "setDefaultLayer" "defaultLayer";;
  update "setPitch" "pitch";;
  mret (with_mapOptions nextMapOptions this).

(** [componentWillUnmount()] *)
Definition componentWillUnmount (this : component) : M unit :=
  let map := state_map this in
  if decide (map = VUndefined) then mret tt else
  removeInstanceEvent map (AMapEventListeners this);;
  call map "destroy" [].

(** [initAMap()] from [new window.AMap.Map] on. *)
Definition createMap (this : component) : M component :=
  options ← alloc (Plain (mapOptions this));
  map ← new CMap [mapContainer this; options];
  this ← bindEvents (with_this_map map this);
  this ← setState (this_map this) this;
  mret (with_pc Returned this).

(** [initAMap()] up to its first [await], or to its end when
    [window.AMap] is defined. *)
Definition initAMap (this : component) : M component :=
  let p := props this in
  w ← get_world;
  if negb (windowAMap w) then
    promise ← requireAMap (get p "appKey") (get p "protocol") (get p "version")
                          (get p "proxyUrl");
    mret (with_pc (AwaitAMap promise) this)
  else createMap this.

Definition resolved (promise : nat) (w : world) : bool :=
  match head w !! promise with
  | Some s => loaded s
  | None => false
  end.

(** [initAMap()] after [await Loca]. *)
Definition resumeLoca (loca : nat) (this : component) : M component :=
  w ← get_world;
  if resolved loca w then createMap this
  else mret (with_pc (AwaitLoca loca) this).

(** The continuation of [initAMap] the [onload] of a script runs: nothing
    when the promise awaited is still pending.  The promise of
    [requireAMapUI] resolves when its script is loaded and
    [window.initAMapUI()] has returned. *)
Definition resume (this : component) : M component :=
  w ← get_world;
  match pc this with
  | AwaitAMap promise =>
      if resolved promise w then
        let p := props this in
        let newUiVersion :=
          if version2Flag (get p "version") then VStr "1.1" else get p "uiVersion" in
        AMapUI ← requireAMapUI (get p "protocol") newUiVersion (get p "proxyUrl");
        Loca ← requireLoca (get p "appKey") (get p "protocol") (get p "locaVersion")
                           (get p "proxyUrl");
        mret (with_pc (AwaitAMapUI AMapUI Loca) this)
      else mret this
  | AwaitAMapUI AMapUI Loca =>
      if resolved AMapUI w then afterAMapUI;; resumeLoca Loca this
      else mret this
  | AwaitLoca Loca => resumeLoca Loca this
  | _ => mret this
  end.

(** A call of an async function does not throw: what its body throws
    rejects the promise it returned, which nothing here handles. *)
Definition async (body : component → M component) (this : component) : M component :=
  λ w, match body this w with
       | Ok this' w' => Ok this' w'
       | Throw e w' => Ok (with_pc (Rejected e) this) w'
       end.

(** [componentDidMount()] *)
Definition componentDidMount (this : component) : M component :=
  async initAMap this.

(** *** The host framework and the page

    The events a mounted component meets: the host framework mounts it,
    renders it anew with the props given and calls [componentDidUpdate],
    or unmounts it; a script tag fires [onload] or [onerror].  The
    component is a [React.PureComponent]: an [Update] stands for an update
    the framework does not skip, the props given being other objects than
    the ones before. *)
Inductive event :=
| Mount
| Update (nextProps : gmap string value)
| Onload (tag : nat)
| Onerror (tag : nat)
| Unmount.

(** The render a [setState] made due, with its [componentDidUpdate]. *)
Definition flush (this : component) : M component :=
  if dirty this then
    let this := with_dirty false this in
    modify (emit (ERender (render this)));;
    componentDidUpdate this
  else mret this.

(** A pending script tag has loaded: the main script of the SDK defines
    [window.AMap]. *)
Definition fire_onload (tag : nat) (w : world) : option world :=
  match head w !! tag with
  | Some s =>
      if loaded s then None
      else
        let s' := {| src := src s; lib := lib s; loaded := true |} in
        let w' := set_head (<[tag := s']> (head w)) w in
        Some (match lib s with
              | LibAMap => set_windowAMap true w'
              | _ => w'
              end)
  | None => None
  end.

Definition handle (ev : event) (this : component) : M component :=
  match ev with
  | Mount =>
      match status this with
      | Created =>
          modify (emit (ERender (render this)));;
          container ← alloc (Foreign CElement []);
          this ← componentDidMount (with_mapContainer container (with_status Mounted this));
          flush this
      | _ => mret this
      end
  | Update nextProps =>
      match status this with
      | Mounted =>
          let this := with_props nextProps this in
          modify (emit (ERender (render this)));;
          componentDidUpdate this
      | _ => mret this
      end
  | Onload tag => λ w,
      match fire_onload tag w with
      | Some w' => (this ← async resume this; flush this) w'
      | None => Ok this w
      end
  | Onerror tag => mret this
  | Unmount =>
      match status this with
      | Mounted =>
          componentWillUnmount this;;
          mret (with_status Unmounted this)
      | _ => mret this
      end
  end.

(** An exception a lifecycle method lets escape stops the run. *)
Definition step (r : result component) (ev : event) : result component :=
  match r with
  | Ok this w => handle ev this w
  | Throw e w => Throw e w
  end.

Definition run (evs : list event) (r : result component) : result component :=
  foldl step r evs.

End Diffing.

End AMap.

(** ** The Marker component *)

Module Marker.

(** [NEED_DEEP_COPY_FIELDS] *)
Definition NEED_DEEP_COPY_FIELDS : list string := ["position"].

(** The callbacks [parseMarkerOptions] takes out, in the order of the
    destructuring, and the keys of the object literal of [parseEvents]. *)
Definition callbackKeys : list string :=
  ["onComplete"; "onClick"; "onDblClick"; "onRightClick"; "onMouseMove";
   "onMouseOver"; "onMouseOut"; "onMouseDown"; "onMouseUp"; "onDragStart";
   "onDragging"; "onDragEnd"; "onMoving"; "onMoveEnd"; "onMoveAlong";
   "onTouchStart"; "onTouchMove"; "onTouchEnd"].

Definition eventKeys : list string :=
  ["onClick"; "onDblClick"; "onRightClick"; "onMouseMove"; "onMouseOver";
   "onMouseOut"; "onMouseDown"; "onMouseUp"; "onDragStart"; "onDragging";
   "onDragEnd"; "onMoving"; "onMoveEnd"; "onMoveAlong"; "onTouchStart";
   "onTouchMove"; "onTouchEnd"].

(** [v instanceof window.AMap.<c>], which reads [window.AMap] first. *)
Definition instanceofAMap (v : value) (c : class) : M bool := λ w,
  if windowAMap w then Ok (instanceof (heap w) v c) w else Throw TypeError w.

(** The function the three offsets go through: a Pixel is kept, an array
    is spread into [new window.AMap.Pixel], anything else gives the
    default [new window.AMap.Pixel(x, y)]. *)
Definition pixel (v : value) (x y : Z) : M value :=
  isPixel ← instanceofAMap v CPixel;
  if isPixel : bool then mret v else
  w ← get_world;
  match as_array (heap w) v with
  | Some es => new CPixel es
  | None => new CPixel [VNum x; VNum y]
  end.

(** The value of [icon] in the object [parseMarkerOptions] returns. *)
Definition parseIcon (icon : value) : M value :=
  if Utils.isNullVoid icon then mret VNull else
  isIcon ← instanceofAMap icon CIcon;
  if isIcon : bool then mret icon else
  w ← get_world;
  let h := heap w in
  imageOffset ← pixel (field h icon "imageOffset") 0 0;
  options ← alloc (Plain (<["size" := field h icon "size"]>
                         (<["imageSize" := field h icon "imageSize"]>
                         (<["imageOffset" := imageOffset]>
                         (<["image" := field h icon "image"]> ∅)))));
  new CIcon [options].

(** The value of [label]. *)
Definition parseLabel (label : value) : M value :=
  if Utils.isNullVoid label then mret VNull else
  w ← get_world;
  let h := heap w in
  offset ← pixel (field h label "offset") 0 0;
  alloc (Plain (<["offset" := offset]> (own_fields h label))).

(** [static parseMarkerOptions(props)] *)
Definition parseMarkerOptions (props : gmap string value) : M (gmap string value) :=
  let markerOptions := omit callbackKeys props in
  let icon := get markerOptions "icon" in
  label ← (if decide (get markerOptions "label" = VUndefined)
           then alloc (Plain ∅) else mret (get markerOptions "label"));
  let offset := get markerOptions "offset" in
  icon' ← parseIcon icon;
  label' ← parseLabel label;
  offset' ← pixel offset (-10) (-34);
  mret (<["offset" := offset']> (<["label" := label']> (<["icon" := icon']> markerOptions))).

(** The instance: [this.props], the context, and the fields the
    constructor assigns. *)
Record component := {
  props : gmap string value;
  context : value;
  markerOptions : gmap string value;
  marker : value;
  AMapEventListeners : option (list listener);
}.

Definition with_markerOptions o (c : component) : component :=
  {| props := props c; context := context c; markerOptions := o;
     marker := marker c; AMapEventListeners := AMapEventListeners c |}.
Definition with_marker v (c : component) : component :=
  {| props := props c; context := context c; markerOptions := markerOptions c;
     marker := v; AMapEventListeners := AMapEventListeners c |}.
Definition with_listeners l (c : component) : component :=
  {| props := props c; context := context c; markerOptions := markerOptions c;
     marker := marker c; AMapEventListeners := l |}.
Definition with_props p (c : component) : component :=
  {| props := p; context := context c; markerOptions := markerOptions c;
     marker := marker c; AMapEventListeners := AMapEventListeners c |}.

(** [initMarker(map)] *)
Definition initMarker (this : component) (map : value) : M value :=
  let visible := get (props this) "visible" in
  newMarkerOptions ← Utils.cloneDeep (markerOptions this) NEED_DEEP_COPY_FIELDS;
  options ← alloc (Plain newMarkerOptions);
  marker ← new CMarker [options];
  call marker "setMap" [map];;
  (if decide (visible = VBool false) then call marker "hide" [] else mret tt);;
  mret marker.

(** [parseEvents()] *)
Definition parseEvents (this : component) : M entries :=
  AMap.createEventCallbacks eventKeys (marker this).

(** [bindEvents()] *)
Definition bindEvents (this : component) : M component :=
  eventCallbacks ← parseEvents this;
  l ← bindInstanceEvent (marker this) eventCallbacks [];
  mret (with_listeners (Some l) this).

(** [constructor(props, context)] *)
Definition constructor (p : gmap string value) (map : value) : M component :=
  let onComplete := get p "onComplete" in
  Utils.breakIfNotChildOfAMap map;;
  o ← parseMarkerOptions p;
  let this := {| props := p; context := map; markerOptions := o;
                 marker := VUndefined; AMapEventListeners := None |} in
  m ← initMarker this map;
  this ← bindEvents (with_marker m this);
  w ← get_world;
  (if is_function (heap w) onComplete
   then modify (emit (EUserCall onComplete [map; marker this]))
   else mret tt);;
  mret this.

(** [render()] *)
Definition render (this : component) : element := Null.

Section Diffing.

Variable isShallowEqual : list obj → value → value → bool.

(** [toggleVisible(previousProp, nextProp)] *)
Definition toggleVisible (this : component) (previousProp nextProp : value) : M unit :=
  w ← get_world;
  if negb (isShallowEqual (heap w) previousProp nextProp) then
    (if decide (nextProp = VBool true) then call (marker this) "show" [] else mret tt);;
    (if decide (nextProp = VBool false) then call (marker this) "hide" [] else mret tt)
  else mret tt.

(** [updateMarkerWithAPI(apiName, previousProp, nextProp, newProp)] *)
Definition updateMarkerWithAPI (this : component) (apiName : string)
    (previousProp nextProp newProp : value) : M unit :=
  w ← get_world;
  if negb (isShallowEqual (heap w) previousProp nextProp)
  then call (marker this) apiName [newProp]
  else mret tt.

(** The setters [shouldComponentUpdate] goes through, with the option each
    one follows, in the order of the calls. *)
Definition setters : list (string * string) :=
  [("setAnchor", "anchor"); ("setOffset", "offset"); ("setAnimation", "animation");
   ("setClickable", "clickable"); ("setPosition", "position"); ("setAngle", "angle");
   ("setLabel", "label"); ("setzIndex", "zIndex"); ("setIcon", "icon");
   ("setDraggable", "draggable"); ("setCursor", "cursor"); ("setContent", "content");
   ("setTitle", "title"); ("setShadow", "shadow"); ("setShape", "shape");
   ("setExtData", "extData")].

(** [shouldComponentUpdate(nextProps)] *)
Definition shouldComponentUpdate (this : component) (nextProps : gmap string value)
  : M (bool * component) :=
  nextMarkerOptions ← parseMarkerOptions nextProps;
  newMarkerOptions ← Utils.cloneDeep nextMarkerOptions NEED_DEEP_COPY_FIELDS;
  toggleVisible this (get (markerOptions this) "visible") (get nextMarkerOptions "visible");;
  let update api k :=
    updateMarkerWithAPI this api (get (markerOptions this) k) (get nextMarkerOptions k)
      (get newMarkerOptions k) in
  update "setAnchor" "anchor";;
  update "setOffset" "offset";;
  update "setAnimation" "animation";;
  update "setClickable" "clickable";;
  update "setPosition" "position";;
  update "setAngle" "angle";;
  update "setLabel" "label";;
  update "setzIndex" "zIndex";;
  update "setIcon" "icon";;
  update "setDraggable" "draggable";;
  update "setCursor" "cursor";;
  update "setContent" "content";;
  update "setTitle" "title";;
  update "setShadow" "shadow";;
  update "setShape" "shape";;
  update "setExtData" "extData";;
  mret (false, with_markerOptions nextMarkerOptions this).

End Diffing.

(** [componentWillUnmount()] *)
Definition componentWillUnmount (this : component) : M component :=
  removeInstanceEvent (marker this) (AMapEventListeners this);;
  call (marker this) "setMap" [VNull];;
  mret (with_marker VNull this).

End Marker.

(** * The vocabulary of the statements *)

(** The calls [bindInstanceEvent] and [removeInstanceEvent] make for a
    listener record. *)
Definition onCall (a : addr) (l : listener) : effect := ECall a "on" [VStr l.1; l.2].
Definition offCall (a : addr) (l : listener) : effect := ECall a "off" [VStr l.1; l.2].

(** The records [bindInstanceEvent] makes of the keys [ks]. *)
Definition bound (eventCallbacks : entries) (ks : list string) : list listener :=
  (λ key, (eventName key, entry eventCallbacks key)) <$> ks.

(** The world after the effects [t], in order. *)
Definition emits (t : list effect) (w : world) : world :=
  {| heap := heap w; windowAMap := windowAMap w; head := head w;
     registry := registry w; trace := trace w ++ t |}.

(** [m] returns from [w], with a result and in a world that satisfy [Q]. *)
Definition runs {A} (m : M A) (w : world) (Q : A → world → Prop) : Prop :=
  match m w with
  | Ok a w' => Q a w'
  | Throw _ _ => False
  end.

Definition is_new (e : effect) : Prop :=
  match e with ENew _ _ _ => True | _ => False end.

Definition is_call (e : effect) : Prop :=
  match e with ECall _ _ _ => True | _ => False end.

(** From [w] to [w'] objects were allocated and SDK value objects
    constructed, and nothing else happened: no call on an instance, no
    change of an object there was. *)
Definition grows (w w' : world) : Prop :=
  heap w `prefix_of` heap w' ∧ windowAMap w' = windowAMap w ∧ head w' = head w
  ∧ registry w' = registry w ∧ ∃ t, trace w' = trace w ++ t ∧ Forall is_new t.

(** What [parseMarkerOptions] makes of a label: [null], or a new plain
    object with a Pixel under [offset]. *)
Definition is_label (h : list obj) (v : value) : Prop :=
  v = VNull ∨ ∃ f px, lookup_obj h v = Some (Plain f) ∧ f !! "offset" = Some px
                      ∧ instanceof h px CPixel = true.

(** ** Concrete inputs

    A page on which the SDK is loaded or not.  Its heap holds the bounds
    [[[1, 2], [3, 4]]] at address 0, a position [[5, 6]] at address 3, a
    function of the caller at address 4, a container element at 5, a map
    at 7 and a marker at 9. *)
Module Example.

Definition objects : list obj :=
  [Arr [VRef 1%nat; VRef 2%nat]; Arr [VNum 1; VNum 2]; Arr [VNum 3; VNum 4];
   Arr [VNum 5; VNum 6]; Fn (UserFn 0); Foreign CElement []; Plain ∅;
   Foreign CMap [VRef 5%nat; VRef 6%nat]; Plain ∅; Foreign CMarker [VRef 8%nat]].

Definition page (loaded : bool) : world :=
  {| heap := objects; windowAMap := loaded; head := []; registry := []; trace := [] |}.

Definition loader_props : gmap string value :=
  <["appKey" := VStr "key"]> (<["protocol" := VStr "https"]>
  (<["version" := VStr "1.4.15"]> (<["uiVersion" := VStr "1.0"]>
  (<["locaVersion" := VStr "1.0.5"]> ∅)))).

Definition map_props : gmap string value :=
  <["bounds" := VRef 0%nat]> (<["center" := VRef 3%nat]> (<["zoom" := VNum 3]>
  (<["onClick" := VRef 4%nat]> loader_props))).

(** A mounted map whose props no longer give the center it was built
    with. *)
Definition amap : AMap.component :=
  {| AMap.props := <["zoom" := VNum 3]> loader_props;
     AMap.state_map := VRef 7%nat;
     AMap.this_map := VRef 7%nat;
     AMap.mapOptions := <["center" := VRef 3%nat]> (<["zoom" := VNum 3]> ∅);
     AMap.mapContainer := VRef 5%nat;
     AMap.AMapEventListeners := Some [];
     AMap.eventCallbacks := Some [];
     AMap.status := AMap.Mounted;
     AMap.pc := AMap.Returned;
     AMap.dirty := false |}.

Definition marker_props : gmap string value :=
  <["position" := VRef 3%nat]> (<["visible" := VBool true]>
  (<["title" := VStr "here"]> (<["onClick" := VRef 4%nat]> ∅))).

Definition amarker : Marker.component :=
  {| Marker.props := marker_props;
     Marker.context := VRef 7%nat;
     Marker.markerOptions := <["title" := VStr "there"]> ∅;
     Marker.marker := VRef 9%nat;
     Marker.AMapEventListeners := Some [] |}.

End Example.

(** ** The calls an update makes *)

(** The call [updateMapWithAPI] makes on the map [m], if any: the values
    compared are not shallow-equal, and the method is not [setCenter] with
    a falsy argument. *)
Definition map_call (isShallowEqual : list obj → value → value → bool) (h : list obj)
    (m : addr) (api : string) (prev next arg : value) : list effect :=
  if (negb (isShallowEqual h prev next)
      && negb (bool_decide (api = "setCenter") && negb (truthy arg)))%bool
  then [ECall m api [arg]] else [].

(** The same for a setter of [AMap.setters], from the options kept and the
    options parsed anew. *)
Definition map_patch (isShallowEqual : list obj → value → value → bool) (h : list obj)
    (m : addr) (prev next : gmap string value) (s : string * string * string)
  : list effect :=
  map_call isShallowEqual h m s.1.1 (get prev s.1.2) (get next s.1.2) (get next s.2).

(** A method is called on the instance [a] somewhere in [t]. *)
Definition called (a : addr) (method : string) (t : list effect) : Prop :=
  ∃ args, ECall a method args ∈ t.

(** ** Copies *)

(** [a] is the address of an object that can be reached from [v]. *)
Inductive reachable (h : list obj) : value → addr → Prop :=
| reach_here a : reachable h (VRef a) a
| reach_step a o v b :
    h !! a = Some o → v ∈ obj_values o → reachable h v b → reachable h (VRef a) b.

(** All that can be reached from [v] is among the first [n] objects. *)
Definition sourced (n : nat) (h : list obj) (v : value) : Prop :=
  ∀ b, reachable h v b → (b < n)%nat.

(** A value that denotes none of the first [n] objects of the heap, but,
    if any, one allocated after them. *)
Definition new_val (n : nat) (h : list obj) (v : value) : Prop :=
  match v with
  | VRef a => (n ≤ a < length h)%nat
  | _ => True
  end.

(** The objects allocated from address [n] on hold no reference to one of
    the first [n] objects. *)
Definition closed_from (n : nat) (h : list obj) : Prop :=
  ∀ b o, (n ≤ b)%nat → h !! b = Some o → Forall (new_val n h) (obj_values o).

(** The state of a deep copy started on a heap of [n] objects: the objects
    remembered are objects of the heap copied, their copies are new, and
    so is all that the new objects hold. *)
Definition copying_ok (n : nat) (s : Utils.copying) : Prop :=
  (n ≤ length s.2)%nat
  ∧ (∀ a a', s.1 !! a = Some a' → (a < n)%nat ∧ (n ≤ a' < length s.2)%nat)
  ∧ closed_from n s.2.

(** A step of a deep copy: more is remembered, the heap is longer, and the
    objects below [n] are the same. *)
Definition copying_step (n : nat) (s s' : Utils.copying) : Prop :=
  s.1 ⊆ s'.1 ∧ (length s.2 ≤ length s'.2)%nat
  ∧ ∀ b, (b < n)%nat → s'.2 !! b = s.2 !! b.

(** What a copying function has to do for a list of values to be copied
    with it. *)
Definition copies (n : nat) (budget : nat)
    (clone : value → Utils.copying → option (value * Utils.copying)) : Prop :=
  ∀ v s, copying_ok n s → sourced n s.2 v → (n < size s.1 + budget)%nat →
    ∃ v' s', clone v s = Some (v', s') ∧ copying_ok n s' ∧ copying_step n s s'
             ∧ new_val n s'.2 v'.

(** The call [updateMarkerWithAPI] makes on the marker [mk], if any. *)
Definition marker_call (isShallowEqual : list obj → value → value → bool) (h : list obj)
    (mk : addr) (api : string) (prev next new : value) : list effect :=
  if negb (isShallowEqual h prev next) then [ECall mk api [new]] else [].

(** The same for a setter of [Marker.setters], from the options kept, the
    options parsed anew and their copy. *)
Definition marker_patch (isShallowEqual : list obj → value → value → bool) (h : list obj)
    (mk : addr) (prev next new : gmap string value) (s : string * string)
  : list effect :=
  marker_call isShallowEqual h mk s.1 (get prev s.2) (get next s.2) (get new s.2).

(** The calls of [toggleVisible]. *)
Definition visible_calls (isShallowEqual : list obj → value → value → bool)
    (h : list obj) (mk : addr) (prev next : value) : list effect :=
  if negb (isShallowEqual h prev next) then
    (if decide (next = VBool true) then [ECall mk "show" []] else [])
    ++ (if decide (next = VBool false) then [ECall mk "hide" []] else [])
  else [].

(** [e] is a call of [method] on the instance [a]. *)
Definition is_call_of (a : addr) (method : string) (e : effect) : Prop :=
  match e with
  | ECall a' method' _ => a' = a ∧ method' = method
  | _ => False
  end.

Global Instance is_call_of_dec a method e : Decision (is_call_of a method e).
Proof. destruct e; cbn; apply _. Defined.

Global Instance is_call_dec e : Decision (is_call e).
Proof. destruct e; cbn; apply _. Defined.

(** The outcome [r] is a return, with a result and in a world that satisfy
    [Q]. *)
Definition returned {A} (r : result A) (Q : A → world → Prop) : Prop :=
  match r with
  | Ok a w => Q a w
  | Throw _ _ => False
  end.

(** ** The life of a map *)

(** What the trace holds before the map is built: renders without the
    children, and [window.initAMapUI()]. *)
Definition pre_event (e : effect) : Prop :=
  e = ERender (Container false) ∨ e = EInitAMapUI.

(** What an update of the map [m] adds to the trace: a new
    [AMap.Bounds], and setters called on [m] with one argument. *)
Definition update_event (m : addr) (e : effect) : Prop :=
  match e with
  | ENew CBounds _ _ => True
  | ECall a api [_] => a = m ∧ api ∈ AMap.setters.*1.*1
  | _ => False
  end.

(** What the trace holds after the map [m] is built and its events are
    bound: renders with the children, new [AMap.Bounds], and calls on [m],
    [destroy] among them only once the component is unmounted. *)
Definition post_event (m : addr) (unmounted : Prop) (e : effect) : Prop :=
  match e with
  | ERender (Container true) => True
  | ENew CBounds _ _ => True
  | ECall a api _ => a = m ∧ (api = "destroy" → unmounted)
  | _ => False
  end.

(** No map yet. *)
Definition unbuilt (this : AMap.component) : Prop :=
  AMap.this_map this = VUndefined ∧ AMap.state_map this = VUndefined
  ∧ AMap.AMapEventListeners this = None.

(** The map is built: the trace [t] of the component holds one construction
    of a map, before it nothing but [pre_event]s, right after it the
    binding of one listener for each key of [parseEvents], then the
    [setState], then [post_event]s. *)
Definition built (this : AMap.component) (t : list effect) : Prop :=
  ∃ m cbs pre post container options,
    AMap.this_map this = VRef m
    ∧ keys cbs = AMap.eventKeys
    ∧ AMap.AMapEventListeners this = Some (bound cbs AMap.eventKeys)
    ∧ t = pre ++ ENew CMap [container; options] m
              :: (onCall m <$> bound cbs AMap.eventKeys)
              ++ ESetState (VRef m) :: post
    ∧ Forall pre_event pre
    ∧ Forall (post_event m (AMap.status this = AMap.Unmounted)) post
    ∧ (AMap.state_map this = VRef m ∨ AMap.state_map this = VUndefined)
    ∧ (AMap.status this = AMap.Mounted → AMap.state_map this = VRef m).

(** The three scripts the component asks for, from tag [n0] on, are
    loaded. *)
Definition loaded3 (n0 : nat) (w : world) : Prop :=
  AMap.resolved n0 w = true ∧ AMap.resolved (S n0) w = true
  ∧ AMap.resolved (S (S n0)) w = true.

(** What holds of a component constructed in the world [w0] after the
    events [evs]. *)
Definition invariant (w0 : world) (evs : list AMap.event)
    (this : AMap.component) (w : world) : Prop :=
  let n0 := length (head w0) in
  AMap.dirty this = false
  ∧ (AMap.status this = AMap.Unmounted → AMap.Unmount ∈ evs)
  ∧ (∀ i, (n0 ≤ i)%nat → AMap.resolved i w = true → AMap.Onload i ∈ evs)
  ∧ ∃ t, trace w = trace w0 ++ t ∧
      match AMap.pc this with
      | AMap.NotStarted =>
          AMap.status this = AMap.Created ∧ unbuilt this ∧ t = []
          ∧ length (head w) = n0
      | AMap.AwaitAMap p =>
          AMap.status this ≠ AMap.Created ∧ unbuilt this ∧ Forall pre_event t
          ∧ p = n0 ∧ length (head w) = S n0
          ∧ ∃ s, head w !! p = Some s ∧ lib s = LibAMap ∧ loaded s = false
      | AMap.AwaitAMapUI ui loca =>
          AMap.status this ≠ AMap.Created ∧ unbuilt this ∧ Forall pre_event t
          ∧ ui = S n0 ∧ loca = S (S n0) ∧ length (head w) = S (S (S n0))
          ∧ windowAMap w = true
          ∧ AMap.resolved n0 w = true ∧ AMap.resolved ui w = false
      | AMap.AwaitLoca loca =>
          AMap.status this ≠ AMap.Created ∧ unbuilt this ∧ Forall pre_event t
          ∧ loca = S (S n0) ∧ length (head w) = S (S (S n0))
          ∧ windowAMap w = true
          ∧ AMap.resolved n0 w = true ∧ AMap.resolved (S n0) w = true
          ∧ AMap.resolved loca w = false
      | AMap.Returned =>
          AMap.status this ≠ AMap.Created ∧ built this t ∧ windowAMap w = true
          ∧ (length (head w) = n0
             ∨ (length (head w) = S (S (S n0)) ∧ loaded3 n0 w))
      | AMap.Rejected _ => False
      end.

(** [initAMap] is suspended at one of its [await]s. *)
Definition suspended (this : AMap.component) : Prop :=
  match AMap.pc this with
  | AMap.AwaitAMap _ | AMap.AwaitAMapUI _ _ | AMap.AwaitLoca _ => True
  | _ => False
  end.

(** What a component that is unmounted, with no map in its state, adds to
    the trace: [initAMapUI()], the construction of the map, the binding of
    its listeners and the [setState] the framework ignores; no render, and
    no call but [on]. *)
Definition quiet (e : effect) : Prop :=
  match e with
  | ENew c _ _ => c = CMap
  | ECall _ method _ => method = "on"
  | ERender _ => False
  | _ => True
  end.

(** The outcome [r] of a step taken from [this] and [w] leaves the status,
    the state and the pending render of the component as they are, removes
    no listener, and adds only [quiet] effects to the trace. *)
Definition orphaned (this : AMap.component) (w : world) (r : result AMap.component) : Prop :=
  match r with
  | Ok this' w' =>
      AMap.status this' = AMap.status this ∧ AMap.state_map this' = AMap.state_map this
      ∧ AMap.dirty this' = AMap.dirty this
      ∧ registry w `prefix_of` registry w'
      ∧ ∃ t, trace w' = trace w ++ t ∧ Forall quiet t
  | Throw _ w' =>
      registry w `prefix_of` registry w'
      ∧ ∃ t, trace w' = trace w ++ t ∧ Forall quiet t
  end.

(** The number of [destroy()] calls in a trace. *)
Fixpoint destroys (t : list effect) : nat :=
  match t with
  | [] => 0
  | ECall _ method _ :: t' =>
      ((if decide (method = "destroy") then 1 else 0) + destroys t')%nat
  | _ :: t' => destroys t'
  end.

(** The component was unmounted with a map in its state: its
    [componentWillUnmount] has destroyed the map. *)
Definition torn_down (this : AMap.component) : Prop :=
  AMap.status this = AMap.Unmounted ∧ AMap.state_map this ≠ VUndefined.

Global Instance lifecycle_eq_dec : EqDecision AMap.lifecycle.
Proof. solve_decision. Defined.

Global Instance torn_down_dec this : Decision (torn_down this).
Proof. unfold torn_down. apply _. Defined.

(** The listeners of the SDK and the [destroy()] calls, for a component
    constructed in the world [w0]: as long as no listeners are recorded
    the SDK has the listeners it had; with listeners recorded for a map
    that was not destroyed it has those in addition, and after the
    [componentWillUnmount] that destroyed the map, the one [destroy()]
    there is, it has the listeners it had before. *)
Definition ledger (w0 : world) (this : AMap.component) (w : world) : Prop :=
  ∃ t, trace w = trace w0 ++ t ∧
    match AMap.AMapEventListeners this with
    | None => ¬ torn_down this ∧ registry w = registry w0 ∧ destroys t = 0%nat
    | Some l =>
        ∃ m, AMap.this_map this = VRef m ∧
          if decide (torn_down this)
          then registry w ≡ₚ registry w0 ∧ destroys t = 1%nat
          else registry w = registry w0 ++ (pair m <$> l) ∧ destroys t = 0%nat
    end.

(** What the phase of [initAMap] says of the component; [loaded] is
    whether [window.AMap] is defined. *)
Definition shape (this : AMap.component) (loaded : bool) : Prop :=
  AMap.dirty this = false
  ∧ match AMap.pc this with
    | AMap.NotStarted => AMap.status this = AMap.Created ∧ unbuilt this
    | AMap.AwaitAMap _ => AMap.status this ≠ AMap.Created ∧ unbuilt this
    | AMap.AwaitAMapUI _ _ | AMap.AwaitLoca _ =>
        AMap.status this ≠ AMap.Created ∧ unbuilt this ∧ loaded = true
    | AMap.Returned =>
        AMap.status this ≠ AMap.Created ∧ loaded = true
        ∧ ∃ m l, AMap.this_map this = VRef m ∧ AMap.AMapEventListeners this = Some l
                 ∧ (AMap.status this = AMap.Mounted → AMap.state_map this = VRef m)
    | AMap.Rejected _ => False
    end.

(** The options of the map, for a component constructed as [this0] whose
    trace since is [t]: as long as there is no map the options kept are
    those the constructor parsed; a map there is was constructed from an
    object allocated for it that holds those options. *)
Definition from_constructor (this0 this : AMap.component) (w : world)
    (t : list effect) : Prop :=
  (AMap.this_map this = VUndefined → AMap.mapOptions this = AMap.mapOptions this0)
  ∧ (∀ m, AMap.this_map this = VRef m →
       ∃ c a, ENew CMap [c; VRef a] m ∈ t
              ∧ heap w !! a = Some (Plain (AMap.mapOptions this0))).

(** * Properties *)

(** ** Running computations *)

Arguments omit : simpl never.
Arguments get : simpl never.

Ltac unfold_M :=
  unfold mbind, M_bind, mret, M_ret, modify, get_world, throw in *.

Lemma bind_ok {A B} (m : M A) (f : A → M B) w a w1 :
  m w = Ok a w1 → (m ≫= f) w = f a w1.
Proof. unfold_M. by intros ->. Qed.

Lemma call_ok a method args w :
  call (VRef a) method args w = Ok tt (emit (ECall a method args) (sdk_effect a method args w)).
Proof. reflexivity. Qed.

Lemma sdk_effect_heap a method args w : heap (sdk_effect a method args w) = heap w.
Proof.
  unfold sdk_effect. destruct args as [|[] [|? []]]; try done.
  repeat case_decide; done.
Qed.

Lemma sdk_effect_trace a method args w : trace (sdk_effect a method args w) = trace w.
Proof.
  unfold sdk_effect. destruct args as [|[] [|? []]]; try done.
  repeat case_decide; done.
Qed.

Lemma sdk_effect_windowAMap a method args w :
  windowAMap (sdk_effect a method args w) = windowAMap w.
Proof.
  unfold sdk_effect. destruct args as [|[] [|? []]]; try done.
  repeat case_decide; done.
Qed.

Lemma sdk_effect_head a method args w : head (sdk_effect a method args w) = head w.
Proof.
  unfold sdk_effect. destruct args as [|[] [|? []]]; try done.
  repeat case_decide; done.
Qed.

Lemma sdk_effect_on a e h w :
  sdk_effect a "on" [VStr e; h] w = set_registry (registry w ++ [(a, (e, h))]) w.
Proof. reflexivity. Qed.

Lemma sdk_effect_off a e h w :
  sdk_effect a "off" [VStr e; h] w = set_registry (remove_first (a, (e, h)) (registry w)) w.
Proof. reflexivity. Qed.


Lemma world_eta w :
  {| heap := heap w; windowAMap := windowAMap w; head := head w;
     registry := registry w; trace := trace w |} = w.
Proof. by destruct w. Qed.

Lemma emits_nil w : emits [] w = w.
Proof. unfold emits. rewrite app_nil_r. apply world_eta. Qed.

Lemma emits_emits t1 t2 w : emits t2 (emits t1 w) = emits (t1 ++ t2) w.
Proof. unfold emits. simpl. by rewrite app_assoc. Qed.

Lemma emit_emits e w : emit e w = emits [e] w.
Proof. reflexivity. Qed.

Lemma sdk_effect_single a method v w : sdk_effect a method [v] w = w.
Proof. unfold sdk_effect. by destruct v. Qed.

Lemma sdk_effect_none a method w : sdk_effect a method [] w = w.
Proof. reflexivity. Qed.

(** *** Rules for [runs] *)

Lemma runs_ok {A} (m : M A) w (Q : A → world → Prop) :
  runs m w Q ↔ ∃ a w', m w = Ok a w' ∧ Q a w'.
Proof.
  unfold runs. split.
  - destruct (m w) as [a w'|]; [|done]. intros. by exists a, w'.
  - by intros (a & w' & -> & ?).
Qed.

Lemma runs_ret {A} (a : A) w (Q : A → world → Prop) : Q a w → runs (mret a) w Q.
Proof. done. Qed.

Lemma runs_bind {A B} (m : M A) (f : A → M B) w (Q : B → world → Prop) :
  runs m w (λ a w1, runs (f a) w1 Q) → runs (m ≫= f) w Q.
Proof. unfold runs. unfold_M. by destruct (m w). Qed.

Lemma runs_bind_inv {A B} (m : M A) (f : A → M B) w (Q : B → world → Prop) :
  runs (m ≫= f) w Q → runs m w (λ a w1, runs (f a) w1 Q).
Proof. unfold runs. unfold_M. by destruct (m w). Qed.

Lemma runs_mono {A} (m : M A) w (P Q : A → world → Prop) :
  runs m w P → (∀ a w', P a w' → Q a w') → runs m w Q.
Proof. unfold runs. destruct (m w); [auto|done]. Qed.

Lemma runs_and {A} (m : M A) w (P Q : A → world → Prop) :
  runs m w P → runs m w Q → runs m w (λ a w', P a w' ∧ Q a w').
Proof. unfold runs. by destruct (m w). Qed.

Lemma runs_get_world w (Q : world → world → Prop) : Q w w → runs get_world w Q.
Proof. done. Qed.

Lemma runs_modify f w (Q : unit → world → Prop) : Q tt (f w) → runs (modify f) w Q.
Proof. done. Qed.

Lemma runs_alloc o w (Q : value → world → Prop) :
  Q (VRef (length (heap w))) (set_heap (heap w ++ [o]) w) → runs (alloc o) w Q.
Proof. done. Qed.

Lemma runs_new c args w (Q : value → world → Prop) :
  windowAMap w = true →
  Q (VRef (length (heap w)))
    (emit (ENew c args (length (heap w))) (set_heap (heap w ++ [Foreign c args]) w)) →
  runs (new c args) w Q.
Proof. intros Hw HQ. unfold runs, new. by rewrite Hw. Qed.

Lemma runs_call a method args w (Q : unit → world → Prop) :
  Q tt (emit (ECall a method args) (sdk_effect a method args w)) →
  runs (call (VRef a) method args) w Q.
Proof. done. Qed.

(** *** [grows] is a preorder that allocation and construction respect *)

Lemma grows_refl w : grows w w.
Proof.
  repeat split; try done. exists []. by rewrite app_nil_r.
Qed.

Lemma grows_trans w1 w2 w3 : grows w1 w2 → grows w2 w3 → grows w1 w3.
Proof.
  intros (Hh1 & Hw1 & Hd1 & Hr1 & t1 & Ht1 & Hn1) (Hh2 & Hw2 & Hd2 & Hr2 & t2 & Ht2 & Hn2).
  repeat split; try congruence.
  - by etrans.
  - exists (t1 ++ t2). split; [by rewrite Ht2, Ht1, app_assoc|]. by apply Forall_app.
Qed.

Lemma grows_alloc o w : grows w (set_heap (heap w ++ [o]) w).
Proof.
  repeat split; simpl; try done.
  - by apply prefix_app_r.
  - exists []. by rewrite app_nil_r.
Qed.

Lemma grows_new c args w :
  grows w (emit (ENew c args (length (heap w))) (set_heap (heap w ++ [Foreign c args]) w)).
Proof.
  repeat split; simpl; try done.
  - by apply prefix_app_r.
  - exists [ENew c args (length (heap w))]. split; [done|]. by repeat constructor.
Qed.

Lemma grows_lookup w w' a o : grows w w' → heap w !! a = Some o → heap w' !! a = Some o.
Proof. intros (Hh & _) Ha. by eapply prefix_lookup_Some. Qed.

Lemma grows_length w w' : grows w w' → (length (heap w) ≤ length (heap w'))%nat.
Proof. intros (Hh & _). by apply prefix_length. Qed.

(** *** Reading finite maps *)

Lemma lookup_omit ks (o : gmap string value) k :
  omit ks o !! k = if decide (k ∈ ks) then None else o !! k.
Proof.
  unfold omit. induction ks as [|k' ks IH].
  - by rewrite decide_False by set_solver.
  - change (foldr delete o (k' :: ks)) with (delete k' (foldr delete o ks)).
    rewrite lookup_delete, IH.
    destruct (decide (k' = k)) as [->|Hne].
    + by rewrite decide_True by set_solver.
    + destruct (decide (k ∈ ks)).
      * by rewrite decide_True by set_solver.
      * rewrite decide_False; [done|]. by intros [->|?]%elem_of_cons.
Qed.

Lemma get_omit ks o k : k ∉ ks → get (omit ks o) k = get o k.
Proof. intros. unfold get. rewrite lookup_omit. by case_decide. Qed.

Lemma get_insert (o : gmap string value) k v : get (<[k := v]> o) k = v.
Proof. unfold get. by rewrite lookup_insert_eq. Qed.

Lemma get_insert_ne (o : gmap string value) k k' v :
  k ≠ k' → get (<[k := v]> o) k' = get o k'.
Proof. intros. unfold get. by rewrite lookup_insert_ne. Qed.

(** ** Binding and removing listeners *)


Lemma bindKeys_spec a cbs ks l0 w :
  ∃ w1, bindKeys (VRef a) cbs ks l0 w = Ok (l0 ++ bound cbs ks) w1
    ∧ heap w1 = heap w ∧ windowAMap w1 = windowAMap w ∧ head w1 = head w
    ∧ trace w1 = trace w ++ (onCall a <$> bound cbs ks)
    ∧ registry w1 = registry w ++ (pair a <$> bound cbs ks).
Proof.
  revert l0 w. induction ks as [|k ks IH]; intros l0 w; simpl.
  - exists w. rewrite !app_nil_r. done.
  - erewrite bind_ok by apply call_ok.
    destruct (IH (l0 ++ [(eventName k, entry cbs k)])
                 (emit (ECall a "on" [VStr (eventName k); entry cbs k])
                    (sdk_effect a "on" [VStr (eventName k); entry cbs k] w)))
      as (w1 & -> & Hh & Hw & Hd & Ht & Hr).
    exists w1. rewrite <- !app_assoc. simpl in *. repeat split; try done.
    + by rewrite Ht, <- app_assoc.
    + by rewrite Hr, <- app_assoc.
Qed.

Lemma offAll_spec a l w :
  ∃ w1, offAll (VRef a) l w = Ok tt w1
    ∧ heap w1 = heap w ∧ windowAMap w1 = windowAMap w ∧ head w1 = head w
    ∧ trace w1 = trace w ++ (offCall a <$> l)
    ∧ registry w1 = foldl (λ r x, remove_first (a, x) r) (registry w) l.
Proof.
  revert w. induction l as [|[e h] l IH]; intros w; simpl.
  - exists w. by rewrite app_nil_r.
  - erewrite bind_ok by apply call_ok.
    destruct (IH (emit (ECall a "off" [VStr e; h]) (sdk_effect a "off" [VStr e; h] w)))
      as (w1 & -> & Hh & Hw & Hd & Ht & Hr).
    exists w1. simpl in *. repeat split; try done.
    by rewrite Ht, <- app_assoc.
Qed.

Lemma remove_first_perm (x : addr * listener) l :
  x ∈ l → x :: remove_first x l ≡ₚ l.
Proof.
  induction l as [|y l IH]; simpl.
  - by intros ?%elem_of_nil.
  - intros Hin. case_decide as Hxy; [by subst|].
    apply elem_of_cons in Hin as [?|Hin]; [done|].
    rewrite Permutation_swap. by rewrite IH.
Qed.

Lemma remove_all_perm a (l : list listener) r0 r :
  r ≡ₚ (pair a <$> l) ++ r0 →
  foldl (λ r x, remove_first (a, x) r) r l ≡ₚ r0.
Proof.
  revert r. induction l as [|x l IH]; intros r Hr; simpl in *; [done|].
  apply IH.
  assert ((a, x) ∈ r) as Hin by (rewrite Hr; left).
  apply remove_first_perm in Hin. rewrite <- Hin in Hr.
  by apply Permutation_cons_inv in Hr.
Qed.

Example eventName_onClick : eventName "onClick" = "click".
Proof. reflexivity. Qed.

(** C2.  [bindInstanceEvent] calls [instance.on] once for each key of the
    callback object, in the order of the keys, under the name got by
    dropping the first two characters of the key and lowercasing the rest
    ([onClick] gives [click], [onDblClick] gives [dblclick]) and with the
    handler the object has under the key, and appends one record
    [{ eventName, handler }] for each key to the list of listeners;
    [removeInstanceEvent], given the list so made, calls [instance.off] for
    the pairs bound and no other, after which the instance has the
    listeners it had before the binding: none of those the binding
    registered remains. *)
Theorem bind_then_remove_roundtrip (a : addr) (eventCallbacks : entries)
    (eventCBList : list listener) (w : world) :
  let records :=
    (λ key, (toLowerCase (substring_from 2 key), entry eventCallbacks key))
      <$> keys eventCallbacks in
  eventName "onClick" = "click" ∧ eventName "onDblClick" = "dblclick" ∧
  ∃ w1,
    bindInstanceEvent (VRef a) eventCallbacks eventCBList w
      = Ok (eventCBList ++ records) w1
    ∧ length records = length (keys eventCallbacks)
    ∧ trace w1 = trace w ++ (onCall a <$> records)
    ∧ registry w1 = registry w ++ (pair a <$> records)
    ∧ ∃ w2,
        removeInstanceEvent (VRef a) (Some records) w1 = Ok tt w2
        ∧ trace w2 = trace w1 ++ (offCall a <$> records)
        ∧ registry w2 ≡ₚ registry w.
Proof.
  intros records. split; [done|]. split; [done|].
  destruct (bindKeys_spec a eventCallbacks (keys eventCallbacks) eventCBList w)
    as (w1 & Hb & _ & _ & _ & Ht & Hr).
  exists w1. split; [exact Hb|]. split; [unfold records; by rewrite length_fmap|].
  split; [exact Ht|]. split; [exact Hr|].
  destruct (offAll_spec a records w1) as (w2 & Ho & _ & _ & _ & Ht2 & Hr2).
  exists w2. split; [exact Ho|]. split; [exact Ht2|].
  rewrite Hr2. apply remove_all_perm. rewrite Hr. apply Permutation_app_comm.
Qed.

(** ** Parsing the options *)

Lemma stripped_not_bounds :
  Forall (λ k, k ≠ "bounds" ∧ k ≠ "boundsProp") (AMap.loaderKeys ++ AMap.eventKeys).
Proof. by apply (bool_decide_unpack _); vm_compute. Qed.

Lemma as_array_instanceof h v es c : as_array h v = Some es → instanceof h v c = false.
Proof. unfold as_array, instanceof. by destruct (lookup_obj h v) as [[]|]. Qed.

Lemma mapOptions_lookup (p : gmap string value) b bp :
  let o := <["boundsProp" := bp]> (<["bounds" := b]> (omit (AMap.loaderKeys ++ AMap.eventKeys) p)) in
  (∀ k, k ∈ (AMap.loaderKeys ++ AMap.eventKeys) → o !! k = None)
  ∧ (∀ k, k ∉ (AMap.loaderKeys ++ AMap.eventKeys) → k ≠ "bounds" → k ≠ "boundsProp" →
       o !! k = p !! k)
  ∧ o !! "boundsProp" = Some bp ∧ o !! "bounds" = Some b.
Proof.
  intros o. subst o.
  pose proof stripped_not_bounds as Hs. rewrite Forall_forall in Hs.
  repeat split.
  - intros k Hk. destruct (Hs _ Hk).
    rewrite !lookup_insert_ne, lookup_omit by done. by rewrite decide_True.
  - intros k Hk ? ?.
    rewrite !lookup_insert_ne, lookup_omit by done. by rewrite decide_False.
  - by rewrite lookup_insert_eq.
  - by rewrite lookup_insert_ne, lookup_insert_eq.
Qed.

Lemma parseMapOptions_spec p w :
  runs (AMap.parseMapOptions p) w (λ o w',
    grows w w'
    ∧ (∀ k, k ∈ (AMap.loaderKeys ++ AMap.eventKeys) → o !! k = None)
    ∧ (∀ k, k ∉ (AMap.loaderKeys ++ AMap.eventKeys) → k ≠ "bounds" → k ≠ "boundsProp" →
         o !! k = p !! k)
    ∧ o !! "boundsProp" = Some (if windowAMap w then get p "bounds" else VUndefined)
    ∧ o !! "bounds" =
        Some (if windowAMap w then
                if instanceof (heap w) (get p "bounds") CBounds then get p "bounds"
                else match as_array (heap w) (get p "bounds") with
                     | Some _ => VRef (length (heap w))
                     | None => get p "bounds"
                     end
              else VUndefined)
    ∧ w' = match as_array (heap w) (get p "bounds") with
           | Some es =>
               if windowAMap w
               then emit (ENew CBounds es (length (heap w)))
                      (set_heap (heap w ++ [Foreign CBounds es]) w)
               else w
           | None => w
           end).
Proof.
  unfold AMap.parseMapOptions.
  pose proof stripped_not_bounds as Hs. rewrite Forall_forall in Hs.
  rewrite !get_omit by (intros Hin; by destruct (Hs _ Hin)).
  apply runs_bind, runs_get_world.
  destruct (windowAMap w) eqn:Hw; cbn [negb].
  - destruct (instanceof (heap w) (get p "bounds") CBounds) eqn:Hi.
    + apply runs_bind, runs_ret, runs_bind, runs_get_world, runs_ret.
      rewrite Hw. cbn [negb].
      destruct (as_array _ _) eqn:Ha; [by rewrite (as_array_instanceof _ _ _ _ Ha) in Hi|].
      split; [apply grows_refl|]. 
      destruct (mapOptions_lookup p (get p "bounds") (get p "bounds")) as (?&?&?&?).
      repeat split; assumption.
    + destruct (as_array _ _) as [es|] eqn:Ha.
      * apply runs_bind, runs_new; [done|]. apply runs_bind, runs_get_world, runs_ret.
        cbn [windowAMap emit set_heap]. rewrite Hw. cbn [negb].
        split; [apply grows_new|].
        destruct (mapOptions_lookup p (VRef (length (heap w))) (get p "bounds")) as (?&?&?&?).
        repeat split; assumption.
      * apply runs_bind, runs_ret, runs_bind, runs_get_world, runs_ret.
        rewrite Hw. cbn [negb].
        split; [apply grows_refl|]. 
        destruct (mapOptions_lookup p (get p "bounds") (get p "bounds")) as (?&?&?&?).
        repeat split; assumption.
  - apply runs_bind, runs_ret, runs_bind, runs_get_world, runs_ret.
    rewrite Hw. cbn [negb].
    split; [apply grows_refl|]. 
    destruct (mapOptions_lookup p VUndefined VUndefined) as (?&?&?&?).
    destruct (as_array _ _); repeat split; assumption.
Qed.

Lemma instanceof_grows w w' v c :
  grows w w' → instanceof (heap w) v c = true → instanceof (heap w') v c = true.
Proof.
  intros Hg. unfold instanceof. destruct v; cbn [lookup_obj]; try done.
  destruct (heap w !! a) as [o|] eqn:Ha; [|done].
  by rewrite (grows_lookup _ _ _ _ Hg Ha).
Qed.

Lemma instanceof_new h c args :
  instanceof (h ++ [Foreign c args]) (VRef (length h)) c = true.
Proof.
  unfold instanceof. cbn [lookup_obj]. rewrite lookup_app_r by lia.
  rewrite Nat.sub_diag. cbn [lookup list_lookup]. by rewrite bool_decide_true.
Qed.

Lemma runs_instanceofAMap v c w (Q : bool → world → Prop) :
  windowAMap w = true → Q (instanceof (heap w) v c) w →
  runs (Marker.instanceofAMap v c) w Q.
Proof. intros Hw HQ. unfold runs, Marker.instanceofAMap. by rewrite Hw. Qed.

Lemma pixel_spec v x y w :
  windowAMap w = true →
  runs (Marker.pixel v x y) w (λ v' w',
    grows w w' ∧ instanceof (heap w') v' CPixel = true).
Proof.
  intros Hw. unfold Marker.pixel.
  apply runs_bind, runs_instanceofAMap; [done|].
  destruct (instanceof (heap w) v CPixel) eqn:Hi.
  - apply runs_ret. split; [apply grows_refl|done].
  - apply runs_bind, runs_get_world.
    destruct (as_array (heap w) v) as [es|].
    + apply runs_new; [done|]. split; [apply grows_new|]. apply instanceof_new.
    + apply runs_new; [done|]. split; [apply grows_new|]. apply instanceof_new.
Qed.

Lemma parseIcon_spec icon w :
  windowAMap w = true →
  runs (Marker.parseIcon icon) w (λ v w',
    grows w w' ∧ (v = VNull ∨ instanceof (heap w') v CIcon = true)).
Proof.
  intros Hw. unfold Marker.parseIcon.
  destruct (Utils.isNullVoid icon).
  { apply runs_ret. split; [apply grows_refl|by left]. }
  apply runs_bind, runs_instanceofAMap; [done|].
  destruct (instanceof (heap w) icon CIcon) eqn:Hi.
  { apply runs_ret. split; [apply grows_refl|by right]. }
  apply runs_bind, runs_get_world. cbv zeta.
  apply runs_bind. eapply runs_mono; [by apply pixel_spec|].
  intros px w1 [Hg1 _].
  apply runs_bind, runs_alloc, runs_new.
  { cbn [windowAMap set_heap]. destruct Hg1 as (_ & -> & _). done. }
  split; [|right; apply instanceof_new].
  eapply grows_trans; [exact Hg1|]. eapply grows_trans; [apply grows_alloc|apply grows_new].
Qed.


Lemma parseLabel_spec label w :
  windowAMap w = true →
  runs (Marker.parseLabel label) w (λ v w', grows w w' ∧ is_label (heap w') v).
Proof.
  intros Hw. unfold Marker.parseLabel.
  destruct (Utils.isNullVoid label).
  { apply runs_ret. split; [apply grows_refl|by left]. }
  apply runs_bind, runs_get_world. cbv zeta.
  apply runs_bind. eapply runs_mono; [by apply pixel_spec|].
  intros px w1 [Hg1 Hpx].
  apply runs_alloc. split.
  - eapply grows_trans; [exact Hg1|apply grows_alloc].
  - right. eexists _, px. split; [|split].
    + cbn [heap set_heap lookup_obj]. rewrite lookup_app_r by lia.
      by rewrite Nat.sub_diag.
    + by rewrite lookup_insert_eq.
    + eapply instanceof_grows; [apply grows_alloc|exact Hpx].
Qed.
Lemma is_label_grows w w' v : grows w w' → is_label (heap w) v → is_label (heap w') v.
Proof.
  intros Hg [->|(f & px & Hf & Hpx & Hi)]; [by left|right].
  exists f, px. split; [|split; [done|by eapply instanceof_grows]].
  destruct v; try done. cbn [lookup_obj] in *. by eapply grows_lookup.
Qed.

Lemma callbacks_not_reshaped :
  Forall (λ k, k ≠ "icon" ∧ k ≠ "label" ∧ k ≠ "offset") Marker.callbackKeys.
Proof. by apply (bool_decide_unpack _); vm_compute. Qed.

Lemma markerOptions_lookup (p : gmap string value) i l x :
  let o := <["offset" := x]> (<["label" := l]> (<["icon" := i]>
             (omit Marker.callbackKeys p))) in
  (∀ k, k ∈ Marker.callbackKeys → o !! k = None)
  ∧ (∀ k, k ∉ Marker.callbackKeys → k ≠ "icon" → k ≠ "label" → k ≠ "offset" →
       o !! k = p !! k)
  ∧ o !! "icon" = Some i ∧ o !! "label" = Some l ∧ o !! "offset" = Some x.
Proof.
  intros o. subst o.
  pose proof callbacks_not_reshaped as Hs. rewrite Forall_forall in Hs.
  repeat split.
  - intros k Hk. destruct (Hs _ Hk) as (? & ? & ?).
    rewrite !lookup_insert_ne, lookup_omit by done. by rewrite decide_True.
  - intros k Hk ? ? ?.
    rewrite !lookup_insert_ne, lookup_omit by done. by rewrite decide_False.
  - rewrite !lookup_insert_ne by done. by rewrite lookup_insert_eq.
  - rewrite lookup_insert_ne by done. by rewrite lookup_insert_eq.
  - by rewrite lookup_insert_eq.
Qed.

Lemma parseMarkerOptions_spec p w :
  windowAMap w = true →
  runs (Marker.parseMarkerOptions p) w (λ o w',
    grows w w'
    ∧ (∀ k, k ∈ Marker.callbackKeys → o !! k = None)
    ∧ (∀ k, k ∉ Marker.callbackKeys → k ≠ "icon" → k ≠ "label" → k ≠ "offset" →
         o !! k = p !! k)
    ∧ (∃ i, o !! "icon" = Some i ∧ (i = VNull ∨ instanceof (heap w') i CIcon = true))
    ∧ (∃ l, o !! "label" = Some l ∧ is_label (heap w') l)
    ∧ (∃ x, o !! "offset" = Some x ∧ instanceof (heap w') x CPixel = true)).
Proof.
  intros Hw. unfold Marker.parseMarkerOptions. cbv zeta.
  apply runs_bind.
  assert (runs (if decide (get (omit Marker.callbackKeys p) "label" = VUndefined)
                then alloc (Plain ∅) else mret (get (omit Marker.callbackKeys p) "label"))
            w (λ _ w0, grows w w0)) as H0.
  { case_decide; [apply runs_alloc, grows_alloc|apply runs_ret, grows_refl]. }
  eapply runs_mono; [exact H0|]. clear H0. intros label w0 Hg0. cbv beta in Hg0.
  assert (windowAMap w0 = true) as Hw0 by (destruct Hg0 as (_ & -> & _); done).
  apply runs_bind. eapply runs_mono; [by apply parseIcon_spec|].
  intros i w1 [Hg1 Hi].
  assert (windowAMap w1 = true) as Hw1 by (destruct Hg1 as (_ & -> & _); done).
  apply runs_bind. eapply runs_mono; [by apply parseLabel_spec|].
  intros l w2 [Hg2 Hl].
  assert (windowAMap w2 = true) as Hw2 by (destruct Hg2 as (_ & -> & _); done).
  apply runs_bind. eapply runs_mono; [by apply pixel_spec|].
  intros x w3 [Hg3 Hx]. apply runs_ret.
  destruct (markerOptions_lookup p i l x) as (H1 & H2 & H3 & H4 & H5).
  split.
  { eapply grows_trans; [exact Hg0|]. eapply grows_trans; [exact Hg1|].
    eapply grows_trans; [exact Hg2|exact Hg3]. }
  split; [exact H1|]. split; [exact H2|].
  split; [|split].
  - exists i. split; [exact H3|]. destruct Hi as [->|Hi]; [by left|right].
    eapply instanceof_grows; [|exact Hi]. by eapply grows_trans.
  - exists l. split; [exact H4|]. by eapply is_label_grows.
  - exists x. split; [exact H5|exact Hx].
Qed.
(** C6, as the code has it.  [AMap.parseMapOptions] returns an object with
    none of the loader's keys and none of the event callbacks, in which
    every other prop but [bounds] and [boundsProp] is the one given;
    [boundsProp] is added and holds the [bounds] given, [bounds] is that
    prop, a new [AMap.Bounds] when it is an array, and both are
    [undefined] as long as the SDK is not loaded.  Once the SDK is loaded,
    [Marker.parseMarkerOptions] returns an object with none of the
    callbacks it names, in which [icon] is [null] or an [AMap.Icon],
    [label] is [null] or an object with a Pixel under [offset], [offset] is
    a Pixel, and every other prop is the one given. *)
Theorem parse_options_separate_configuration (p : gmap string value) (w : world) :
  runs (AMap.parseMapOptions p) w (λ o w',
      (∀ k, k ∈ (AMap.loaderKeys ++ AMap.eventKeys) → o !! k = None)
    ∧ (∀ k, k ∉ (AMap.loaderKeys ++ AMap.eventKeys) → k ≠ "bounds" → k ≠ "boundsProp" →
         o !! k = p !! k)
    ∧ o !! "boundsProp" = Some (if windowAMap w then get p "bounds" else VUndefined)
    ∧ o !! "bounds" =
        Some (if windowAMap w then
                if instanceof (heap w) (get p "bounds") CBounds then get p "bounds"
                else match as_array (heap w) (get p "bounds") with
                     | Some _ => VRef (length (heap w))
                     | None => get p "bounds"
                     end
              else VUndefined))
  ∧ (windowAMap w = true →
     runs (Marker.parseMarkerOptions p) w (λ o w',
        (∀ k, k ∈ Marker.callbackKeys → o !! k = None)
      ∧ (∀ k, k ∉ Marker.callbackKeys → k ≠ "icon" → k ≠ "label" → k ≠ "offset" →
           o !! k = p !! k)
      ∧ (∃ i, o !! "icon" = Some i ∧ (i = VNull ∨ instanceof (heap w') i CIcon = true))
      ∧ (∃ l, o !! "label" = Some l ∧ is_label (heap w') l)
      ∧ (∃ x, o !! "offset" = Some x ∧ instanceof (heap w') x CPixel = true))).
Proof.
  split.
  - eapply runs_mono; [apply parseMapOptions_spec|].
    intros o w' (_ & H1 & H2 & H3 & H4 & _). auto.
  - intros Hw. eapply runs_mono; [by apply parseMarkerOptions_spec|].
    intros o w' (_ & H). exact H.
Qed.

Lemma parse_options_witness :
  windowAMap (Example.page true) = true
  ∧ runs (Marker.parseMarkerOptions Example.marker_props) (Example.page true)
      (λ o w', o !! "onClick" = None ∧ o !! "title" = Some (VStr "here")).
Proof.
  split; [reflexivity|].
  destruct (parse_options_separate_configuration Example.marker_props (Example.page true))
    as [_ H].
  eapply runs_mono; [apply H; reflexivity|].
  intros o w' (H1 & H2 & _). split.
  - apply H1. by apply (bool_decide_unpack _); vm_compute.
  - rewrite H2; [reflexivity| | | |]; by apply (bool_decide_unpack _); vm_compute.
Defined.

(** C6, as the claim has it, fails on [boundsProp]: it is none of the keys
    taken out and it is not [bounds], the props have nothing under it, and
    the object returned has the bounds given there. *)
Lemma parseMapOptions_adds_boundsProp :
  ("boundsProp" ∉ AMap.loaderKeys ++ AMap.eventKeys)
  ∧ ("boundsProp" ≠ "bounds")
  ∧ get Example.map_props "boundsProp" = VUndefined
  ∧ runs (AMap.parseMapOptions Example.map_props) (Example.page true)
      (λ o _, get o "boundsProp" = VRef 0%nat).
Proof.
  split; [by apply (bool_decide_unpack _); vm_compute|].
  split; [done|]. split; [by vm_compute|].
  vm_compute. reflexivity.
Qed.

(** ** Updating the map *)

Lemma updateMapWithAPI_emits isEq this m api prev next np t w :
  AMap.this_map this = VRef m →
  AMap.updateMapWithAPI isEq this api prev next np (emits t w)
  = Ok tt (emits (t ++ map_call isEq (heap w) m api prev next (default next np)) w).
Proof.
  intros Hm. unfold AMap.updateMapWithAPI, map_call. unfold_M. cbn [heap emits].
  destruct (isEq (heap w) prev next); cbn [negb andb].
  - by rewrite app_nil_r.
  - destruct (bool_decide (api = "setCenter") && negb (truthy (default next np)))%bool;
      cbn [negb].
    + by rewrite app_nil_r.
    + rewrite Hm, call_ok, sdk_effect_single, emit_emits, emits_emits. done.
Qed.

Lemma componentDidUpdate_run isEq this m w next w1 :
  AMap.this_map this = VRef m →
  AMap.parseMapOptions (AMap.props this) w = Ok next w1 →
  AMap.componentDidUpdate isEq this w
  = Ok (AMap.with_mapOptions next this)
       (emits (flat_map (map_patch isEq (heap w1) m (AMap.mapOptions this) next)
                 AMap.setters) w1).
Proof.
  intros Hm Hp. unfold AMap.componentDidUpdate.
  rewrite decide_False by (rewrite Hm; discriminate).
  rewrite (bind_ok _ _ _ _ _ Hp). cbv zeta.
  rewrite <- (emits_nil w1) at 1.
  repeat (erewrite bind_ok by (apply updateMapWithAPI_emits; exact Hm)).
  unfold mret, M_ret. f_equal. f_equal.
  rewrite <- !app_assoc. unfold AMap.setters, map_patch.
  cbn [flat_map app fst snd default]. by rewrite app_nil_r.
Qed.

Lemma map_call_elem isEq h m api prev next arg e :
  e ∈ map_call isEq h m api prev next arg ↔
  e = ECall m api [arg] ∧ isEq h prev next = false
  ∧ (api = "setCenter" → truthy arg = true).
Proof.
  unfold map_call.
  destruct (isEq h prev next); cbn [negb andb].
  { split; [by intros ?%elem_of_nil|by intros (_ & ? & _)]. }
  destruct (bool_decide_reflect (api = "setCenter")) as [->|Hne]; cbn [negb andb].
  - destruct (truthy arg); cbn [negb].
    + rewrite list_elem_of_singleton. by intuition.
    + split; [by intros ?%elem_of_nil|]. intros (_ & _ & H). by discriminate H.
  - rewrite list_elem_of_singleton. by intuition.
Qed.

Lemma setters_NoDup : NoDup (AMap.setters.*1.*1).
Proof. by apply (bool_decide_unpack _); vm_compute. Qed.

Lemma setters_functional api k1 k1' k2 k2' :
  (api, k1, k1') ∈ AMap.setters → (api, k2, k2') ∈ AMap.setters → k1 = k2 ∧ k1' = k2'.
Proof.
  pose proof setters_NoDup as Hnd. revert Hnd.
  generalize AMap.setters. intros l. induction l as [|[[a b] c] l IH]; cbn [fmap list_fmap fst].
  - by intros _ ?%elem_of_nil.
  - intros [Hn Hnd]%NoDup_cons [Heq|H1]%elem_of_cons [Heq'|H2]%elem_of_cons.
    + by simplify_eq.
    + simplify_eq. exfalso. apply Hn.
      apply (list_elem_of_fmap_2 fst) in H2. by apply (list_elem_of_fmap_2 fst) in H2.
    + simplify_eq. exfalso. apply Hn.
      apply (list_elem_of_fmap_2 fst) in H1. by apply (list_elem_of_fmap_2 fst) in H1.
    + by apply IH.
Qed.

Lemma map_patches_called isEq h m prev next api k k' :
  (api, k, k') ∈ AMap.setters →
  called m api (flat_map (map_patch isEq h m prev next) AMap.setters)
  ↔ isEq h (get prev k) (get next k) = false
    ∧ (api = "setCenter" → truthy (get next k') = true).
Proof.
  intros Hin. unfold called. split.
  - intros (args & (s & Hs & He)%list_elem_of_In%in_flat_map).
    apply list_elem_of_In in Hs, He.
    destruct s as [[api2 k2] k2']. unfold map_patch in He. cbn [fst snd] in He.
    apply map_call_elem in He as (Heq & Hne & Hc). simplify_eq.
    destruct (setters_functional _ _ _ _ _ Hin Hs) as [-> ->]. done.
  - intros [Hne Hc]. exists [get next k'].
    apply list_elem_of_In, in_flat_map. exists (api, k, k').
    split; apply list_elem_of_In; [done|].
    unfold map_patch. cbn [fst snd]. by apply map_call_elem.
Qed.

(** ** Deep copies *)

Lemma memo_size (m : gmap nat nat) n :
  (∀ a a', m !! a = Some a' → (a < n)%nat) → (size m ≤ n)%nat.
Proof.
  intros Hm. rewrite <- size_dom.
  assert (dom m ⊆ set_seq (C := gset nat) 0 n) as H.
  { intros a [a' Ha]%elem_of_dom. apply elem_of_set_seq. split; [lia|].
    cbn. eauto. }
  apply subseteq_size in H. by rewrite size_set_seq in H.
Qed.

Lemma obj_values_blank o : obj_values (Utils.rebuild o []) = [].
Proof.
  destruct o as [f| | |]; cbn [Utils.rebuild obj_values]; try done.
  replace (zip (map_to_list f).*1 ([] : list value)) with ([] : list (string * value)).
  - by rewrite list_to_map_nil, map_to_list_empty.
  - by destruct ((map_to_list f).*1).
Qed.

Lemma obj_values_rebuild o vs v : v ∈ obj_values (Utils.rebuild o vs) → v ∈ vs.
Proof.
  destruct o as [f| | |]; cbn [Utils.rebuild obj_values]; try done.
  - intros ([k v'] & -> & Hin)%list_elem_of_fmap.
    apply elem_of_map_to_list, elem_of_list_to_map_2 in Hin.
    by apply elem_of_zip_r in Hin.
  - by intros ?%elem_of_nil.
Qed.

Lemma new_val_mono n h h' v : (length h ≤ length h')%nat → new_val n h v → new_val n h' v.
Proof. destruct v; cbn; try done. lia. Qed.

Lemma new_val_weaken n n' h v : (n ≤ n')%nat → new_val n' h v → new_val n h v.
Proof. destruct v; cbn; try done. lia. Qed.

Lemma reachable_agree n h h' v b :
  (∀ a, (a < n)%nat → h' !! a = h !! a) → sourced n h v →
  reachable h' v b → reachable h v b.
Proof.
  intros Hagree Hs Hr. induction Hr as [a|a o v b Ha Hin _ IH]; [constructor|].
  assert (a < n)%nat as Hlt by (apply Hs; constructor).
  rewrite Hagree in Ha by done.
  eapply reach_step; [exact Ha|exact Hin|]. apply IH.
  intros c Hc. apply Hs. by eapply reach_step.
Qed.

Lemma sourced_agree n h h' v :
  (∀ a, (a < n)%nat → h' !! a = h !! a) → sourced n h v → sourced n h' v.
Proof. intros Hagree Hs b Hb. apply Hs. by eapply reachable_agree. Qed.

Lemma copying_step_refl n s : copying_step n s s.
Proof. by repeat split. Qed.

Lemma copying_step_trans n s1 s2 s3 :
  copying_step n s1 s2 → copying_step n s2 s3 → copying_step n s1 s3.
Proof.
  intros (Hm1 & Hl1 & Ha1) (Hm2 & Hl2 & Ha2). repeat split.
  - by etrans.
  - lia.
  - intros b Hb. by rewrite Ha2, Ha1.
Qed.

Lemma cloneList_spec n budget clone vs s :
  copies n budget clone → copying_ok n s → Forall (sourced n s.2) vs →
  (n < size s.1 + budget)%nat →
  ∃ vs' s', Utils.cloneList clone vs s = Some (vs', s') ∧ copying_ok n s'
            ∧ copying_step n s s' ∧ Forall (new_val n s'.2) vs'.
Proof.
  intros Hc. revert s.
  induction vs as [|v vs IH]; intros s Hok Hsrc Hsz; cbn [Utils.cloneList].
  - exists [], s. split; [done|]. split; [exact Hok|].
    split; [apply copying_step_refl|constructor].
  - apply Forall_cons in Hsrc as [Hv Hvs].
    destruct (Hc v s Hok Hv Hsz) as (v' & s1 & -> & Hok1 & Hst1 & Hv').
    assert (n < size s1.1 + budget)%nat as Hsz1.
    { destruct Hst1 as (Hm & _). apply map_subseteq_size in Hm. lia. }
    assert (Forall (sourced n s1.2) vs) as Hvs1.
    { eapply Forall_impl; [exact Hvs|]. intros x. apply sourced_agree. apply Hst1. }
    destruct (IH s1 Hok1 Hvs1 Hsz1) as (vs' & s2 & -> & Hok2 & Hst2 & Hvs').
    exists (v' :: vs'), s2. split; [done|]. split; [done|].
    split; [by eapply copying_step_trans|]. constructor; [|done].
    eapply new_val_mono; [|exact Hv']. apply Hst2.
Qed.

Lemma cloneValue_spec n fuel : copies n fuel (Utils.cloneValue fuel n).
Proof.
  induction fuel as [|fuel IH]; intros v [m h] Hok Hsrc Hsz.
  - pose proof Hok as (Hn & Hm & Hcl). cbn [fst snd] in *.
    assert (size m ≤ n)%nat by (apply memo_size; intros a a' Ha; by apply (Hm a a')).
    lia.
  - pose proof Hok as (Hn & Hm & Hcl). cbn [fst snd] in *.
    destruct v as [| | | | |a];
      try (eexists _, (m, h); split; [reflexivity|];
           split; [exact Hok|]; split; [apply copying_step_refl|exact I]).
    cbn [Utils.cloneValue fst snd].
    destruct (m !! a) as [a'|] eqn:Hma.
    { exists (VRef a'), (m, h). split; [done|]. split; [exact Hok|].
      split; [apply copying_step_refl|]. by destruct (Hm a a' Hma) as (_ & ?). }
    assert (a < n)%nat as Hlt by (apply Hsrc; constructor).
    rewrite decide_True by done.
    destruct (h !! a) as [o|] eqn:Hha; cycle 1.
    { apply lookup_ge_None in Hha. lia. }
    set (s1 := (<[a := length h]> m, h ++ [Utils.rebuild o []])).
    assert (copying_ok n s1) as Hok1.
    { subst s1. split; [|split]; cbn [fst snd].
      - rewrite length_app. lia.
      - intros b b'. rewrite lookup_insert. case_decide as Hab.
        + intros [= <-]. rewrite length_app. cbn. lia.
        + intros Hb. destruct (Hm b b' Hb) as (? & ? & ?). rewrite length_app. lia.
      - intros b o' Hb. destruct (decide (b < length h)%nat) as [Hbl|Hbl].
        + rewrite lookup_app_l by done. intros Ho.
          eapply Forall_impl; [by apply (Hcl b o')|].
          intros x. apply new_val_mono. rewrite length_app. lia.
        + rewrite lookup_app_r by lia. intros Ho.
          apply list_lookup_singleton_Some in Ho as [_ <-].
          rewrite obj_values_blank. constructor. }
    assert (n < size s1.1 + fuel)%nat as Hsz1.
    { subst s1. cbn [fst]. rewrite map_size_insert_None by done. lia. }
    assert (Forall (sourced n s1.2) (obj_values o)) as Hsrc1.
    { apply Forall_forall. intros x Hx. subst s1. cbn [snd].
      apply (sourced_agree n h); [intros c Hc; by rewrite lookup_app_l by lia|].
      intros c Hc. apply Hsrc. by eapply reach_step. }
    destruct (cloneList_spec n fuel _ (obj_values o) s1 IH Hok1 Hsrc1 Hsz1)
      as (vs' & [m2 h2] & -> & Hok2 & Hst2 & Hvs').
    destruct Hok2 as (Hn2 & Hm2 & Hcl2). destruct Hst2 as (Hsub & Hlen & Hagree).
    subst s1. cbn [fst snd] in *. rewrite length_app in Hlen. cbn [length] in Hlen.
    eexists _, _. split; [reflexivity|]. split; [|split].
    + split; [|split]; cbn [fst snd].
      * rewrite length_insert. lia.
      * intros b b' Hb. rewrite length_insert. by apply Hm2.
      * intros b o' Hb. destruct (decide (b = length h)) as [->|Hne].
        -- rewrite list_lookup_insert_eq by lia. intros [= <-].
           apply Forall_forall. intros v Hv. apply obj_values_rebuild in Hv.
           rewrite Forall_forall in Hvs'.
           eapply new_val_mono; [|by apply Hvs']. by rewrite length_insert.
        -- rewrite list_lookup_insert_ne by done. intros Ho.
           eapply Forall_impl; [by apply (Hcl2 b o')|].
           intros x. apply new_val_mono. by rewrite length_insert.
    + split; [|split]; cbn [fst snd].
      * etrans; [|exact Hsub]. by apply insert_subseteq.
      * rewrite length_insert. lia.
      * intros b Hb. rewrite list_lookup_insert_ne by lia.
        rewrite Hagree by done. by rewrite lookup_app_l by lia.
    + cbn. rewrite length_insert. lia.
Qed.

Lemma closed_from_nil h : closed_from (length h) h.
Proof. intros b o Hb Ho. apply lookup_lt_Some in Ho. lia. Qed.

Lemma closed_from_mono n n' h h' :
  (n ≤ n')%nat → (n' ≤ length h)%nat → h `prefix_of` h' →
  closed_from n h → closed_from n' h' → closed_from n h'.
Proof.
  intros Hn Hn' Hp Hc Hc' b o Hb Ho. destruct (decide (b < n')%nat) as [Hlt|Hge].
  - assert (h !! b = Some o) as Ho'.
    { destruct Hp as [k ->]. by rewrite lookup_app_l in Ho by lia. }
    eapply Forall_impl; [apply (Hc b o Hb Ho')|].
    intros v. apply new_val_mono. by apply prefix_length.
  - eapply Forall_impl; [apply (Hc' b o); [lia|done]|].
    intros v. by apply new_val_weaken.
Qed.

Lemma agree_prefix (h h' : list obj) :
  (length h ≤ length h')%nat → (∀ b, (b < length h)%nat → h' !! b = h !! b) →
  h `prefix_of` h'.
Proof.
  intros Hl Ha. exists (drop (length h) h').
  rewrite <- (take_drop (length h) h') at 1. f_equal.
  apply list_eq. intros b. destruct (decide (b < length h)%nat).
  - rewrite lookup_take_lt by done. by apply Ha.
  - rewrite lookup_take_ge by lia. symmetry. apply lookup_ge_None. lia.
Qed.

Lemma prefix_agree (h h' : list obj) b :
  h `prefix_of` h' → (b < length h)%nat → h' !! b = h !! b.
Proof. intros [k ->] Hb. by rewrite lookup_app_l. Qed.

Lemma cloneDeepValue_spec v w :
  sourced (length (heap w)) (heap w) v →
  runs (Utils.cloneDeepValue v) w (λ v' w',
    grows w w' ∧ trace w' = trace w
    ∧ new_val (length (heap w)) (heap w') v' ∧ closed_from (length (heap w)) (heap w')).
Proof.
  intros Hsrc. unfold runs, Utils.cloneDeepValue.
  assert (copying_ok (length (heap w)) (∅, heap w)) as Hok.
  { split; [done|]. split; [|apply closed_from_nil].
    intros a a'. cbn [fst]. by rewrite lookup_empty. }
  destruct (cloneValue_spec (length (heap w)) (S (length (heap w))) v (∅, heap w) Hok Hsrc)
    as (v' & [m' h'] & -> & (_ & _ & Hcl) & (_ & Hlen & Hagree) & Hv').
  { cbn [fst]. rewrite map_size_empty. lia. }
  cbn [fst snd] in *. repeat split; try done.
  - cbn [heap set_heap]. by apply agree_prefix.
  - exists []. cbn [trace set_heap]. by rewrite app_nil_r.
Qed.

(** What can be reached from a new value of a closed heap is new, also
    after the heap has grown. *)
Lemma reachable_new n h h' v b :
  closed_from n h → new_val n h v → h `prefix_of` h' →
  reachable h' v b → (n ≤ b < length h)%nat.
Proof.
  intros Hc Hv Hp Hr. induction Hr as [a|a o v b Ha Hin _ IH]; [exact Hv|].
  apply IH. cbn in Hv. rewrite (prefix_agree h h') in Ha by (done || lia).
  assert (n ≤ a)%nat as Hn by lia.
  specialize (Hc a o Hn Ha). rewrite Forall_forall in Hc. by apply Hc.
Qed.

Lemma cloneDeep_spec fields : ∀ o w n0 (cloned : list string),
  (n0 ≤ length (heap w))%nat → closed_from n0 (heap w) →
  (∀ k v, k ∈ cloned → o !! k = Some v → new_val n0 (heap w) v) →
  (∀ k v, k ∉ cloned → k ∈ fields → o !! k = Some v → sourced n0 (heap w) v) →
  runs (Utils.cloneDeep o fields) w (λ o' w',
    grows w w' ∧ trace w' = trace w ∧ closed_from n0 (heap w')
    ∧ (∀ k, k ∉ fields → o' !! k = o !! k)
    ∧ (∀ k v, k ∈ cloned ∨ k ∈ fields → o' !! k = Some v → new_val n0 (heap w') v)
    ∧ (∀ k, is_Some (o' !! k) ↔ is_Some (o !! k))).
Proof.
  induction fields as [|k fields IH]; intros o w n0 cloned Hn Hc Hnew Hsrc;
    cbn [Utils.cloneDeep].
  - apply runs_ret. split; [apply grows_refl|].
    split; [done|]. split; [done|]. split; [done|]. split; [|done].
    intros k v [Hk|Hk%elem_of_nil]; [by apply Hnew|done].
  - destruct (o !! k) as [v|] eqn:Hk.
    + assert (sourced (length (heap w)) (heap w) v) as Hv.
      { intros b Hb. destruct (decide (k ∈ cloned)) as [Hin|Hin].
        - eapply (reachable_new n0 (heap w) (heap w)); [done| |done|exact Hb].
          by apply (Hnew k).
        - assert (b < n0)%nat; [|lia]. apply (Hsrc k v); [done|by left|done|done]. }
      apply runs_bind. eapply runs_mono; [by apply cloneDeepValue_spec|].
      intros v' w1 (Hg1 & Ht1 & Hv' & Hc1).
      pose proof (grows_length _ _ Hg1) as Hlen.
      assert (heap w `prefix_of` heap w1) as Hp by apply Hg1.
      assert (closed_from n0 (heap w1)) as Hc1'.
      { apply (closed_from_mono n0 (length (heap w)) (heap w));
          [exact Hn|lia|exact Hp|exact Hc|exact Hc1]. }
      eapply runs_mono.
      { apply (IH (<[k := v']> o) w1 n0 (k :: cloned)); [lia|done| |].
        - intros x y Hx. rewrite lookup_insert. case_decide as Hkx.
          + intros [= <-]. by eapply new_val_weaken.
          + intros Hy. apply elem_of_cons in Hx as [->|Hx]; [done|].
            eapply new_val_mono; [exact Hlen|]. by apply (Hnew x).
        - intros x y Hx Hxf. rewrite lookup_insert_ne by (intros ->; apply Hx; by left).
          intros Hy. apply (sourced_agree n0 (heap w)).
          + intros a Ha. apply prefix_agree; [done|lia].
          + apply (Hsrc x y); [|by right|done]. intros ?. apply Hx. by right. }
      intros o' w2 (Hg2 & Ht2 & Hc2 & Hne & Hfr & Hdom). cbv beta.
      split; [by eapply grows_trans|]. split; [congruence|]. split; [done|].
      split; [|split].
      * intros x Hx. rewrite Hne by (intros ?; apply Hx; by right).
        apply lookup_insert_ne. intros ->. apply Hx. by left.
      * intros x y Hx. apply Hfr.
        destruct Hx as [?|[->|?]%elem_of_cons]; [left; by right|left; by left|by right].
      * intros x. rewrite Hdom, lookup_insert. case_decide as Hkx; [|done].
        subst x. rewrite Hk. split; eauto.
    + eapply runs_mono.
      { apply (IH o w n0 cloned); [done|done|done|].
        intros x y Hx Hxf. apply Hsrc; [done|by right]. }
      intros o' w2 (Hg2 & Ht2 & Hc2 & Hne & Hfr & Hdom). cbv beta.
      split; [done|]. split; [done|]. split; [done|]. split; [|split; [|done]].
      * intros x Hx. apply Hne. intros ?. apply Hx. by right.
      * intros x y [Hx|Hx]; [apply Hfr; by left|].
        destruct (decide (x = k)) as [->|Hxk].
        -- destruct (decide (k ∈ fields)); [apply Hfr; by right|].
           rewrite Hne, Hk by done. done.
        -- apply Hfr. right. by apply elem_of_cons in Hx as [?|?].
Qed.

(** The copy [initMarker] and [shouldComponentUpdate] make of the options:
    a heap that has only grown, no call, the options kept but for
    [position], whose value is new and reaches new objects only. *)
Lemma cloneDeep_position o w :
  sourced (length (heap w)) (heap w) (get o "position") →
  runs (Utils.cloneDeep o Marker.NEED_DEEP_COPY_FIELDS) w (λ o' w',
    grows w w' ∧ trace w' = trace w ∧ closed_from (length (heap w)) (heap w')
    ∧ (∀ k, k ≠ "position" → o' !! k = o !! k)
    ∧ new_val (length (heap w)) (heap w') (get o' "position")
    ∧ (is_Some (o' !! "position") ↔ is_Some (o !! "position"))).
Proof.
  intros Hsrc.
  eapply runs_mono.
  { apply (cloneDeep_spec Marker.NEED_DEEP_COPY_FIELDS o w (length (heap w)) []);
      [lia|apply closed_from_nil|by intros k v ?%elem_of_nil|].
    intros k v _ ->%list_elem_of_singleton Hk. unfold get in Hsrc.
    by rewrite Hk in Hsrc. }
  intros o' w' (Hg & Ht & Hc & Hne & Hnew & Hdom). cbv beta.
  split; [done|]. split; [done|]. split; [done|]. split; [|split].
  - intros k Hk. apply Hne. by intros ->%list_elem_of_singleton.
  - unfold get. destruct (o' !! "position") as [v|] eqn:Hv; [|done].
    apply (Hnew "position"); [right; by left|done].
  - apply Hdom.
Qed.

(** Whatever the values, a copy returns, and changes nothing but the
    heap. *)
Lemma cloneDeepValue_frame v w :
  runs (Utils.cloneDeepValue v) w (λ _ w', ∃ h, w' = set_heap h w).
Proof.
  unfold runs, Utils.cloneDeepValue.
  destruct (Utils.cloneValue _ _ _ _) as [[v' s]|].
  - by eexists.
  - exists (heap w). by destruct w.
Qed.

Lemma cloneDeep_frame fields : ∀ o w,
  runs (Utils.cloneDeep o fields) w (λ _ w', ∃ h, w' = set_heap h w).
Proof.
  induction fields as [|k fields IH]; intros o w; cbn [Utils.cloneDeep].
  - apply runs_ret. exists (heap w). by destruct w.
  - destruct (o !! k) as [v|]; [|apply IH].
    apply runs_bind. eapply runs_mono; [apply cloneDeepValue_frame|].
    intros v' w1 [h1 ->]. eapply runs_mono; [apply IH|].
    intros o' w2 [h2 ->]. by exists h2.
Qed.

(** ** Updating the marker *)

Lemma updateMarkerWithAPI_emits isEq this mk api prev next new t w :
  Marker.marker this = VRef mk →
  Marker.updateMarkerWithAPI isEq this api prev next new (emits t w)
  = Ok tt (emits (t ++ marker_call isEq (heap w) mk api prev next new) w).
Proof.
  intros Hm. unfold Marker.updateMarkerWithAPI, marker_call. unfold_M. cbn [heap emits].
  destruct (isEq (heap w) prev next); cbn [negb].
  - by rewrite app_nil_r.
  - by rewrite Hm, call_ok, sdk_effect_single, emit_emits, emits_emits.
Qed.

Lemma toggleVisible_emits isEq this mk prev next t w :
  Marker.marker this = VRef mk →
  Marker.toggleVisible isEq this prev next (emits t w)
  = Ok tt (emits (t ++ visible_calls isEq (heap w) mk prev next) w).
Proof.
  intros Hm. unfold Marker.toggleVisible, visible_calls. unfold_M. cbn [heap emits].
  destruct (isEq (heap w) prev next); cbn [negb].
  { by rewrite app_nil_r. }
  rewrite Hm.
  destruct (decide (next = VBool true)) as [->|Hn1].
  - rewrite call_ok, sdk_effect_none, emit_emits, emits_emits.
    rewrite decide_False by done. by rewrite app_nil_r.
  - destruct (decide (next = VBool false)) as [->|Hn2].
    + by rewrite call_ok, sdk_effect_none, emit_emits, emits_emits.
    + by rewrite !app_nil_r.
Qed.

Lemma shouldComponentUpdate_run isEq this mk w nextProps next w1 new w2 :
  Marker.marker this = VRef mk →
  Marker.parseMarkerOptions nextProps w = Ok next w1 →
  Utils.cloneDeep next Marker.NEED_DEEP_COPY_FIELDS w1 = Ok new w2 →
  Marker.shouldComponentUpdate isEq this nextProps w
  = Ok (false, Marker.with_markerOptions next this)
       (emits (visible_calls isEq (heap w2) mk (get (Marker.markerOptions this) "visible")
                 (get next "visible")
               ++ flat_map (marker_patch isEq (heap w2) mk (Marker.markerOptions this)
                              next new) Marker.setters) w2).
Proof.
  intros Hm Hp Hc. unfold Marker.shouldComponentUpdate.
  rewrite (bind_ok _ _ _ _ _ Hp), (bind_ok _ _ _ _ _ Hc). cbv zeta.
  rewrite <- (emits_nil w2) at 1.
  erewrite bind_ok by (apply toggleVisible_emits; exact Hm).
  repeat (erewrite bind_ok by (apply updateMarkerWithAPI_emits; exact Hm)).
  unfold mret, M_ret. f_equal. f_equal.
  rewrite <- !app_assoc. unfold Marker.setters, marker_patch.
  cbn [flat_map app fst snd]. by rewrite app_nil_r.
Qed.

Lemma marker_call_elem isEq h mk api prev next new e :
  e ∈ marker_call isEq h mk api prev next new ↔
  e = ECall mk api [new] ∧ isEq h prev next = false.
Proof.
  unfold marker_call. destruct (isEq h prev next); cbn [negb].
  - split; [by intros ?%elem_of_nil|by intros (_ & ?)].
  - rewrite list_elem_of_singleton. by intuition.
Qed.

Lemma marker_setters_NoDup : NoDup (Marker.setters.*1).
Proof. by apply (bool_decide_unpack _); vm_compute. Qed.

Lemma marker_setters_functional api k1 k2 :
  (api, k1) ∈ Marker.setters → (api, k2) ∈ Marker.setters → k1 = k2.
Proof.
  pose proof marker_setters_NoDup as Hnd. revert Hnd.
  generalize Marker.setters. intros l.
  induction l as [|[a b] l IH]; cbn [fmap list_fmap fst].
  - by intros _ ?%elem_of_nil.
  - intros [Hn Hnd]%NoDup_cons [Heq|H1]%elem_of_cons [Heq'|H2]%elem_of_cons.
    + by simplify_eq.
    + simplify_eq. exfalso. apply Hn. by apply (list_elem_of_fmap_2 fst) in H2.
    + simplify_eq. exfalso. apply Hn. by apply (list_elem_of_fmap_2 fst) in H1.
    + by apply IH.
Qed.

Lemma marker_patches_called isEq h mk prev next new api k :
  (api, k) ∈ Marker.setters →
  called mk api (flat_map (marker_patch isEq h mk prev next new) Marker.setters)
  ↔ isEq h (get prev k) (get next k) = false.
Proof.
  intros Hin. unfold called. split.
  - intros (args & (s & Hs & He)%list_elem_of_In%in_flat_map).
    apply list_elem_of_In in Hs, He.
    destruct s as [api2 k2]. unfold marker_patch in He. cbn [fst snd] in He.
    apply marker_call_elem in He as (Heq & Hne). simplify_eq.
    by rewrite (marker_setters_functional _ _ _ Hin Hs).
  - intros Hne. exists [get new k].
    apply list_elem_of_In, in_flat_map. exists (api, k).
    split; apply list_elem_of_In; [done|].
    unfold marker_patch. cbn [fst snd]. by apply marker_call_elem.
Qed.

(** ** The calls of an update *)

Lemma called_app a api t1 t2 : called a api (t1 ++ t2) ↔ called a api t1 ∨ called a api t2.
Proof.
  unfold called. split.
  - intros (args & [H|H]%elem_of_app); eauto.
  - intros [(args & H)|(args & H)]; exists args; apply elem_of_app; auto.
Qed.

Lemma called_news a api t : Forall is_new t → ¬ called a api t.
Proof.
  intros Hn (args & Hin). rewrite Forall_forall in Hn. by apply Hn in Hin.
Qed.

Lemma called_nil a api : ¬ called a api [].
Proof. by intros (args & ?%elem_of_nil). Qed.

Lemma flat_map_nil {A B} (f : A → list B) l : (∀ x, x ∈ l → f x = []) → flat_map f l = [].
Proof.
  induction l as [|x l IH]; intros H; cbn [flat_map]; [done|].
  rewrite H by left. apply IH. intros y Hy. apply H. by right.
Qed.

Lemma componentDidUpdate_trace isEq this m w :
  AMap.this_map this = VRef m →
  runs (AMap.componentDidUpdate isEq this) w (λ this' w',
    ∃ w1 news,
      AMap.parseMapOptions (AMap.props this) w = Ok (AMap.mapOptions this') w1
      ∧ this' = AMap.with_mapOptions (AMap.mapOptions this') this
      ∧ grows w w1 ∧ trace w1 = trace w ++ news ∧ Forall is_new news
      ∧ w' = emits (flat_map (map_patch isEq (heap w1) m (AMap.mapOptions this)
                                (AMap.mapOptions this')) AMap.setters) w1).
Proof.
  intros Hm.
  destruct (proj1 (runs_ok _ _ _) (parseMapOptions_spec (AMap.props this) w))
    as (next & w1 & Hp & Hg & _).
  unfold runs. rewrite (componentDidUpdate_run isEq this m w next w1 Hm Hp).
  destruct Hg as (Hh & Hw & Hd & Hr & news & Ht & Hn).
  exists w1, news. cbn [AMap.mapOptions AMap.with_mapOptions].
  repeat split; try done. by exists news.
Qed.

Lemma shouldComponentUpdate_trace isEq this mk w nextProps :
  Marker.marker this = VRef mk → windowAMap w = true →
  runs (Marker.shouldComponentUpdate isEq this nextProps) w (λ r w',
    ∃ w1 new w2 news,
      Marker.parseMarkerOptions nextProps w = Ok (Marker.markerOptions r.2) w1
      ∧ Utils.cloneDeep (Marker.markerOptions r.2) Marker.NEED_DEEP_COPY_FIELDS w1
        = Ok new w2
      ∧ r = (false, Marker.with_markerOptions (Marker.markerOptions r.2) this)
      ∧ grows w w1 ∧ trace w2 = trace w ++ news ∧ Forall is_new news
      ∧ w' = emits (visible_calls isEq (heap w2) mk
                      (get (Marker.markerOptions this) "visible")
                      (get (Marker.markerOptions r.2) "visible")
                    ++ flat_map (marker_patch isEq (heap w2) mk (Marker.markerOptions this)
                                   (Marker.markerOptions r.2) new) Marker.setters) w2).
Proof.
  intros Hm Hw.
  destruct (proj1 (runs_ok _ _ _) (parseMarkerOptions_spec nextProps w Hw))
    as (next & w1 & Hp & Hg1 & _).
  destruct (proj1 (runs_ok _ _ _) (cloneDeep_frame Marker.NEED_DEEP_COPY_FIELDS next w1))
    as (new & w2 & Hc & h2 & ->).
  unfold runs. rewrite (shouldComponentUpdate_run isEq this mk w nextProps _ _ _ _ Hm Hp Hc).
  pose proof Hg1 as (Hh & Hw' & Hd & Hr & news & Ht & Hn).
  exists w1, new, (set_heap h2 w1), news.
  cbn [snd Marker.markerOptions Marker.with_markerOptions].
  repeat split; try done.
  by exists news.
Qed.

Lemma setters_not_visible :
  Forall (λ s, s.1 ≠ "show" ∧ s.1 ≠ "hide") Marker.setters.
Proof. by apply (bool_decide_unpack _); vm_compute. Qed.

Lemma visible_calls_called isEq h mk prev next api :
  called mk api (visible_calls isEq h mk prev next) ↔
  isEq h prev next = false
  ∧ ((api = "show" ∧ next = VBool true) ∨ (api = "hide" ∧ next = VBool false)).
Proof.
  unfold visible_calls, called. destruct (isEq h prev next); cbn [negb].
  { split; [by intros (? & ?%elem_of_nil)|by intros [? _]]. }
  destruct (decide (next = VBool true)) as [->|Hn1].
  - rewrite decide_False by done. cbn [app]. split.
    + intros (args & [= ? ?]%list_elem_of_singleton). subst. auto.
    + intros [_ [[-> _]|[_ [=]]]]. exists []. by left.
  - destruct (decide (next = VBool false)) as [->|Hn2]; cbn [app].
    + split.
      * intros (args & [= ? ?]%list_elem_of_singleton). subst. auto.
      * intros [_ [[_ [=]]|[-> _]]]. exists []. by left.
    + split; [by intros (? & ?%elem_of_nil)|]. intros [_ [[_ ?]|[_ ?]]]; done.
Qed.

Lemma marker_patches_not_visible isEq h mk prev next new api :
  api = "show" ∨ api = "hide" →
  ¬ called mk api (flat_map (marker_patch isEq h mk prev next new) Marker.setters).
Proof.
  intros Hapi (args & (s & Hs & He)%list_elem_of_In%in_flat_map).
  apply list_elem_of_In in Hs, He.
  pose proof setters_not_visible as Hv. rewrite Forall_forall in Hv.
  destruct (Hv _ Hs) as [H1 H2].
  unfold marker_patch in He. apply marker_call_elem in He as (Heq & _).
  injection Heq as Heq _. rewrite Heq in Hapi. by destruct Hapi.
Qed.

(** C8.  In [updateMapWithAPI], a call under the name [setCenter] whose
    argument is falsy makes no call on the map, whatever the values
    compared; under every other name the call is made exactly when the
    values compared are not shallow-equal, and so it is for [setCenter]
    with a truthy argument. *)
Theorem setCenter_guard (isShallowEqual : list obj → value → value → bool)
    (this : AMap.component) (m : addr) (w : world) (apiName : string)
    (previousCompareProp nextCompareProp : value) (nextProp : option value) :
  AMap.this_map this = VRef m →
  let arg := default nextCompareProp nextProp in
  ∃ w',
    AMap.updateMapWithAPI isShallowEqual this apiName previousCompareProp
      nextCompareProp nextProp w = Ok tt w'
    ∧ (apiName = "setCenter" → truthy arg = false → w' = w)
    ∧ (apiName ≠ "setCenter" ∨ truthy arg = true →
       w' = if isShallowEqual (heap w) previousCompareProp nextCompareProp then w
            else emit (ECall m apiName [arg]) w).
Proof.
  intros Hm arg.
  pose proof (updateMapWithAPI_emits isShallowEqual this m apiName previousCompareProp
                nextCompareProp nextProp [] w Hm) as Hrun.
  rewrite emits_nil in Hrun. cbn [app] in Hrun. eexists. split; [exact Hrun|].
  unfold map_call. fold arg. split.
  - intros -> Harg. rewrite Harg, bool_decide_true by done.
    cbn [negb andb]. rewrite andb_false_r. apply emits_nil.
  - intros Hor.
    destruct (isShallowEqual (heap w) previousCompareProp nextCompareProp);
      cbn [negb andb]; [apply emits_nil|].
    destruct Hor as [Hne|Harg].
    + by rewrite bool_decide_false by done.
    + rewrite Harg. cbn [negb]. by rewrite andb_false_r.
Qed.

Lemma setCenter_guard_witness :
  AMap.this_map Example.amap = VRef 7%nat
  ∧ Utils.isShallowEqual (heap (Example.page true)) (VRef 3%nat) VUndefined = false
  ∧ AMap.updateMapWithAPI Utils.isShallowEqual Example.amap "setCenter"
      (VRef 3%nat) VUndefined None (Example.page true) = Ok tt (Example.page true).
Proof.
  split; [reflexivity|]. split; [reflexivity|].
  destruct (setCenter_guard Utils.isShallowEqual Example.amap 7 (Example.page true)
              "setCenter" (VRef 3%nat) VUndefined None eq_refl) as (w' & Hrun & Hguard & _).
  rewrite Hrun. f_equal. apply Hguard; reflexivity.
Defined.

Lemma is_new_not_call e : is_new e → ¬ is_call e.
Proof. destruct e; cbn; tauto. Qed.

(** C1, as the code has it.  Once the map is built, an update calls the
    setter of a map option exactly when the value kept and the value
    parsed anew are not shallow-equal, [setCenter] only if moreover the new
    center is truthy, and nothing is called while there is no map.  An
    update of a marker calls the setter of an option exactly when the value
    kept and the value parsed anew are not shallow-equal, and [show] or
    [hide] when moreover the new [visible] is [true] or [false].  When all
    the values compared are shallow-equal the update makes no call. *)
Theorem setters_follow_shallow_inequality
    (isShallowEqual : list obj → value → value → bool) :
  (∀ this m w, AMap.this_map this = VRef m →
     runs (AMap.componentDidUpdate isShallowEqual this) w (λ this' w',
       let differ k :=
         isShallowEqual (heap w') (get (AMap.mapOptions this) k)
           (get (AMap.mapOptions this') k) = false in
       ∃ t, trace w' = trace w ++ t
         ∧ (∀ api k k', (api, k, k') ∈ AMap.setters →
              called m api t ↔
              differ k ∧ (api = "setCenter" → truthy (get (AMap.mapOptions this') k') = true))
         ∧ ((∀ api k k', (api, k, k') ∈ AMap.setters → ¬ differ k) →
            Forall (λ e, ¬ is_call e) t)))
  ∧ (∀ this w, AMap.this_map this = VUndefined →
       AMap.componentDidUpdate isShallowEqual this w = Ok this w)
  ∧ (∀ this mk w nextProps, Marker.marker this = VRef mk → windowAMap w = true →
     runs (Marker.shouldComponentUpdate isShallowEqual this nextProps) w (λ r w',
       let differ k :=
         isShallowEqual (heap w') (get (Marker.markerOptions this) k)
           (get (Marker.markerOptions r.2) k) = false in
       ∃ t, trace w' = trace w ++ t
         ∧ (∀ api k, (api, k) ∈ Marker.setters → called mk api t ↔ differ k)
         ∧ (called mk "show" t ↔
            differ "visible" ∧ get (Marker.markerOptions r.2) "visible" = VBool true)
         ∧ (called mk "hide" t ↔
            differ "visible" ∧ get (Marker.markerOptions r.2) "visible" = VBool false)
         ∧ ((∀ api k, (api, k) ∈ Marker.setters → ¬ differ k) → ¬ differ "visible" →
            Forall (λ e, ¬ is_call e) t))).
Proof.
  split; [|split].
  - intros this m w Hm.
    eapply runs_mono; [by apply componentDidUpdate_trace|].
    intros this' w' (w1 & news & _ & _ & _ & Ht & Hn & ->). cbv zeta.
    cbn [heap emits trace]. eexists. split; [by rewrite Ht, <- app_assoc|]. split.
    + intros api k k' Hin. rewrite called_app.
      rewrite map_patches_called by exact Hin.
      split; [intros [H|H]; [by apply called_news in H|done]|by right].
    + intros Heq. apply Forall_app. split.
      * eapply Forall_impl; [exact Hn|apply is_new_not_call].
      * rewrite flat_map_nil; [constructor|]. intros [[api k] k'] Hin.
        unfold map_patch, map_call. cbn [fst snd].
        specialize (Heq api k k' Hin).
        destruct (isShallowEqual _ _ _); [done|]. by destruct Heq.
  - intros this w Hm. unfold AMap.componentDidUpdate. by rewrite decide_True.
  - intros this mk w nextProps Hm Hw.
    eapply runs_mono; [by apply shouldComponentUpdate_trace|].
    intros r w' (w1 & new & w2 & news & _ & _ & _ & _ & Ht & Hn & ->). cbv zeta.
    cbn [heap emits trace]. eexists. split; [by rewrite Ht, <- app_assoc|].
    pose proof setters_not_visible as Hv. rewrite Forall_forall in Hv.
    split; [|split; [|split]].
    + intros api k Hin. rewrite !called_app.
      rewrite marker_patches_called by exact Hin.
      rewrite visible_calls_called. destruct (Hv _ Hin) as [H1 H2]. cbn [fst] in *.
      split; [|by auto]. intros [H|[H|H]]; [by apply called_news in H| |done].
      by destruct H as [_ [[? _]|[? _]]].
    + rewrite !called_app, visible_calls_called. split.
      * intros [H|[H|H]]; [by apply called_news in H| |].
        -- by destruct H as [? [[_ ?]|[[=] _]]].
        -- exfalso. revert H. apply marker_patches_not_visible. by left.
      * intros [? ?]. right. left. split; [done|]. by left.
    + rewrite !called_app, visible_calls_called. split.
      * intros [H|[H|H]]; [by apply called_news in H| |].
        -- by destruct H as [? [[[=] _]|[_ ?]]].
        -- exfalso. revert H. apply marker_patches_not_visible. by right.
      * intros [? ?]. right. left. split; [done|]. by right.
    + intros Heq Hvis. apply Forall_app. split; [|apply Forall_app; split].
      * eapply Forall_impl; [exact Hn|apply is_new_not_call].
      * unfold visible_calls. destruct (isShallowEqual _ _ _); [constructor|].
        by destruct Hvis.
      * rewrite flat_map_nil; [constructor|]. intros [api k] Hin.
        unfold marker_patch, marker_call. cbn [fst snd].
        specialize (Heq api k Hin).
        destruct (isShallowEqual _ _ _); [done|]. by destruct Heq.
Qed.

Lemma called_Exists a method t : called a method t ↔ Exists (is_call_of a method) t.
Proof.
  rewrite Exists_exists. unfold called. split.
  - intros (args & Hin). by exists (ECall a method args).
  - intros ([] & Hin & Hc); try done. destruct Hc as [-> ->]. eauto.
Qed.

Lemma setters_follow_witness :
  AMap.this_map Example.amap = VRef 7%nat
  ∧ Marker.marker Example.amarker = VRef 9%nat
  ∧ windowAMap (Example.page true) = true
  ∧ runs (AMap.componentDidUpdate Utils.isShallowEqual Example.amap) (Example.page true)
      (λ _ w', ∃ t, trace w' = trace (Example.page true) ++ t)
  ∧ runs (Marker.shouldComponentUpdate Utils.isShallowEqual Example.amarker
            Example.marker_props) (Example.page true)
      (λ _ w', ∃ t, trace w' = trace (Example.page true) ++ t).
Proof.
  destruct (setters_follow_shallow_inequality Utils.isShallowEqual) as (Hmap & _ & Hmarker).
  split; [reflexivity|]. split; [reflexivity|]. split; [reflexivity|]. split.
  - eapply runs_mono; [apply (Hmap Example.amap 7%nat); reflexivity|].
    intros ? ? (t & Ht & _). by exists t.
  - eapply runs_mono; [apply (Hmarker Example.amarker 9%nat); reflexivity|].
    intros ? ? (t & Ht & _). by exists t.
Defined.

(** C1, as the claim has it, fails on the center: the map was built with
    a center, the props give none any more, the two values are not
    shallow-equal, and the update does not call [setCenter]. *)
Lemma center_cleared_without_setCenter :
  ("setCenter", "center", "center") ∈ AMap.setters
  ∧ runs (AMap.componentDidUpdate Utils.isShallowEqual Example.amap) (Example.page true)
      (λ this' w',
         Utils.isShallowEqual (heap w') (get (AMap.mapOptions Example.amap) "center")
           (get (AMap.mapOptions this') "center") = false
         ∧ ¬ called 7 "setCenter" (trace w')).
Proof.
  split; [by apply (bool_decide_unpack _); vm_compute|].
  eapply runs_mono.
  - instantiate (1 := λ this' w',
      (negb (Utils.isShallowEqual (heap w') (get (AMap.mapOptions Example.amap) "center")
               (get (AMap.mapOptions this') "center"))
       && bool_decide (¬ Exists (is_call_of 7 "setCenter") (trace w')))%bool = true).
    vm_compute. reflexivity.
  - intros this' w' [H1 H2]%andb_prop. split.
    + by apply negb_true_iff.
    + rewrite called_Exists. by apply bool_decide_eq_true in H2.
Qed.

(** ** The position handed to the SDK *)

Lemma runs_inv {A} (m : M A) w (P : A → world → Prop) a w' :
  runs m w P → m w = Ok a w' → P a w'.
Proof. unfold runs. intros H Hm. by rewrite Hm in H. Qed.

Lemma sourced_weaken n n' h v : (n ≤ n')%nat → sourced n h v → sourced n' h v.
Proof. intros Hn Hs b Hb. specialize (Hs b Hb). lia. Qed.

Lemma sourced_grows n w w' v :
  (n ≤ length (heap w))%nat → grows w w' → sourced n (heap w) v → sourced n (heap w') v.
Proof.
  intros Hn Hg. apply sourced_agree. intros a Ha. apply prefix_agree; [apply Hg|lia].
Qed.

Lemma sourced_prim h n v : (∀ a, v ≠ VRef a) → sourced n h v.
Proof. intros Hv b Hb. destruct Hb; by destruct (Hv a). Qed.

Lemma isShallowEqual_insert h b o v1 v2 :
  v1 ≠ VRef b → v2 ≠ VRef b →
  Utils.isShallowEqual (<[b := o]> h) v1 v2 = Utils.isShallowEqual h v1 v2.
Proof.
  intros H1 H2. unfold Utils.isShallowEqual.
  assert (∀ v, v ≠ VRef b → lookup_obj (<[b := o]> h) v = lookup_obj h v) as Hl.
  { intros [| | | | |a] Hv; try done. cbn [lookup_obj].
    apply list_lookup_insert_ne. congruence. }
  by rewrite !Hl.
Qed.

Lemma initMarker_spec this map w :
  windowAMap w = true →
  sourced (length (heap w)) (heap w) (get (Marker.markerOptions this) "position") →
  runs (Marker.initMarker this map) w (λ mk w',
    ∃ w1 f,
      grows w w1 ∧ closed_from (length (heap w)) (heap w1)
      ∧ heap w' = heap w1 ++ [Plain f; Foreign CMarker [VRef (length (heap w1))]]
      ∧ mk = VRef (S (length (heap w1)))
      ∧ trace w' = trace w ++
          ENew CMarker [VRef (length (heap w1))] (S (length (heap w1)))
          :: ECall (S (length (heap w1))) "setMap" [map]
          :: (if decide (get (Marker.props this) "visible" = VBool false)
              then [ECall (S (length (heap w1))) "hide" []] else [])
      ∧ (∀ k, k ≠ "position" → f !! k = Marker.markerOptions this !! k)
      ∧ new_val (length (heap w)) (heap w1) (get f "position")).
Proof.
  intros Hw Hsrc. unfold Marker.initMarker. cbv zeta.
  apply runs_bind. eapply runs_mono; [by apply cloneDeep_position|].
  intros f w1 (Hg & Ht & Hc & Hne & Hnew & _).
  apply runs_bind, runs_alloc, runs_bind, runs_new.
  { destruct Hg as (_ & Hw1 & _). cbn [windowAMap set_heap]. congruence. }
  cbn [heap set_heap emit]. rewrite length_app. cbn [length].
  replace (length (heap w1) + 1)%nat with (S (length (heap w1))) by lia.
  apply runs_bind, runs_call. rewrite sdk_effect_single.
  apply runs_bind.
  destruct (decide (get (Marker.props this) "visible" = VBool false)).
  - apply runs_call. rewrite sdk_effect_none. apply runs_ret.
    exists w1, f. cbn [heap trace emit set_heap]. rewrite Ht, <- !app_assoc.
    split; [exact Hg|]. split; [exact Hc|]. split; [reflexivity|].
    split; [reflexivity|]. split; [reflexivity|]. split; [exact Hne|exact Hnew].
  - apply runs_ret, runs_ret.
    exists w1, f. cbn [heap trace emit set_heap]. rewrite Ht, <- !app_assoc.
    split; [exact Hg|]. split; [exact Hc|]. split; [reflexivity|].
    split; [reflexivity|]. split; [reflexivity|]. split; [exact Hne|exact Hnew].
Qed.

Lemma parse_keeps_position p w :
  windowAMap w = true →
  runs (Marker.parseMarkerOptions p) w (λ o w',
    grows w w' ∧ get o "position" = get p "position").
Proof.
  intros Hw. eapply runs_mono; [by apply parseMarkerOptions_spec|].
  intros o w' (Hg & _ & Hk & _). split; [done|]. unfold get. rewrite Hk; try done.
  by apply (bool_decide_unpack _); vm_compute.
Qed.

Lemma setPosition_arg isEq h mk prev next new args :
  ECall mk "setPosition" args
    ∈ flat_map (marker_patch isEq h mk prev next new) Marker.setters →
  args = [get new "position"].
Proof.
  intros (s & Hs & He)%list_elem_of_In%in_flat_map.
  apply list_elem_of_In in Hs, He. destruct s as [api k].
  unfold marker_patch in He. cbn [fst snd] in He.
  apply marker_call_elem in He as (Heq & _). injection Heq as <- ->.
  assert (("setPosition", "position") ∈ Marker.setters) as Hin
    by (by apply (bool_decide_unpack _); vm_compute).
  by rewrite (marker_setters_functional _ _ _ Hs Hin).
Qed.

(** C9.  With [cloneDeep] the deep copy its comment describes:
    [initMarker] gives [new AMap.Marker] an object of its own, allocated
    for the call, that holds the options kept but for [position], and
    every object that can be reached from the position it holds was
    allocated for the call; the argument of a [setPosition] that
    [shouldComponentUpdate] makes reaches only objects allocated during the
    update, while the options kept for the next diff hold the position the
    props gave.  No object there was before is changed by either, and
    writing to an object the SDK can reach from the position it got
    changes none of them, nor the outcome of a shallow comparison of the
    position kept with another value. *)
Theorem position_is_copied_for_the_SDK
    (isShallowEqual : list obj → value → value → bool) :
  (∀ this map w,
     windowAMap w = true →
     sourced (length (heap w)) (heap w) (get (Marker.markerOptions this) "position") →
     runs (Marker.initMarker this map) w (λ mk w',
       ∃ a f t,
         trace w' = trace w ++ ENew CMarker [VRef a] (S a) :: t
         ∧ heap w' !! a = Some (Plain f) ∧ (length (heap w) ≤ a)%nat
         ∧ (∀ k, k ≠ "position" → f !! k = Marker.markerOptions this !! k)
         ∧ heap w `prefix_of` heap w'
         ∧ ∀ b, reachable (heap w') (get f "position") b → (length (heap w) ≤ b)%nat))
  ∧ (∀ this mk w nextProps,
     Marker.marker this = VRef mk → windowAMap w = true →
     sourced (length (heap w)) (heap w) (get nextProps "position") →
     runs (Marker.shouldComponentUpdate isShallowEqual this nextProps) w (λ r w',
       let kept := get (Marker.markerOptions r.2) "position" in
       kept = get nextProps "position"
       ∧ heap w `prefix_of` heap w'
       ∧ ∀ t args, trace w' = trace w ++ t → ECall mk "setPosition" args ∈ t →
           ∃ v, args = [v] ∧ ∀ b, reachable (heap w') v b →
             (length (heap w) ≤ b)%nat
             ∧ ∀ o,
                 (∀ a, (a < length (heap w))%nat →
                       <[b := o]> (heap w') !! a = heap w !! a)
                 ∧ (∀ v2, v2 ≠ VRef b →
                      Utils.isShallowEqual (<[b := o]> (heap w')) kept v2
                      = Utils.isShallowEqual (heap w') kept v2))).
Proof.
  split.
  - intros this map w Hw Hsrc.
    eapply runs_mono; [by apply initMarker_spec|].
    intros mk w' (w1 & f & Hg & Hc & Hh & -> & Ht & Hne & Hnew).
    pose proof (grows_length _ _ Hg) as Hlen.
    assert (heap w1 `prefix_of` heap w') as Hp1 by (rewrite Hh; by apply prefix_app_r).
    exists (length (heap w1)), f. eexists. split; [exact Ht|]. split; [|split; [lia|]].
    { rewrite Hh, lookup_app_r by lia. by rewrite Nat.sub_diag. }
    split; [exact Hne|]. split; [etrans; [apply Hg|exact Hp1]|].
    intros b Hb. by destruct (reachable_new _ _ _ _ _ Hc Hnew Hp1 Hb).
  - intros this mk w nextProps Hm Hw Hsrc.
    destruct (proj1 (runs_ok _ _ _) (shouldComponentUpdate_trace isShallowEqual this mk w
                                       nextProps Hm Hw))
      as (r & w' & Hrun & w1 & new & w2 & news & Hp & Hc & _ & Hg1 & Ht & Hn & ->).
    unfold runs. rewrite Hrun. cbv zeta.
    destruct (runs_inv _ _ _ _ _ (parse_keeps_position nextProps w Hw) Hp) as [_ Hpos].
    pose proof (grows_length _ _ Hg1) as Hlen1.
    assert (sourced (length (heap w1)) (heap w1) (get (Marker.markerOptions r.2) "position"))
      as Hsrc1.
    { rewrite Hpos. apply (sourced_weaken (length (heap w))); [done|].
      by apply (sourced_grows _ w). }
    destruct (runs_inv _ _ _ _ _ (cloneDeep_position _ _ Hsrc1) Hc)
      as (Hg2 & Ht2 & Hcl & _ & Hnew & _).
    pose proof (grows_length _ _ Hg2) as Hlen2.
    cbn [heap emits trace]. split; [exact Hpos|].
    split; [etrans; [apply Hg1|apply Hg2]|].
    intros t args Htr Hin. rewrite Ht, <- app_assoc in Htr.
    apply app_inv_head in Htr. subst t.
    apply elem_of_app in Hin as [Hin|Hin].
    { rewrite Forall_forall in Hn. by apply Hn in Hin. }
    apply elem_of_app in Hin as [Hin|Hin].
    { assert (called mk "setPosition"
                (visible_calls isShallowEqual (heap w2) mk
                   (get (Marker.markerOptions this) "visible")
                   (get (Marker.markerOptions r.2) "visible"))) as Hcall by (by exists args).
      apply visible_calls_called in Hcall as [_ [[[=] _]|[[=] _]]]. }
    apply setPosition_arg in Hin as ->. eexists. split; [reflexivity|].
    intros b Hb.
    destruct (reachable_new _ _ _ _ _ Hcl Hnew (reflexivity _) Hb) as [Hb1 Hb2].
    split; [lia|]. intros o. split.
    + intros a Ha. rewrite list_lookup_insert_ne by lia.
      apply prefix_agree; [etrans; [apply Hg1|apply Hg2]|done].
    + intros v2 Hv2. apply isShallowEqual_insert; [|done].
      rewrite Hpos. intros Heq. assert (b < length (heap w))%nat; [|lia].
      apply Hsrc. rewrite Heq. constructor.
Qed.

Lemma example_position_sourced :
  sourced (length (heap (Example.page true))) (heap (Example.page true))
    (get Example.marker_props "position").
Proof.
  replace (get Example.marker_props "position") with (VRef 3%nat)
    by (by vm_compute).
  intros b Hb. inversion Hb as [|a o v c Ho Hin Hr]; subst; [cbn; lia|].
  injection Ho as <-. cbn [obj_values] in Hin.
  apply elem_of_cons in Hin as [->|Hin]; [inversion Hr|].
  apply elem_of_cons in Hin as [->|Hin]; [inversion Hr|].
  by apply elem_of_nil in Hin.
Qed.

Lemma position_is_copied_witness :
  Marker.marker Example.amarker = VRef 9%nat
  ∧ windowAMap (Example.page true) = true
  ∧ runs (Marker.initMarker Example.amarker (VRef 7%nat)) (Example.page true)
      (λ _ w', heap (Example.page true) `prefix_of` heap w')
  ∧ runs (Marker.shouldComponentUpdate Utils.isShallowEqual Example.amarker
            Example.marker_props) (Example.page true)
      (λ r _, get (Marker.markerOptions r.2) "position" = get Example.marker_props "position").
Proof.
  destruct (position_is_copied_for_the_SDK Utils.isShallowEqual) as [Hinit Hupdate].
  split; [reflexivity|]. split; [reflexivity|]. split.
  - eapply runs_mono.
    + apply (Hinit Example.amarker (VRef 7%nat) (Example.page true)); [reflexivity|].
      apply sourced_prim. intros a. by vm_compute.
    + intros mk w' (a & f & t & _ & _ & _ & _ & Hp & _). exact Hp.
  - eapply runs_mono.
    + apply (Hupdate Example.amarker 9%nat (Example.page true) Example.marker_props);
        [reflexivity|reflexivity|apply example_position_sourced].
    + intros r w' (Hkept & _). exact Hkept.
Defined.

(** ** The marker never renders again *)

Lemma bind_Ok_inv {A B} (m : M A) (f : A → M B) w b w' :
  (m ≫= f) w = Ok b w' → ∃ a w1, m w = Ok a w1 ∧ f a w1 = Ok b w'.
Proof. unfold_M. destruct (m w) as [a w1|]; [eauto|done]. Qed.

Lemma shouldComponentUpdate_false isEq this nextProps w r w' :
  Marker.shouldComponentUpdate isEq this nextProps w = Ok r w' → r.1 = false.
Proof.
  unfold Marker.shouldComponentUpdate. intros H.
  repeat (apply bind_Ok_inv in H as (? & ? & _ & H)).
  by injection H as <- _.
Qed.

(** C10.  [shouldComponentUpdate] returns [false] whenever it returns,
    and it returns for every marker that was built; [render] returns
    [null].  All that an update does to the world is to construct SDK
    value objects while it parses the options and to call [show], [hide]
    or the setters on the marker. *)
Theorem marker_updates_only_through_setters
    (isShallowEqual : list obj → value → value → bool) :
  (∀ this nextProps w r w',
     Marker.shouldComponentUpdate isShallowEqual this nextProps w = Ok r w' →
     r.1 = false)
  ∧ (∀ this mk w nextProps,
       Marker.marker this = VRef mk → windowAMap w = true →
       runs (Marker.shouldComponentUpdate isShallowEqual this nextProps) w (λ r w',
         r.1 = false
         ∧ Marker.marker r.2 = Marker.marker this
         ∧ registry w' = registry w ∧ head w' = head w
         ∧ ∃ t, trace w' = trace w ++ t
            ∧ Forall (λ e, is_new e ∨
                           ∃ api args, e = ECall mk api args
                             ∧ api ∈ "show" :: "hide" :: Marker.setters.*1) t))
  ∧ (∀ this, Marker.render this = Null).
Proof.
  split; [|split].
  - intros. by eapply shouldComponentUpdate_false.
  - intros this mk w nextProps Hm Hw.
    eapply runs_mono; [by apply shouldComponentUpdate_trace|].
    intros r w' (w1 & new & w2 & news & _ & Hc & -> & Hg1 & Ht & Hn & ->).
    destruct (runs_inv _ _ _ _ _ (cloneDeep_frame _ _ _) Hc) as [h2 ->].
    destruct Hg1 as (_ & _ & Hd & Hr & _).
    cbn [fst snd Marker.marker Marker.with_markerOptions registry head emits set_heap trace]
      in *.
    split; [done|]. split; [done|]. split; [done|]. split; [done|].
    eexists. split; [by rewrite Ht, <- app_assoc|].
    apply Forall_app. split; [|apply Forall_app; split].
    + eapply Forall_impl; [exact Hn|]. by left.
    + apply Forall_forall. intros e He. right.
      unfold visible_calls in He. destruct (isShallowEqual _ _ _); cbn [negb] in He.
      { by apply elem_of_nil in He. }
      apply elem_of_app in He as [He|He]; case_decide; try by apply elem_of_nil in He.
      * apply list_elem_of_singleton in He as ->. eexists _, _. split; [done|]. by left.
      * apply list_elem_of_singleton in He as ->. eexists _, _. split; [done|].
        right. by left.
    + apply Forall_forall. intros e (s & Hs & He)%list_elem_of_In%in_flat_map. right.
      apply list_elem_of_In in Hs, He. unfold marker_patch in He.
      apply marker_call_elem in He as (-> & _). eexists _, _. split; [done|].
      right. right. by apply list_elem_of_fmap_2.
  - done.
Qed.

Lemma marker_updates_witness :
  Marker.marker Example.amarker = VRef 9%nat
  ∧ windowAMap (Example.page true) = true
  ∧ runs (Marker.shouldComponentUpdate Utils.isShallowEqual Example.amarker
            Example.marker_props) (Example.page true)
      (λ r _, r.1 = false).
Proof.
  destruct (marker_updates_only_through_setters Utils.isShallowEqual) as (_ & Hrun & _).
  split; [reflexivity|]. split; [reflexivity|].
  eapply runs_mono.
  - apply (Hrun Example.amarker 9%nat); reflexivity.
  - intros r w' (Hr & _). exact Hr.
Defined.

(** ** The life of a map *)

Lemma createEventCallbacks_spec ks instance w :
  runs (AMap.createEventCallbacks ks instance) w (λ cbs w',
    keys cbs = ks ∧ length cbs = length ks
    ∧ w' = set_heap (heap w ++ ((λ k, Fn (EventCallback k instance)) <$> ks)) w).
Proof.
  revert w. induction ks as [|k ks IH]; intros w; cbn [AMap.createEventCallbacks].
  - apply runs_ret. rewrite app_nil_r. by destruct w.
  - apply runs_bind, runs_alloc, runs_bind. eapply runs_mono; [apply IH|].
    intros cbs w' (Hk & Hl & ->). apply runs_ret. cbn [keys fmap list_fmap fst length].
    unfold keys in Hk. rewrite Hk, Hl. cbn [heap set_heap]. rewrite <- app_assoc.
    done.
Qed.

Lemma bindInstanceEvent_spec a cbs l0 w :
  runs (bindInstanceEvent (VRef a) cbs l0) w (λ l w',
    l = l0 ++ bound cbs (keys cbs)
    ∧ w' = emits (onCall a <$> bound cbs (keys cbs))
             (set_registry (registry w ++ (pair a <$> bound cbs (keys cbs))) w)).
Proof.
  destruct (bindKeys_spec a cbs (keys cbs) l0 w) as (w1 & Hb & Hh & Hw & Hd & Ht & Hr).
  unfold runs, bindInstanceEvent. rewrite Hb. split; [done|].
  destruct w1. cbn in *. unfold emits, set_registry. cbn. congruence.
Qed.

Lemma offAll_run a l w :
  offAll (VRef a) l w
  = Ok tt (emits (offCall a <$> l)
             (set_registry (foldl (λ r x, remove_first (a, x) r) (registry w) l) w)).
Proof.
  destruct (offAll_spec a l w) as (w1 & -> & Hh & Hw & Hd & Ht & Hr).
  f_equal. destruct w1. cbn in *. unfold emits, set_registry. cbn. congruence.
Qed.

Arguments bound : simpl never.

Lemma bindEvents_run this m w :
  AMap.this_map this = VRef m →
  ∃ cbs h',
    keys cbs = AMap.eventKeys ∧ heap w `prefix_of` h'
    ∧ AMap.bindEvents this w
      = Ok (AMap.with_events (Some cbs) (Some (bound cbs AMap.eventKeys)) this)
           (emits (onCall m <$> bound cbs AMap.eventKeys)
              (set_registry (registry w ++ (pair m <$> bound cbs AMap.eventKeys))
                 (set_heap h' w))).
Proof.
  intros Hm. unfold AMap.bindEvents, AMap.parseEvents. rewrite Hm.
  destruct (proj1 (runs_ok _ _ _) (createEventCallbacks_spec AMap.eventKeys (VRef m) w))
    as (cbs & w1 & Hcb & Hk & _ & Hw1).
  destruct (proj1 (runs_ok _ _ _) (bindInstanceEvent_spec m cbs [] w1))
    as (l & w2 & Hb & -> & ->). subst w1.
  exists cbs, (heap w ++ ((λ k, Fn (EventCallback k (VRef m))) <$> AMap.eventKeys)).
  split; [exact Hk|]. split; [by apply prefix_app_r|].
  rewrite (bind_ok _ _ _ _ _ Hcb), (bind_ok _ _ _ _ _ Hb). rewrite Hk.
  unfold mret, M_ret. f_equal.
Qed.

Lemma createMap_run this w :
  windowAMap w = true →
  ∃ cbs h',
    keys cbs = AMap.eventKeys ∧ heap w `prefix_of` h'
    ∧ let m := S (length (heap w)) in
      let l := bound cbs AMap.eventKeys in
      let built := AMap.with_events (Some cbs) (Some l) (AMap.with_this_map (VRef m) this) in
      AMap.createMap this w
      = Ok (AMap.with_pc AMap.Returned
              (match AMap.status this with
               | AMap.Unmounted => built
               | _ => AMap.with_state_map (VRef m) true built
               end))
           (emits (ENew CMap [AMap.mapContainer this; VRef (length (heap w))] m
                   :: (onCall m <$> l) ++ [ESetState (VRef m)])
              (set_registry (registry w ++ (pair m <$> l)) (set_heap h' w))).
Proof.
  intros Hw.
  set (m := S (length (heap w))).
  set (w2 := emit (ENew CMap [AMap.mapContainer this; VRef (length (heap w))] m)
               (set_heap ((heap w ++ [Plain (AMap.mapOptions this)])
                          ++ [Foreign CMap [AMap.mapContainer this;
                                            VRef (length (heap w))]]) w)).
  destruct (bindEvents_run (AMap.with_this_map (VRef m) this) m w2 eq_refl)
    as (cbs & h' & Hk & Hp & Hb).
  exists cbs, h'. split; [exact Hk|]. split.
  { etrans; [|exact Hp]. subst w2. cbn [heap emit set_heap].
    rewrite <- app_assoc. by apply prefix_app_r. }
  cbv zeta. unfold AMap.createMap.
  erewrite bind_ok by reflexivity.
  erewrite bind_ok.
  2:{ unfold new. cbn [windowAMap set_heap]. rewrite Hw. cbn [heap set_heap].
      rewrite length_app. cbn [length].
      replace (length (heap w) + 1)%nat with m by (subst m; lia). reflexivity. }
  fold w2. rewrite (bind_ok _ _ _ _ _ Hb).
  unfold AMap.setState. unfold_M.
  cbn [AMap.status AMap.with_events AMap.with_this_map AMap.this_map].
  f_equal.
  subst w2. unfold emits, emit, set_registry, set_heap.
  cbn [heap windowAMap head registry trace]. f_equal.
  rewrite <- !app_assoc. reflexivity.
Qed.

Lemma map_patch_events isEq h m prev next :
  Forall (update_event m) (flat_map (map_patch isEq h m prev next) AMap.setters).
Proof.
  apply Forall_forall. intros e (s & Hs & He)%list_elem_of_In%in_flat_map.
  apply list_elem_of_In in Hs, He. unfold map_patch in He.
  apply map_call_elem in He as (-> & _). cbn [update_event]. split; [done|].
  apply list_elem_of_fmap_2. by apply list_elem_of_fmap_2.
Qed.

Lemma componentDidUpdate_built isEq this m w :
  AMap.this_map this = VRef m →
  runs (AMap.componentDidUpdate isEq this) w (λ this' w',
    this' = AMap.with_mapOptions (AMap.mapOptions this') this
    ∧ windowAMap w' = windowAMap w ∧ head w' = head w
    ∧ ∃ t, trace w' = trace w ++ t ∧ Forall (update_event m) t).
Proof.
  intros Hm. eapply runs_mono; [by apply componentDidUpdate_trace|].
  intros this' w' (w1 & news & Hp & Hthis & Hg & _ & _ & ->).
  destruct (runs_inv _ _ _ _ _ (parseMapOptions_spec _ _) Hp)
    as (_ & _ & _ & _ & _ & Hw1).
  destruct Hg as (_ & Hwin & Hhead & _).
  cbn [windowAMap head trace emits]. split; [exact Hthis|].
  split; [exact Hwin|]. split; [exact Hhead|].
  exists ((match as_array (heap w) (get (AMap.props this) "bounds") with
           | Some es => if windowAMap w then [ENew CBounds es (length (heap w))] else []
           | None => []
           end)
          ++ flat_map (map_patch isEq (heap w1) m (AMap.mapOptions this)
                         (AMap.mapOptions this')) AMap.setters).
  split.
  - rewrite app_assoc. f_equal. rewrite Hw1.
    destruct (as_array _ _); [destruct (windowAMap w)|]; cbn [trace emit set_heap];
      by rewrite ?app_nil_r.
  - apply Forall_app. split; [|apply map_patch_events].
    destruct (as_array _ _); [destruct (windowAMap w)|]; by repeat constructor.
Qed.

Lemma destroy_not_a_setter : "destroy" ∉ AMap.setters.*1.*1.
Proof. by apply (bool_decide_unpack _); vm_compute. Qed.

Lemma update_post_event m U e : update_event m e → post_event m U e.
Proof.
  destruct e as [[] ? ?|a api [|x []]| | | |]; cbn; try done.
  intros [-> Hin]. split; [done|]. intros ->. by apply destroy_not_a_setter in Hin.
Qed.

Lemma post_event_mono m (U U' : Prop) e : (U → U') → post_event m U e → post_event m U' e.
Proof. intros HU. destruct e as [| | | | |[]]; cbn; try done. intros [-> H]. auto. Qed.

Lemma invariant_more w0 evs ev this w :
  invariant w0 evs this w → invariant w0 (evs ++ [ev]) this w.
Proof.
  intros (Hd & Hu & Hr & Ht). split; [done|]. split; [|split; [|done]].
  - intros H. apply elem_of_app. left. by apply Hu.
  - intros i Hi H. apply elem_of_app. left. by apply Hr.
Qed.

Ltac fields :=
  cbn [AMap.props AMap.state_map AMap.this_map AMap.mapOptions AMap.mapContainer
       AMap.AMapEventListeners AMap.eventCallbacks AMap.status AMap.pc AMap.dirty
       AMap.with_props AMap.with_state_map AMap.with_this_map AMap.with_mapOptions
       AMap.with_mapContainer AMap.with_events AMap.with_status AMap.with_pc
       AMap.with_dirty heap windowAMap head registry trace emit emits set_heap
       set_head set_registry set_windowAMap] in *.

Lemma render_unbuilt this : unbuilt this → AMap.render this = Container false.
Proof. intros (_ & Hs & _). unfold AMap.render. by rewrite Hs. Qed.

Lemma render_built this m : AMap.state_map this = VRef m → AMap.render this = Container true.
Proof. intros Hs. unfold AMap.render. by rewrite Hs. Qed.

Lemma componentDidUpdate_unbuilt isEq this w :
  AMap.this_map this = VUndefined → AMap.componentDidUpdate isEq this w = Ok this w.
Proof. intros Hm. unfold AMap.componentDidUpdate. by rewrite decide_True. Qed.

(** An update of a component that has no map yet. *)
Lemma update_unbuilt isEq this p w :
  unbuilt this →
  (modify (emit (ERender (AMap.render (AMap.with_props p this))));;
   AMap.componentDidUpdate isEq (AMap.with_props p this)) w
  = Ok (AMap.with_props p this) (emit (ERender (Container false)) w).
Proof.
  intros Hu. rewrite render_unbuilt by exact Hu.
  erewrite bind_ok by reflexivity.
  apply componentDidUpdate_unbuilt. apply Hu.
Qed.

Lemma handle_Update isEq v2 w0 evs p this w :
  invariant w0 evs this w →
  ∃ this' w',
    AMap.handle isEq v2 (AMap.Update p) this w = Ok this' w'
    ∧ invariant w0 (evs ++ [AMap.Update p]) this' w'
    ∧ head w' = head w.
Proof.
  intros Hinv. cbn [AMap.handle].
  destruct (AMap.status this) eqn:Hst;
    try (exists this, w; split; [done|]; split; [by apply invariant_more|done]).
  apply (invariant_more _ _ (AMap.Update p)) in Hinv.
  destruct Hinv as (Hd & Hu & Hr & t & Ht & Hpc). cbv zeta.
  destruct (AMap.pc this) eqn:Hp; try done.
  - destruct Hpc as (Hc & _). congruence.
  - destruct Hpc as (Hc & Hub & Hpre & Hrest).
    rewrite update_unbuilt by exact Hub. eexists _, _. split; [reflexivity|].
    split; [|done]. unfold invariant. fields. rewrite Hp.
    split; [done|]. split; [by rewrite Hst|]. split; [exact Hr|].
    exists (t ++ [ERender (Container false)]). rewrite Ht, app_assoc.
    split; [done|]. split; [by rewrite Hst|]. split; [exact Hub|].
    split; [|exact Hrest]. apply Forall_app. split; [done|]. repeat constructor.
  - destruct Hpc as (Hc & Hub & Hpre & Hrest).
    rewrite update_unbuilt by exact Hub. eexists _, _. split; [reflexivity|].
    split; [|done]. unfold invariant. fields. rewrite Hp.
    split; [done|]. split; [by rewrite Hst|]. split; [exact Hr|].
    exists (t ++ [ERender (Container false)]). rewrite Ht, app_assoc.
    split; [done|]. split; [by rewrite Hst|]. split; [exact Hub|].
    split; [|exact Hrest]. apply Forall_app. split; [done|]. repeat constructor.
  - destruct Hpc as (Hc & Hub & Hpre & Hrest).
    rewrite update_unbuilt by exact Hub. eexists _, _. split; [reflexivity|].
    split; [|done]. unfold invariant. fields. rewrite Hp.
    split; [done|]. split; [by rewrite Hst|]. split; [exact Hr|].
    exists (t ++ [ERender (Container false)]). rewrite Ht, app_assoc.
    split; [done|]. split; [by rewrite Hst|]. split; [exact Hub|].
    split; [|exact Hrest]. apply Forall_app. split; [done|]. repeat constructor.
  - destruct Hpc as (Hc & Hb & Hwin & Hl).
    destruct Hb as (m & cbs & pre & post & container & options & Hm & Hk & Hls & Htr
                    & Hpre & Hpost & Hsm & Hmounted).
    specialize (Hmounted Hst).
    rewrite (render_built _ m) by exact Hmounted.
    erewrite bind_ok by reflexivity.
    destruct (proj1 (runs_ok _ _ _)
                (componentDidUpdate_built isEq (AMap.with_props p this) m
                   (emit (ERender (Container true)) w) Hm))
      as (this' & w' & Hrun & Hthis & Hwin' & Hhead' & tu & Htu & Hev).
    rewrite Hrun. exists this', w'. split; [done|]. split; [|done].
    rewrite Hthis. unfold invariant. fields. rewrite Hp.
    split; [done|]. split; [by rewrite Hst|]. split.
    { intros i Hi. unfold AMap.resolved. rewrite Hhead'. by apply Hr. }
    exists (t ++ ERender (Container true) :: tu). split.
    { rewrite Htu, Ht. fields. by rewrite <- !app_assoc. }
    split; [by rewrite Hst|]. split; [|split; [congruence|]]; cycle 1.
    { unfold loaded3, AMap.resolved in *. rewrite Hhead'. exact Hl. }
    exists m, cbs, pre, (post ++ ERender (Container true) :: tu), container, options.
    fields. split; [done|]. split; [done|]. split; [done|]. split.
    { rewrite Htr. rewrite <- !app_assoc. cbn [app]. by rewrite <- !app_assoc. }
    split; [done|]. split; [|done].
    apply Forall_app. split; [done|]. constructor; [done|].
    eapply Forall_impl; [exact Hev|]. intros e. apply update_post_event.
Qed.

Lemma componentWillUnmount_unbuilt this w :
  AMap.state_map this = VUndefined → AMap.componentWillUnmount this w = Ok tt w.
Proof. intros Hs. unfold AMap.componentWillUnmount. by rewrite Hs, decide_True. Qed.

Lemma componentWillUnmount_built this m l w :
  AMap.state_map this = VRef m → AMap.AMapEventListeners this = Some l →
  AMap.componentWillUnmount this w
  = Ok tt (emits ((offCall m <$> l) ++ [ECall m "destroy" []])
             (set_registry (foldl (λ r x, remove_first (m, x) r) (registry w) l) w)).
Proof.
  intros Hs Hl. unfold AMap.componentWillUnmount. cbv zeta.
  rewrite Hs, Hl, decide_False by done. cbn [removeInstanceEvent].
  erewrite bind_ok by apply offAll_run.
  rewrite call_ok, sdk_effect_none, emit_emits, emits_emits. reflexivity.
Qed.

Lemma handle_Onerror isEq v2 w0 evs tag this w :
  invariant w0 evs this w →
  AMap.handle isEq v2 (AMap.Onerror tag) this w = Ok this w
  ∧ invariant w0 (evs ++ [AMap.Onerror tag]) this w.
Proof. intros Hinv. split; [done|by apply invariant_more]. Qed.

Lemma handle_Unmount isEq v2 w0 evs this w :
  invariant w0 evs this w →
  ∃ this' w',
    AMap.handle isEq v2 AMap.Unmount this w = Ok this' w'
    ∧ invariant w0 (evs ++ [AMap.Unmount]) this' w'
    ∧ head w' = head w.
Proof.
  intros Hinv. cbn [AMap.handle].
  destruct (AMap.status this) eqn:Hst;
    try (exists this, w; split; [done|]; split; [by apply invariant_more|done]).
  destruct Hinv as (Hd & Hu & Hr & t & Ht & Hpc).
  assert (AMap.Unmount ∈ evs ++ [AMap.Unmount]) as Hin
    by (apply elem_of_app; right; by left).
  assert (∀ i, (length (head w0) ≤ i)%nat → AMap.resolved i w = true →
               AMap.Onload i ∈ evs ++ [AMap.Unmount]) as Hr'.
  { intros i Hi H. apply elem_of_app. left. by apply Hr. }
  destruct (AMap.pc this) eqn:Hp; try done.
  - destruct Hpc as (Hc & _). congruence.
  - pose proof Hpc as (Hc & Hub & Hrest).
    erewrite bind_ok by (apply componentWillUnmount_unbuilt; apply Hub).
    eexists _, _. split; [reflexivity|]. split; [|done].
    unfold invariant. fields. rewrite Hp. split; [done|]. split; [done|].
    split; [exact Hr'|]. exists t. split; [done|]. split; [done|].
    split; [exact Hub|exact Hrest].
  - pose proof Hpc as (Hc & Hub & Hrest).
    erewrite bind_ok by (apply componentWillUnmount_unbuilt; apply Hub).
    eexists _, _. split; [reflexivity|]. split; [|done].
    unfold invariant. fields. rewrite Hp. split; [done|]. split; [done|].
    split; [exact Hr'|]. exists t. split; [done|]. split; [done|].
    split; [exact Hub|exact Hrest].
  - pose proof Hpc as (Hc & Hub & Hrest).
    erewrite bind_ok by (apply componentWillUnmount_unbuilt; apply Hub).
    eexists _, _. split; [reflexivity|]. split; [|done].
    unfold invariant. fields. rewrite Hp. split; [done|]. split; [done|].
    split; [exact Hr'|]. exists t. split; [done|]. split; [done|].
    split; [exact Hub|exact Hrest].
  - destruct Hpc as (Hc & Hb & Hwin & Hl).
    destruct Hb as (m & cbs & pre & post & container & options & Hm & Hk & Hls & Htr
                    & Hpre & Hpost & Hsm & Hmounted).
    specialize (Hmounted Hst).
    erewrite bind_ok by (by apply (componentWillUnmount_built this m)).
    eexists _, _. split; [reflexivity|]. split; [|done].
    unfold invariant. fields. rewrite Hp. split; [done|]. split; [done|].
    split; [exact Hr'|].
    exists (t ++ (offCall m <$> bound cbs AMap.eventKeys) ++ [ECall m "destroy" []]).
    split; [by rewrite Ht, <- app_assoc|]. split; [done|].
    split; [|split; [done|exact Hl]].
    exists m, cbs, pre,
      (post ++ (offCall m <$> bound cbs AMap.eventKeys) ++ [ECall m "destroy" []]),
      container, options.
    fields. split; [done|]. split; [done|]. split; [done|]. split.
    { rewrite Htr. rewrite <- !app_assoc. cbn [app]. by rewrite <- !app_assoc. }
    split; [done|]. split; [|split; [by left|done]].
    apply Forall_app. split; [|apply Forall_app; split].
    + eapply Forall_impl; [exact Hpost|]. intros e. by apply post_event_mono.
    + apply Forall_fmap, Forall_forall. intros x _. cbn. split; [done|]. done.
    + repeat constructor.
Qed.

Lemma requireAMap_run appKey protocol version proxyUrl w :
  ∃ src, AMap.requireAMap appKey protocol version proxyUrl w
         = Ok (length (head w))
              (set_head (head w ++ [{| src := src; lib := LibAMap; loaded := false |}]) w).
Proof. by eexists. Qed.

Lemma requireAMapUI_run protocol version proxyUrl w :
  ∃ src, AMap.requireAMapUI protocol version proxyUrl w
         = Ok (length (head w))
              (set_head (head w ++ [{| src := src; lib := LibUI; loaded := false |}]) w).
Proof. by eexists. Qed.

Lemma requireLoca_run appKey protocol version proxyUrl w :
  ∃ src, AMap.requireLoca appKey protocol version proxyUrl w
         = Ok (length (head w))
              (set_head (head w ++ [{| src := src; lib := LibLoca; loaded := false |}]) w).
Proof. by eexists. Qed.

Lemma async_ok body this w this' w' :
  body this w = Ok this' w' → AMap.async body this w = Ok this' w'.
Proof. unfold AMap.async. by intros ->. Qed.

Lemma flush_clean isEq this w :
  AMap.dirty this = false → AMap.flush isEq this w = Ok this w.
Proof. unfold AMap.flush. by intros ->. Qed.

(** The map is built by a component that is not unmounted, and the render
    that is due follows. *)
Lemma createMap_flush isEq this w :
  windowAMap w = true → AMap.status this ≠ AMap.Unmounted →
  AMap.dirty this = false →
  ∃ cbs this' w' tu,
    let m := S (length (heap w)) in
    let l := bound cbs AMap.eventKeys in
    keys cbs = AMap.eventKeys
    ∧ (AMap.createMap this ≫= AMap.flush isEq) w = Ok this' w'
    ∧ AMap.this_map this' = VRef m ∧ AMap.state_map this' = VRef m
    ∧ AMap.AMapEventListeners this' = Some l
    ∧ AMap.status this' = AMap.status this ∧ AMap.pc this' = AMap.Returned
    ∧ AMap.dirty this' = false
    ∧ windowAMap w' = true ∧ head w' = head w
    ∧ trace w' = trace w ++ ENew CMap [AMap.mapContainer this; VRef (length (heap w))] m
                   :: (onCall m <$> l) ++ ESetState (VRef m)
                   :: ERender (Container true) :: tu
    ∧ Forall (update_event m) tu.
Proof.
  intros Hw Hst Hd.
  destruct (createMap_run this w Hw) as (cbs & h' & Hk & _ & Hrun). cbv zeta in Hrun.
  set (m := S (length (heap w))) in *. set (l := bound cbs AMap.eventKeys) in *.
  set (this1 := AMap.with_pc AMap.Returned
                  (AMap.with_state_map (VRef m) true
                     (AMap.with_events (Some cbs) (Some l)
                        (AMap.with_this_map (VRef m) this)))).
  assert (AMap.createMap this w = Ok this1
            (emits (ENew CMap [AMap.mapContainer this; VRef (length (heap w))] m
                    :: (onCall m <$> l) ++ [ESetState (VRef m)])
               (set_registry (registry w ++ (pair m <$> l)) (set_heap h' w)))) as Hrun'.
  { rewrite Hrun. f_equal. subst this1. by destruct (AMap.status this). }
  clear Hrun. rewrite (bind_ok _ _ _ _ _ Hrun').
  unfold AMap.flush. subst this1. fields. cbv zeta.
  rewrite (render_built _ m) by reflexivity.
  erewrite bind_ok by reflexivity.
  match goal with
  | |- context [AMap.componentDidUpdate isEq ?c ?w1] =>
      destruct (proj1 (runs_ok _ _ _) (componentDidUpdate_built isEq c m w1 eq_refl))
        as (this' & w' & Hcdu & Hthis & Hwin' & Hhead' & tu & Htu & Hev)
  end.
  exists cbs, this', w', tu. cbv zeta. split; [exact Hk|]. split; [exact Hcdu|].
  rewrite Hthis. fields.
  split; [done|]. split; [done|]. split; [done|]. split; [done|]. split; [done|].
  split; [done|]. split; [congruence|]. split; [done|]. split; [|done].
  rewrite Htu. rewrite <- !app_assoc. cbn [app]. by rewrite <- !app_assoc.
Qed.

Lemma resolved_app_l i w s :
  (i < length (head w))%nat →
  AMap.resolved i (set_head (head w ++ s) w) = AMap.resolved i w.
Proof. intros Hi. unfold AMap.resolved. fields. by rewrite lookup_app_l. Qed.

Lemma resolved_pending i w s :
  (length (head w) ≤ i)%nat → Forall (λ x, loaded x = false) s →
  AMap.resolved i (set_head (head w ++ s) w) = false.
Proof.
  intros Hi Hs. unfold AMap.resolved. fields. rewrite lookup_app_r by done.
  destruct (s !! (i - length (head w))%nat) as [x|] eqn:Hx; [|done].
  rewrite Forall_forall in Hs. apply Hs. by eapply list_elem_of_lookup_2.
Qed.

Lemma handle_Mount isEq v2 w0 evs this w :
  invariant w0 evs this w →
  ∃ this' w',
    AMap.handle isEq v2 AMap.Mount this w = Ok this' w'
    ∧ invariant w0 (evs ++ [AMap.Mount]) this' w'
    ∧ (length (head w) ≤ length (head w'))%nat
    ∧ (AMap.status this = AMap.Created → windowAMap w = false →
       AMap.pc this' = AMap.AwaitAMap (length (head w))
       ∧ ∃ s, head w' = head w ++ [s] ∧ lib s = LibAMap ∧ loaded s = false)
    ∧ (AMap.status this = AMap.Created → windowAMap w = true →
       AMap.pc this' = AMap.Returned ∧ head w' = head w).
Proof.
  intros Hinv. cbn [AMap.handle].
  destruct (AMap.status this) eqn:Hst;
    try (exists this, w; split; [done|]; split; [by apply invariant_more|];
         split; [done|split; by intros [=]]).
  destruct Hinv as (Hd & Hu & Hr & t & Ht & Hpc).
  assert (∀ i, (length (head w0) ≤ i)%nat → AMap.resolved i w = true →
               AMap.Onload i ∈ evs ++ [AMap.Mount]) as Hr'.
  { intros i Hi H. apply elem_of_app. left. by apply Hr. }
  destruct (AMap.pc this) eqn:Hp; try done;
    try (destruct Hpc as (Hc & _); congruence).
  destruct Hpc as (_ & Hub & -> & Hlen). rewrite app_nil_r in Ht.
  rewrite render_unbuilt by exact Hub.
  erewrite bind_ok by reflexivity. erewrite bind_ok by reflexivity.
  unfold AMap.componentDidMount.
  set (this1 := AMap.with_mapContainer _ _).
  set (w2 := set_heap _ _).
  assert (AMap.dirty this1 = false) as Hd1 by exact Hd.
  assert (windowAMap w2 = windowAMap w) as Hw2 by reflexivity.
  assert (head w2 = head w) as Hh2 by reflexivity.
  assert (trace w2 = trace w0 ++ [ERender (Container false)]) as Ht2.
  { subst w2. fields. by rewrite Ht. }
  destruct (windowAMap w) eqn:Hw.
  - destruct (createMap_flush isEq this1 w2 Hw2 ltac:(done) Hd1)
      as (cbs & this' & w' & tu & Hk & Hrun & Hm & Hs & Hl & Hst' & Hpc' & Hd' & Hw'
          & Hh' & Ht' & Hev).
    assert (AMap.initAMap this1 w2 = AMap.createMap this1 w2) as Hinit.
    { unfold AMap.initAMap. unfold get_world. unfold mbind, M_bind. by rewrite Hw2. }
    apply bind_Ok_inv in Hrun as (this2 & w3 & Hc & Hf).
    erewrite bind_ok by (apply async_ok; rewrite Hinit; exact Hc).
    exists this', w'. split; [exact Hf|].
    split; [|split; [by rewrite Hh'|split; [by intros _ [=]|by intros _ _]]].
    unfold invariant. rewrite Hpc'. split; [done|]. split.
    { rewrite Hst'. by subst this1. }
    split. { intros i Hi. unfold AMap.resolved. rewrite Hh', Hh2. by apply Hr'. }
    eexists. split; [rewrite Ht', Ht2, <- app_assoc; reflexivity|].
    split; [rewrite Hst'; by subst this1|]. split; [|split; [done|left; congruence]].
    eexists _, cbs, [ERender (Container false)], (ERender (Container true) :: tu), _, _.
    split; [exact Hm|]. split; [exact Hk|]. split; [exact Hl|]. split; [reflexivity|].
    split; [repeat constructor|]. split; [|split; [by left|done]].
    constructor; [done|]. eapply Forall_impl; [exact Hev|]. intros e.
    apply update_post_event.
  - destruct (requireAMap_run (get (AMap.props this1) "appKey")
                (get (AMap.props this1) "protocol") (get (AMap.props this1) "version")
                (get (AMap.props this1) "proxyUrl") w2) as (src & Hreq).
    erewrite bind_ok.
    2:{ apply async_ok. unfold AMap.initAMap. unfold get_world, mbind, M_bind.
        rewrite Hw2. cbn [negb]. rewrite Hreq. reflexivity. }
    rewrite flush_clean by exact Hd1.
    eexists _, _. split; [reflexivity|].
    split; [|split; [fields; rewrite length_app, Hh2; lia|split]]; cycle 1.
    { intros _ _. fields. rewrite Hh2. split; [done|]. by eexists. }
    { by intros _ [=]. }
    unfold invariant. fields. split; [done|]. split; [done|]. split.
    { intros i Hi. destruct (decide (i < length (head w))%nat) as [Hlt|Hge].
      - subst w2. fields. rewrite (resolved_app_l i (set_heap _ (emit _ w))) by done.
        apply Hr'. done.
      - subst w2. rewrite (resolved_pending i (set_heap _ (emit _ w))); [done| |].
        + fields. lia.
        + by repeat constructor. }
    exists [ERender (Container false)]. split; [exact Ht2|].
    clear Hreq. subst this1 w2. fields.
    split; [discriminate|]. split; [exact Hub|].
    split; [by repeat constructor|].
    split; [exact Hlen|]. split; [rewrite length_app; cbn; lia|].
    eexists. split.
    { rewrite lookup_app_r by lia. by rewrite Nat.sub_diag. }
    done.
Qed.

Lemma createMap_unmounted isEq this w :
  windowAMap w = true → AMap.status this = AMap.Unmounted →
  AMap.dirty this = false →
  ∃ cbs this' w',
    let m := S (length (heap w)) in
    let l := bound cbs AMap.eventKeys in
    keys cbs = AMap.eventKeys
    ∧ (AMap.createMap this ≫= AMap.flush isEq) w = Ok this' w'
    ∧ AMap.this_map this' = VRef m ∧ AMap.state_map this' = AMap.state_map this
    ∧ AMap.AMapEventListeners this' = Some l
    ∧ AMap.status this' = AMap.status this ∧ AMap.pc this' = AMap.Returned
    ∧ AMap.dirty this' = false
    ∧ windowAMap w' = true ∧ head w' = head w
    ∧ trace w' = trace w ++ ENew CMap [AMap.mapContainer this; VRef (length (heap w))] m
                   :: (onCall m <$> l) ++ [ESetState (VRef m)].
Proof.
  intros Hw Hst Hd.
  destruct (createMap_run this w Hw) as (cbs & h' & Hk & _ & Hrun). cbv zeta in Hrun.
  rewrite Hst in Hrun. rewrite (bind_ok _ _ _ _ _ Hrun).
  rewrite flush_clean by exact Hd.
  eexists cbs, _, _. cbv zeta. split; [exact Hk|]. split; [reflexivity|].
  fields. done.
Qed.

(** The end of [initAMap], and the render it makes due, for a component
    that was mounted and has no map yet. *)
Lemma build_map isEq this w :
  windowAMap w = true → AMap.status this ≠ AMap.Created → unbuilt this →
  AMap.dirty this = false →
  ∃ this' w' tb,
    (AMap.createMap this ≫= AMap.flush isEq) w = Ok this' w'
    ∧ AMap.status this' = AMap.status this ∧ AMap.pc this' = AMap.Returned
    ∧ AMap.dirty this' = false ∧ windowAMap w' = true ∧ head w' = head w
    ∧ trace w' = trace w ++ tb
    ∧ ∀ pre, Forall pre_event pre → built this' (pre ++ tb).
Proof.
  intros Hw Hc Hub Hd. destruct (AMap.status this) eqn:Hst; [done| |].
  - destruct (createMap_flush isEq this w Hw ltac:(by rewrite Hst) Hd)
      as (cbs & this' & w' & tu & Hk & Hrun & Hm & Hs & Hl & Hst' & Hpc' & Hd' & Hw'
          & Hh' & Ht' & Hev).
    eexists this', w', _. split; [exact Hrun|]. split; [congruence|].
    split; [done|]. split; [done|]. split; [done|]. split; [done|].
    split; [exact Ht'|]. intros pre Hpre.
    eexists _, cbs, pre, (ERender (Container true) :: tu), _, _.
    split; [exact Hm|]. split; [exact Hk|]. split; [exact Hl|]. split; [reflexivity|].
    split; [exact Hpre|]. split; [|split; [by left|done]].
    constructor; [done|]. eapply Forall_impl; [exact Hev|]. intros e.
    apply update_post_event.
  - destruct (createMap_unmounted isEq this w Hw Hst Hd)
      as (cbs & this' & w' & Hk & Hrun & Hm & Hs & Hl & Hst' & Hpc' & Hd' & Hw'
          & Hh' & Ht').
    eexists this', w', _. split; [exact Hrun|]. split; [congruence|].
    split; [done|]. split; [done|]. split; [done|]. split; [done|].
    split; [exact Ht'|]. intros pre Hpre.
    eexists _, cbs, pre, [], _, _.
    split; [exact Hm|]. split; [exact Hk|]. split; [exact Hl|]. split; [reflexivity|].
    split; [exact Hpre|]. split; [constructor|]. destruct Hub as (_ & Hsm & _).
    split; [right; congruence|]. intros ?. congruence.
Qed.

Lemma fire_onload_spec tag w w1 :
  AMap.fire_onload tag w = Some w1 →
  ∃ s, head w !! tag = Some s ∧ loaded s = false
       ∧ heap w1 = heap w ∧ trace w1 = trace w
       ∧ head w1 = <[tag := {| src := src s; lib := lib s; loaded := true |}]> (head w)
       ∧ windowAMap w1 = match lib s with LibAMap => true | _ => windowAMap w end.
Proof.
  unfold AMap.fire_onload. destruct (head w !! tag) as [s|] eqn:Hs; [|done].
  destruct (loaded s) eqn:Hl; [done|]. intros [= <-]. exists s.
  split; [done|]. split; [done|]. by destruct (lib s).
Qed.

Lemma fire_onload_resolved tag w w1 i :
  AMap.fire_onload tag w = Some w1 →
  AMap.resolved i w1 = if decide (i = tag) then true else AMap.resolved i w.
Proof.
  intros (s & Hs & Hl & _ & _ & Hh & _)%fire_onload_spec. unfold AMap.resolved.
  rewrite Hh. case_decide as Hi.
  - subst i. rewrite list_lookup_insert_eq; [done|]. by eapply lookup_lt_Some.
  - by rewrite list_lookup_insert_ne.
Qed.

Lemma fire_onload_window tag w w1 :
  AMap.fire_onload tag w = Some w1 → windowAMap w = true → windowAMap w1 = true.
Proof.
  intros (s & _ & _ & _ & _ & _ & Hw)%fire_onload_spec Hwin. rewrite Hw.
  by destruct (lib s).
Qed.

Lemma fire_onload_length tag w w1 :
  AMap.fire_onload tag w = Some w1 → length (head w1) = length (head w).
Proof.
  intros (s & _ & _ & _ & _ & Hh & _)%fire_onload_spec. by rewrite Hh, length_insert.
Qed.

Lemma with_pc_same this : AMap.with_pc (AMap.pc this) this = this.
Proof. by destruct this. Qed.

Lemma resume_idle v2 this w :
  AMap.pc this = AMap.NotStarted ∨ AMap.pc this = AMap.Returned →
  AMap.resume v2 this w = Ok this w.
Proof. unfold AMap.resume. unfold_M. by intros [-> | ->]. Qed.

Lemma resume_AwaitAMap_pending v2 this p w :
  AMap.pc this = AMap.AwaitAMap p → AMap.resolved p w = false →
  AMap.resume v2 this w = Ok this w.
Proof. unfold AMap.resume. unfold_M. by intros -> ->. Qed.

Lemma resume_AwaitAMap_loaded v2 this p w :
  AMap.pc this = AMap.AwaitAMap p → AMap.resolved p w = true →
  ∃ s1 s2,
    loaded s1 = false ∧ loaded s2 = false
    ∧ AMap.resume v2 this w
      = Ok (AMap.with_pc (AMap.AwaitAMapUI (length (head w)) (S (length (head w)))) this)
           (set_head (head w ++ [s1; s2]) w).
Proof.
  intros Hp Hr. unfold AMap.resume. unfold get_world. unfold mbind at 1. unfold M_bind at 1.
  rewrite Hp, Hr. cbv zeta.
  match goal with
  | |- context [AMap.requireAMapUI ?a ?b ?c] =>
      destruct (requireAMapUI_run a b c w) as (src1 & H1)
  end.
  rewrite (bind_ok _ _ _ _ _ H1).
  match goal with
  | |- context [AMap.requireLoca ?a ?b ?c ?d] =>
      destruct (requireLoca_run a b c d
                  (set_head (head w ++ [{| src := src1; lib := LibUI; loaded := false |}]) w))
        as (src2 & H2)
  end.
  rewrite (bind_ok _ _ _ _ _ H2).
  eexists _, _. split; [|split]; [| |unfold mret, M_ret; f_equal]; cycle 2.
  - fields. rewrite length_app. cbn [length].
    by replace (length (head w) + 1)%nat with (S (length (head w))) by lia.
  - unfold set_head. fields. f_equal. rewrite <- app_assoc. reflexivity.
  - reflexivity.
  - reflexivity.
Qed.

Lemma resume_AwaitAMapUI_pending v2 this ui loca w :
  AMap.pc this = AMap.AwaitAMapUI ui loca → AMap.resolved ui w = false →
  AMap.resume v2 this w = Ok this w.
Proof. unfold AMap.resume. unfold_M. by intros -> ->. Qed.

Lemma resume_AwaitAMapUI_loaded v2 this ui loca w :
  AMap.pc this = AMap.AwaitAMapUI ui loca → AMap.resolved ui w = true →
  AMap.resume v2 this w = AMap.resumeLoca loca this (emit EInitAMapUI w).
Proof. unfold AMap.resume, AMap.afterAMapUI. unfold_M. by intros -> ->. Qed.

Lemma resume_AwaitLoca v2 this loca w :
  AMap.pc this = AMap.AwaitLoca loca →
  AMap.resume v2 this w = AMap.resumeLoca loca this w.
Proof. unfold AMap.resume. unfold_M. by intros ->. Qed.

Lemma resumeLoca_pending this loca w :
  AMap.resolved loca w = false →
  AMap.resumeLoca loca this w = Ok (AMap.with_pc (AMap.AwaitLoca loca) this) w.
Proof. unfold AMap.resumeLoca. unfold_M. by intros ->. Qed.

Lemma resumeLoca_loaded this loca w :
  AMap.resolved loca w = true → AMap.resumeLoca loca this w = AMap.createMap this w.
Proof. unfold AMap.resumeLoca. unfold_M. by intros ->. Qed.

Lemma handle_Onload isEq v2 w0 evs tag this w :
  invariant w0 evs this w →
  ∃ this' w',
    AMap.handle isEq v2 (AMap.Onload tag) this w = Ok this' w'
    ∧ invariant w0 (evs ++ [AMap.Onload tag]) this' w'
    ∧ (length (head w) ≤ length (head w'))%nat.
Proof.
  intros Hinv. cbn [AMap.handle].
  destruct (AMap.fire_onload tag w) as [w1|] eqn:Hf; cycle 1.
  { exists this, w. split; [done|]. split; [by apply invariant_more|done]. }
  destruct Hinv as (Hd & Hu & Hr & t & Ht & Hpc).
  pose proof (λ i, fire_onload_resolved tag w w1 i Hf) as Hres.
  pose proof (fire_onload_length tag w w1 Hf) as Hlen1.
  pose proof (fire_onload_window tag w w1 Hf) as Hwin1.
  pose proof (fire_onload_spec tag w w1 Hf) as (s & Hs & Hls & _ & Htr1 & Hh1 & Hw1).
  assert (AMap.status this = AMap.Unmounted → AMap.Unmount ∈ evs ++ [AMap.Onload tag])
    as Hu'.
  { intros H. apply elem_of_app. left. by apply Hu. }
  assert (∀ i, (length (head w0) ≤ i)%nat → AMap.resolved i w1 = true →
               AMap.Onload i ∈ evs ++ [AMap.Onload tag]) as Hr1.
  { intros i Hi. rewrite Hres. case_decide as Hit; intros H; apply elem_of_app.
    - subst i. right. by left.
    - left. by apply Hr. }
  assert (trace w1 = trace w0 ++ t) as Ht1 by congruence.
  destruct (AMap.pc this) eqn:Hp; try done.
  - (* not started *)
    erewrite bind_ok by (apply async_ok, resume_idle; by left).
    rewrite flush_clean by done. exists this, w1. split; [done|]. split; [|lia].
    unfold invariant. rewrite Hp. split; [done|]. split; [done|]. split; [done|].
    exists t. split; [done|]. destruct Hpc as (Hc & Hub & Hte & Hlen).
    split; [exact Hc|]. split; [exact Hub|]. split; [exact Hte|]. by rewrite Hlen1.
  - (* awaiting the main script *)
    destruct Hpc as (Hc & Hub & Hpre & -> & Hlen & s' & Hs' & Hlib & Hl').
    destruct (decide (tag = length (head w0))) as [->|Hne].
    + assert (AMap.resolved (length (head w0)) w1 = true) as Hrp
        by (rewrite Hres; by rewrite decide_True).
      destruct (resume_AwaitAMap_loaded v2 this _ w1 Hp Hrp)
        as (s1 & s2 & Hl1 & Hl2 & Hrun).
      erewrite bind_ok by (apply async_ok; exact Hrun).
      rewrite flush_clean by done. eexists _, _. split; [reflexivity|].
      split; [|fields; rewrite length_app; lia].
      assert (s' = s) as -> by congruence.
      unfold invariant. fields. split; [done|]. split; [done|]. split.
      { intros i Hi. destruct (decide (i < length (head w1))%nat) as [Hlt|Hge].
        - rewrite resolved_app_l by done. by apply Hr1.
        - rewrite resolved_pending; [done|lia|by repeat constructor]. }
      exists t. split; [done|]. split; [done|]. split; [exact Hub|].
      split; [done|]. split; [lia|]. split; [lia|].
      split; [rewrite length_app; cbn [length]; lia|].
      split; [rewrite Hw1, Hlib; done|].
      split; [rewrite resolved_app_l by lia; exact Hrp|].
      apply resolved_pending; [lia|by repeat constructor].
    + assert (AMap.resolved (length (head w0)) w1 = false) as Hrp.
      { rewrite Hres. rewrite decide_False by done.
        unfold AMap.resolved. by rewrite Hs'. }
      erewrite bind_ok by (apply async_ok; by eapply resume_AwaitAMap_pending).
      rewrite flush_clean by done. exists this, w1. split; [done|]. split; [|lia].
      unfold invariant. rewrite Hp. split; [done|]. split; [done|]. split; [done|].
      exists t. split; [done|]. split; [done|]. split; [done|]. split; [done|].
      split; [done|]. split; [congruence|]. exists s'.
      split; [|done]. rewrite Hh1. by rewrite list_lookup_insert_ne.
  - (* awaiting the UI script *)
    destruct Hpc as (Hc & Hub & Hpre & -> & -> & Hlen & Hwin & Hr0 & Hrui).
    specialize (Hwin1 Hwin).
    assert (AMap.resolved (length (head w0)) w1 = true) as Hr0'.
    { rewrite Hres. case_decide; [done|exact Hr0]. }
    destruct (decide (tag = S (length (head w0)))) as [->|Hne].
    + assert (AMap.resolved (S (length (head w0))) w1 = true) as Hrui'
        by (rewrite Hres; by rewrite decide_True).
      pose proof (resume_AwaitAMapUI_loaded v2 this _ _ w1 Hp Hrui') as Hrun.
      destruct (AMap.resolved (S (S (length (head w0)))) w1) eqn:Hrl.
      * rewrite resumeLoca_loaded in Hrun by exact Hrl.
        destruct (build_map isEq this (emit EInitAMapUI w1) Hwin1 Hc Hub Hd)
          as (this' & w' & tb & Hb & Hst' & Hpc' & Hd' & Hw' & Hh' & Ht' & Hbuilt).
        apply bind_Ok_inv in Hb as (this2 & w3 & Hcm & Hfl).
        erewrite bind_ok by (apply async_ok; rewrite Hrun; exact Hcm).
        exists this', w'. split; [exact Hfl|]. fields. split; [|rewrite Hh'; lia].
        unfold invariant. rewrite Hpc'. split; [done|]. split; [by rewrite Hst'|].
        split. { intros i Hi. unfold AMap.resolved. rewrite Hh'. by apply Hr1. }
        exists (t ++ EInitAMapUI :: tb). split.
        { rewrite Ht', Ht1, <- !app_assoc. reflexivity. }
        split; [by rewrite Hst'|]. split.
        { replace (t ++ EInitAMapUI :: tb) with ((t ++ [EInitAMapUI]) ++ tb)
            by (by rewrite <- app_assoc).
          apply Hbuilt. apply Forall_app. split; [done|]. constructor; [by right|constructor]. }
        split; [done|]. right. rewrite Hh'. split; [congruence|].
        unfold loaded3, AMap.resolved in *. rewrite Hh'. done.
      * rewrite resumeLoca_pending in Hrun by exact Hrl.
        erewrite bind_ok by (apply async_ok; exact Hrun).
        rewrite flush_clean by done. eexists _, _. split; [reflexivity|].
        fields. split; [|lia].
        unfold invariant. fields. split; [done|]. split; [done|]. split; [done|].
        exists (t ++ [EInitAMapUI]). split; [by rewrite Ht1, <- app_assoc|].
        split; [done|]. split; [exact Hub|]. split.
        { apply Forall_app. split; [done|]. constructor; [by right|constructor]. }
        split; [done|]. split; [congruence|]. done.
    + assert (AMap.resolved (S (length (head w0))) w1 = false) as Hrui'.
      { rewrite Hres. by rewrite decide_False by done. }
      erewrite bind_ok by (apply async_ok; by eapply resume_AwaitAMapUI_pending).
      rewrite flush_clean by done. exists this, w1. split; [done|]. split; [|lia].
      unfold invariant. rewrite Hp. split; [done|]. split; [done|]. split; [done|].
      exists t. split; [done|]. split; [done|]. split; [done|]. split; [done|].
      split; [done|]. split; [done|]. split; [congruence|]. done.
  - (* awaiting the Loca script *)
    destruct Hpc as (Hc & Hub & Hpre & -> & Hlen & Hwin & Hr0 & Hrui & Hrl).
    specialize (Hwin1 Hwin).
    assert (AMap.resolved (length (head w0)) w1 = true) as Hr0'.
    { rewrite Hres. case_decide; [done|exact Hr0]. }
    assert (AMap.resolved (S (length (head w0))) w1 = true) as Hrui'.
    { rewrite Hres. case_decide; [done|exact Hrui]. }
    pose proof (resume_AwaitLoca v2 this _ w1 Hp) as Hrun.
    destruct (decide (tag = S (S (length (head w0))))) as [->|Hne].
    + assert (AMap.resolved (S (S (length (head w0)))) w1 = true) as Hrl'
        by (rewrite Hres; by rewrite decide_True).
      rewrite resumeLoca_loaded in Hrun by exact Hrl'.
      destruct (build_map isEq this w1 Hwin1 Hc Hub Hd)
        as (this' & w' & tb & Hb & Hst' & Hpc' & Hd' & Hw' & Hh' & Ht' & Hbuilt).
      apply bind_Ok_inv in Hb as (this2 & w3 & Hcm & Hfl).
      erewrite bind_ok by (apply async_ok; rewrite Hrun; exact Hcm).
      exists this', w'. split; [exact Hfl|]. split; [|rewrite Hh'; lia].
      unfold invariant. rewrite Hpc'. split; [done|]. split; [by rewrite Hst'|].
      split. { intros i Hi. unfold AMap.resolved. rewrite Hh'. by apply Hr1. }
      exists (t ++ tb). split; [by rewrite Ht', Ht1, <- app_assoc|].
      split; [by rewrite Hst'|]. split; [by apply Hbuilt|].
      split; [done|]. right. rewrite Hh'. split; [congruence|].
      unfold loaded3, AMap.resolved in *. rewrite Hh'. done.
    + assert (AMap.resolved (S (S (length (head w0)))) w1 = false) as Hrl'.
      { rewrite Hres. by rewrite decide_False by done. }
      rewrite resumeLoca_pending in Hrun by exact Hrl'.
      rewrite <- Hp, with_pc_same in Hrun.
      erewrite bind_ok by (apply async_ok; exact Hrun).
      rewrite flush_clean by done. exists this, w1. split; [done|]. split; [|lia].
      unfold invariant. rewrite Hp. split; [done|]. split; [done|]. split; [done|].
      exists t. split; [done|]. split; [done|]. split; [done|]. split; [done|].
      split; [done|]. split; [congruence|]. done.
  - (* the map is built *)
    erewrite bind_ok by (apply async_ok, resume_idle; by right).
    rewrite flush_clean by done. exists this, w1. split; [done|]. split; [|lia].
    unfold invariant. rewrite Hp. split; [done|]. split; [done|]. split; [done|].
    exists t. split; [done|]. destruct Hpc as (Hc & Hb & Hwin & Hl).
    split; [done|]. split; [done|]. split; [by apply Hwin1|].
    destruct Hl as [Hl|[Hl (H0 & H1 & H2)]]; [left; congruence|right].
    split; [congruence|]. unfold loaded3. rewrite !Hres.
    repeat split; case_decide; done.
Qed.

Lemma handle_invariant isEq v2 w0 evs ev this w :
  invariant w0 evs this w →
  ∃ this' w',
    AMap.handle isEq v2 ev this w = Ok this' w'
    ∧ invariant w0 (evs ++ [ev]) this' w'
    ∧ (length (head w) ≤ length (head w'))%nat.
Proof.
  intros Hinv. destruct ev as [|p|tag|tag|].
  - destruct (handle_Mount isEq v2 w0 evs this w Hinv) as (this' & w' & ? & ? & ? & _).
    by exists this', w'.
  - destruct (handle_Update isEq v2 w0 evs p this w Hinv) as (this' & w' & ? & ? & Hh).
    exists this', w'. rewrite Hh. done.
  - by apply handle_Onload.
  - destruct (handle_Onerror isEq v2 w0 evs tag this w Hinv) as [? ?].
    by exists this, w.
  - destruct (handle_Unmount isEq v2 w0 evs this w Hinv) as (this' & w' & ? & ? & Hh).
    exists this', w'. rewrite Hh. done.
Qed.

Lemma run_invariant isEq v2 w0 evs : ∀ evs0 this w,
  invariant w0 evs0 this w →
  ∃ this' w',
    AMap.run isEq v2 evs (Ok this w) = Ok this' w'
    ∧ invariant w0 (evs0 ++ evs) this' w'
    ∧ (length (head w) ≤ length (head w'))%nat.
Proof.
  induction evs as [|ev evs IH]; intros evs0 this w Hinv.
  - exists this, w. rewrite app_nil_r. done.
  - destruct (handle_invariant isEq v2 w0 evs0 ev this w Hinv)
      as (this1 & w1 & Hh & Hinv1 & Hl1).
    destruct (IH (evs0 ++ [ev]) this1 w1 Hinv1) as (this' & w' & Hrun & Hinv' & Hl').
    exists this', w'. unfold AMap.run in *. cbn [foldl AMap.step]. rewrite Hh.
    split; [exact Hrun|]. split; [|lia].
    by rewrite <- app_assoc in Hinv'.
Qed.

Lemma constructor_invariant p w :
  ∃ this w0,
    AMap.constructor p w = Ok this w0
    ∧ invariant w0 [] this w0
    ∧ AMap.props this = p ∧ AMap.status this = AMap.Created
    ∧ head w0 = head w ∧ windowAMap w0 = windowAMap w.
Proof.
  destruct (proj1 (runs_ok _ _ _) (parseMapOptions_spec p w))
    as (o & w0 & Hp & Hg & _).
  unfold AMap.constructor. rewrite (bind_ok _ _ _ _ _ Hp).
  eexists _, w0. split; [reflexivity|]. destruct Hg as (_ & Hw & Hh & _).
  split; [|done]. unfold invariant. fields.
  split; [done|]. split; [done|]. split.
  { intros i Hi. unfold AMap.resolved. by rewrite lookup_ge_None_2. }
  exists []. split; [by rewrite app_nil_r|]. by repeat split.
Qed.

Lemma pre_event_not_new e c args a : pre_event e → e ≠ ENew c args a.
Proof. by intros [-> | ->]. Qed.

Lemma pre_event_not_call e a method args : pre_event e → e ≠ ECall a method args.
Proof. by intros [-> | ->]. Qed.

Lemma built_destroy this t a args :
  built this t → ECall a "destroy" args ∈ t → AMap.status this = AMap.Unmounted.
Proof.
  intros (m & cbs & pre & post & container & options & _ & _ & _ & -> & Hpre & Hpost & _).
  rewrite Forall_forall in Hpre, Hpost.
  intros [Hin|Hin]%elem_of_app.
  { apply Hpre in Hin. by eapply pre_event_not_call in Hin. }
  apply elem_of_cons in Hin as [[=]|Hin].
  apply elem_of_app in Hin as [Hin|Hin].
  { apply list_elem_of_fmap in Hin as (x & [=] & _). }
  apply elem_of_cons in Hin as [[=]|Hin].
  apply Hpost in Hin. cbn in Hin. by apply Hin.
Qed.

(** C3.  Whatever the events, no exception escapes a lifecycle method, and
    the trace [t] of the component is in the fixed order.  Mounted while
    [window.AMap] is undefined, the component appends the script of the
    SDK and suspends; mounted while it is defined, it builds the map at
    once.  A map is constructed once at most, and then either no script
    was asked for or the three scripts are loaded; before the construction
    the trace holds only renders without the children and
    [initAMapUI()], right after it come the [on] calls of [bindEvents] and
    the [setState], and only then renders with the children and setters.
    While [this.map] is undefined nothing was called on the SDK.
    [destroy] is called only by an unmount. *)
Theorem lifecycle_order (isShallowEqual : list obj → value → value → bool)
    (version2Flag : value → bool) (p : gmap string value) (w : world)
    (evs : list AMap.event) :
  ∃ this0 w0 this w' t,
    AMap.constructor p w = Ok this0 w0
    ∧ AMap.run isShallowEqual version2Flag evs (Ok this0 w0) = Ok this w'
    ∧ trace w' = trace w0 ++ t
    ∧ (windowAMap w0 = false →
       returned (AMap.handle isShallowEqual version2Flag AMap.Mount this0 w0)
         (λ this1 w1,
            AMap.pc this1 = AMap.AwaitAMap (length (head w0))
            ∧ ∃ s, head w1 = head w0 ++ [s] ∧ lib s = LibAMap ∧ loaded s = false))
    ∧ (windowAMap w0 = true →
       returned (AMap.handle isShallowEqual version2Flag AMap.Mount this0 w0)
         (λ this1 w1, AMap.pc this1 = AMap.Returned ∧ head w1 = head w0))
    ∧ ((∃ args a, ENew CMap args a ∈ t) →
       built this t
       ∧ (length (head w') = length (head w0) ∨ loaded3 (length (head w0)) w'))
    ∧ (AMap.this_map this = VUndefined → Forall pre_event t)
    ∧ (∀ a args, ECall a "destroy" args ∈ t →
       AMap.Unmount ∈ evs ∧ AMap.status this = AMap.Unmounted).
Proof.
  destruct (constructor_invariant p w) as (this0 & w0 & Hc & Hinv0 & Hp0 & Hst0 & Hh0 & Hw0).
  destruct (run_invariant isShallowEqual version2Flag w0 evs [] this0 w0 Hinv0)
    as (this & w' & Hrun & Hinv & _).
  destruct (handle_Mount isShallowEqual version2Flag w0 [] this0 w0 Hinv0)
    as (this1 & w1 & Hm & _ & _ & Hfalse & Htrue).
  cbn [app] in Hinv. destruct Hinv as (Hd & Hu & Hr & t & Ht & Hpc).
  exists this0, w0, this, w', t. split; [exact Hc|]. split; [exact Hrun|].
  split; [exact Ht|]. split; [|split].
  { intros Hw. rewrite Hm. cbn [returned]. by apply Hfalse. }
  { intros Hw. rewrite Hm. cbn [returned]. by apply Htrue. }
  assert (AMap.pc this ≠ AMap.Returned → Forall pre_event t) as Hpre.
  { destruct (AMap.pc this); try done.
    - destruct Hpc as (_ & _ & -> & _). constructor.
    - by destruct Hpc as (_ & _ & ? & _).
    - by destruct Hpc as (_ & _ & ? & _).
    - by destruct Hpc as (_ & _ & ? & _). }
  split; [|split].
  - intros (args & a & Hin). destruct (AMap.pc this) eqn:Hpcv;
      try (specialize (Hpre ltac:(done)); rewrite Forall_forall in Hpre;
           apply Hpre in Hin; by eapply pre_event_not_new in Hin).
    destruct Hpc as (_ & Hb & _ & [Hl|[_ Hl]]); split; auto.
  - intros Hm'. apply Hpre. intros Hpcv. rewrite Hpcv in Hpc.
    destruct Hpc as (_ & (m & ? & ? & ? & ? & ? & Hmm & _) & _). congruence.
  - intros a args Hin.
    assert (AMap.status this = AMap.Unmounted) as Hst; [|by split; [apply Hu|]].
    destruct (AMap.pc this) eqn:Hpcv;
      try (specialize (Hpre ltac:(done)); rewrite Forall_forall in Hpre;
           apply Hpre in Hin; by eapply pre_event_not_call in Hin).
    destruct Hpc as (_ & Hb & _). by eapply built_destroy.
Qed.

Lemma lifecycle_order_witness :
  ∃ this w',
    AMap.run Utils.isShallowEqual Utils.version2Flag
      [AMap.Mount; AMap.Onload 0; AMap.Onload 1; AMap.Onload 2; AMap.Unmount]
      (AMap.constructor Example.map_props (Example.page false)) = Ok this w'
    ∧ built this (trace w')
    ∧ AMap.status this = AMap.Unmounted.
Proof.
  set (evs := [AMap.Mount; AMap.Onload 0; AMap.Onload 1; AMap.Onload 2; AMap.Unmount]).
  destruct (lifecycle_order Utils.isShallowEqual Utils.version2Flag Example.map_props
              (Example.page false) evs)
    as (this0 & w0 & this & w' & t & Hc & Hrun & Ht & _ & _ & Hbuilt & _ & Hdestroy).
  assert (returned (AMap.constructor Example.map_props (Example.page false))
            (λ _ w, trace w = [])) as H0 by (vm_compute; reflexivity).
  assert (returned
            (AMap.run Utils.isShallowEqual Utils.version2Flag evs
               (AMap.constructor Example.map_props (Example.page false)))
            (λ _ w,
               (existsb (λ e, match e with ENew CMap _ _ => true | _ => false end) (trace w)
                && existsb (λ e, match e with
                                 | ECall _ method _ => bool_decide (method = "destroy")
                                 | _ => false
                                 end) (trace w))%bool = true)) as H1
    by (vm_compute; reflexivity).
  rewrite Hc in H0, H1. rewrite Hrun in H1. cbn [returned] in H0, H1.
  rewrite H0 in Ht. cbn [app] in Ht. rewrite Ht in *.
  apply andb_prop in H1 as [(e & Hin & He)%existsb_exists (e' & Hin' & He')%existsb_exists].
  apply list_elem_of_In in Hin, Hin'.
  exists this, w'. rewrite Hc. split; [exact Hrun|]. rewrite Ht. split.
  - apply Hbuilt. destruct e as [[] args a| | | | |]; try discriminate He.
    by exists args, a.
  - destruct e' as [|a method args| | | |]; try discriminate He'.
    apply bool_decide_eq_true in He' as ->. by eapply Hdestroy.
Defined.

Lemma loadScript_pending l s w :
  ∃ w', AMap.loadScript l s w = Ok (length (head w)) w'
        ∧ AMap.resolved (length (head w)) w' = false
        ∧ trace w' = trace w ∧ heap w' = heap w.
Proof.
  eexists. split; [reflexivity|]. split; [|done].
  unfold AMap.resolved. cbn [head set_head].
  by rewrite lookup_app_r, Nat.sub_diag.
Qed.

(** C4.  A script that fails to load is not handled.  The promise of
    [loadScript] is pending when returned, the [onload] of its tag
    resolves it, and [onerror] runs nothing.  Mounted while [window.AMap]
    is undefined, a component one of whose three scripts never fires
    [onload] stays suspended in [initAMap] whatever else happens: no
    lifecycle method throws and the promise of [initAMap] is not rejected,
    there is no map, every render is without the children, and nothing
    but renders and [initAMapUI()] is in the trace. *)
Theorem failed_script_load_is_unhandled
    (isShallowEqual : list obj → value → value → bool) (version2Flag : value → bool)
    (p : gmap string value) (w : world) (evs : list AMap.event) (i : nat) :
  windowAMap w = false →
  (length (head w) ≤ i ≤ length (head w) + 2)%nat →
  AMap.Onload i ∉ evs →
  (∀ l s, ∃ w1, AMap.loadScript l s w = Ok (length (head w)) w1
                ∧ AMap.resolved (length (head w)) w1 = false)
  ∧ (∀ tag w1 w2, AMap.fire_onload tag w1 = Some w2 →
       AMap.resolved tag w1 = false ∧ AMap.resolved tag w2 = true)
  ∧ (∀ tag this1 w1,
       AMap.handle isShallowEqual version2Flag (AMap.Onerror tag) this1 w1 = Ok this1 w1)
  ∧ ∃ this0 w0 this w' t,
      AMap.constructor p w = Ok this0 w0
      ∧ AMap.run isShallowEqual version2Flag (AMap.Mount :: evs) (Ok this0 w0)
        = Ok this w'
      ∧ trace w' = trace w0 ++ t
      ∧ suspended this
      ∧ AMap.resolved i w' = false
      ∧ unbuilt this
      ∧ AMap.render this = Container false
      ∧ Forall pre_event t.
Proof.
  intros Hw Hi Hevs. split.
  { intros l s. destruct (loadScript_pending l s w) as (w1 & ? & ? & _). by exists w1. }
  split.
  { intros tag w1 w2 Hf. split; [|by rewrite (fire_onload_resolved _ _ _ tag Hf), decide_True].
    unfold AMap.fire_onload in Hf. unfold AMap.resolved.
    destruct (head w1 !! tag) as [s|]; [|done]. by destruct (loaded s). }
  split; [done|].
  destruct (constructor_invariant p w) as (this0 & w0 & Hc & Hinv0 & _ & Hst0 & Hh0 & Hw0).
  rewrite <- Hh0 in Hi. rewrite <- Hw0 in Hw.
  destruct (handle_Mount isShallowEqual version2Flag w0 [] this0 w0 Hinv0)
    as (this1 & w1 & Hm & Hinv1 & _ & Hfalse & _).
  destruct (Hfalse Hst0 Hw) as (_ & s & Hh1 & _).
  destruct (run_invariant isShallowEqual version2Flag w0 evs _ this1 w1 Hinv1)
    as (this & w' & Hrun & Hinv & Hlen).
  rewrite Hh1, length_app in Hlen. cbn [length] in Hlen.
  destruct Hinv as (_ & _ & Hr & t & Ht & Hpc).
  assert (∀ j, (length (head w0) ≤ j ≤ length (head w0) + 2)%nat →
               AMap.resolved j w' = true → j ≠ i) as Hne.
  { intros j Hj Hres ->. apply Hr in Hres; [|lia].
    cbn [app] in Hres. apply elem_of_cons in Hres as [[=]|Hres]. by apply Hevs. }
  assert (AMap.resolved i w' = false) as Hpending.
  { destruct (AMap.resolved i w') eqn:Hres; [|done]. by destruct (Hne i Hi Hres). }
  exists this0, w0, this, w', t. split; [exact Hc|]. split.
  { unfold AMap.run in *. cbn [foldl AMap.step]. by rewrite Hm. }
  split; [exact Ht|]. unfold suspended.
  destruct (AMap.pc this) eqn:Hpcv.
  - destruct Hpc as (_ & _ & _ & Hl). lia.
  - destruct Hpc as (_ & Hu & Hpre & _).
    split; [done|]. split; [done|]. split; [done|]. by split; [apply render_unbuilt|].
  - destruct Hpc as (_ & Hu & Hpre & _).
    split; [done|]. split; [done|]. split; [done|]. by split; [apply render_unbuilt|].
  - destruct Hpc as (_ & Hu & Hpre & _).
    split; [done|]. split; [done|]. split; [done|]. by split; [apply render_unbuilt|].
  - destruct Hpc as (_ & _ & _ & [Hl|[_ (H0 & H1 & H2)]]); [lia|].
    exfalso.
    destruct (decide (i = length (head w0))) as [->|].
    { apply (Hne (length (head w0))); [lia|done|done]. }
    destruct (decide (i = S (length (head w0)))) as [->|].
    { apply (Hne (S (length (head w0)))); [lia|done|done]. }
    assert (i = S (S (length (head w0)))) as -> by lia.
    apply (Hne (S (S (length (head w0))))); [lia|done|done].
  - done.
Qed.

Lemma failed_script_load_witness :
  ∃ this w',
    AMap.run Utils.isShallowEqual Utils.version2Flag
      [AMap.Mount; AMap.Onerror 0; AMap.Update Example.map_props; AMap.Onload 1]
      (AMap.constructor Example.map_props (Example.page false)) = Ok this w'
    ∧ suspended this ∧ AMap.render this = Container false
    ∧ AMap.this_map this = VUndefined.
Proof.
  assert (AMap.Onload 0 ∉ [AMap.Onerror 0; AMap.Update Example.map_props; AMap.Onload 1])
    as Hevs.
  { intros H. repeat (apply elem_of_cons in H as [[=]|H]). by apply elem_of_nil in H. }
  destruct (failed_script_load_is_unhandled Utils.isShallowEqual Utils.version2Flag
              Example.map_props (Example.page false) _ 0 eq_refl
              (conj (le_n 0) (Nat.le_0_l _)) Hevs)
    as (_ & _ & _ & this0 & w0 & this & w' & t & Hc & Hrun & _ & Hs & _ & Hu & Hr & _).
  exists this, w'. rewrite Hc. split; [exact Hrun|]. split; [exact Hs|].
  split; [exact Hr|]. apply Hu.
Defined.

(** ** Teardown *)

Lemma marker_bindEvents_run this mk w :
  Marker.marker this = VRef mk →
  ∃ cbs h',
    keys cbs = Marker.eventKeys ∧ heap w `prefix_of` h'
    ∧ Marker.bindEvents this w
      = Ok (Marker.with_listeners (Some (bound cbs Marker.eventKeys)) this)
           (emits (onCall mk <$> bound cbs Marker.eventKeys)
              (set_registry (registry w ++ (pair mk <$> bound cbs Marker.eventKeys))
                 (set_heap h' w))).
Proof.
  intros Hm. unfold Marker.bindEvents, Marker.parseEvents. rewrite Hm.
  destruct (proj1 (runs_ok _ _ _) (createEventCallbacks_spec Marker.eventKeys (VRef mk) w))
    as (cbs & w1 & Hcb & Hk & _ & Hw1).
  destruct (proj1 (runs_ok _ _ _) (bindInstanceEvent_spec mk cbs [] w1))
    as (l & w2 & Hb & -> & ->). subst w1.
  exists cbs, (heap w ++ ((λ k, Fn (EventCallback k (VRef mk))) <$> Marker.eventKeys)).
  split; [exact Hk|]. split; [by apply prefix_app_r|].
  rewrite (bind_ok _ _ _ _ _ Hcb), (bind_ok _ _ _ _ _ Hb). rewrite Hk.
  unfold mret, M_ret. f_equal.
Qed.

Lemma marker_componentWillUnmount_run this mk l w :
  Marker.marker this = VRef mk → Marker.AMapEventListeners this = Some l →
  Marker.componentWillUnmount this w
  = Ok (Marker.with_marker VNull this)
       (emits ((offCall mk <$> l) ++ [ECall mk "setMap" [VNull]])
          (set_registry (foldl (λ r x, remove_first (mk, x) r) (registry w) l) w)).
Proof.
  intros Hm Hl. unfold Marker.componentWillUnmount.
  rewrite Hm, Hl. cbn [removeInstanceEvent].
  erewrite bind_ok by apply offAll_run.
  erewrite bind_ok by apply call_ok.
  rewrite sdk_effect_single, emit_emits, emits_emits. reflexivity.
Qed.

Lemma reachable_map_state w0 evs this w :
  invariant w0 evs this w →
  AMap.state_map this = VUndefined
  ∨ ∃ m cbs t1 t2,
      AMap.state_map this = VRef m
      ∧ AMap.AMapEventListeners this = Some (bound cbs AMap.eventKeys)
      ∧ trace w = t1 ++ (onCall m <$> bound cbs AMap.eventKeys) ++ t2.
Proof.
  intros (_ & _ & _ & t & Ht & Hpc).
  destruct (AMap.pc this); try (left; by destruct Hpc as (_ & (_ & ? & _) & _)); [|done].
  destruct Hpc as (_ & (m & cbs & pre & post & c & o & _ & _ & Hl & -> & _ & _ & [Hs|Hs] & _) & _);
    [right|by left].
  exists m, cbs, (trace w0 ++ pre ++ [ENew CMap [c; o] m]), (ESetState (VRef m) :: post).
  split; [exact Hs|]. split; [exact Hl|]. rewrite Ht.
  rewrite <- !app_assoc. reflexivity.
Qed.

(** C7.  [AMap.componentWillUnmount] returns at once, calling nothing and
    throwing nothing, while [state.map] is undefined; with a map in the
    state it calls [off] for each listener recorded, in order, and then
    [destroy()].  For a component run from its constructor through any
    events one of the two holds, and in the second the listeners recorded
    are those [bindEvents] bound with [on], so each is removed.
    [Marker.componentWillUnmount] calls [off] for each listener recorded,
    then [setMap(null)], and sets [this.marker] to [null]; after
    [bindEvents] the listeners recorded are those bound, and removing them
    leaves the markers' listeners as they were before the binding. *)
Theorem teardown_on_unmount (isShallowEqual : list obj → value → value → bool)
    (version2Flag : value → bool) :
  (∀ this w,
     AMap.state_map this = VUndefined → AMap.componentWillUnmount this w = Ok tt w)
  ∧ (∀ this m l w,
       AMap.state_map this = VRef m → AMap.AMapEventListeners this = Some l →
       AMap.componentWillUnmount this w
       = Ok tt (emits ((offCall m <$> l) ++ [ECall m "destroy" []])
                  (set_registry (foldl (λ r x, remove_first (m, x) r) (registry w) l) w)))
  ∧ (∀ p w evs, ∃ this0 w0 this w1,
       AMap.constructor p w = Ok this0 w0
       ∧ AMap.run isShallowEqual version2Flag evs (Ok this0 w0) = Ok this w1
       ∧ ((AMap.state_map this = VUndefined
           ∧ AMap.componentWillUnmount this w1 = Ok tt w1)
          ∨ ∃ m cbs t1 t2,
              AMap.state_map this = VRef m
              ∧ AMap.AMapEventListeners this = Some (bound cbs AMap.eventKeys)
              ∧ trace w1 = t1 ++ (onCall m <$> bound cbs AMap.eventKeys) ++ t2
              ∧ returned (AMap.componentWillUnmount this w1) (λ _ w2,
                  trace w2 = trace w1 ++ (offCall m <$> bound cbs AMap.eventKeys)
                                       ++ [ECall m "destroy" []])))
  ∧ (∀ this mk l w,
       Marker.marker this = VRef mk → Marker.AMapEventListeners this = Some l →
       Marker.componentWillUnmount this w
       = Ok (Marker.with_marker VNull this)
            (emits ((offCall mk <$> l) ++ [ECall mk "setMap" [VNull]])
               (set_registry (foldl (λ r x, remove_first (mk, x) r) (registry w) l) w)))
  ∧ (∀ this mk w,
       Marker.marker this = VRef mk →
       runs (Marker.bindEvents this) w (λ this1 w1,
         ∃ l, Marker.AMapEventListeners this1 = Some l
              ∧ length l = length Marker.eventKeys
              ∧ trace w1 = trace w ++ (onCall mk <$> l)
              ∧ registry w1 = registry w ++ (pair mk <$> l)
              ∧ runs (Marker.componentWillUnmount this1) w1 (λ this2 w2,
                  Marker.marker this2 = VNull
                  ∧ trace w2 = trace w1 ++ (offCall mk <$> l)
                                       ++ [ECall mk "setMap" [VNull]]
                  ∧ registry w2 ≡ₚ registry w))).
Proof.
  split; [exact componentWillUnmount_unbuilt|].
  split; [exact componentWillUnmount_built|].
  split.
  { intros p w evs.
    destruct (constructor_invariant p w) as (this0 & w0 & Hc & Hinv0 & _).
    destruct (run_invariant isShallowEqual version2Flag w0 evs [] this0 w0 Hinv0)
      as (this & w1 & Hrun & Hinv & _).
    exists this0, w0, this, w1. split; [exact Hc|]. split; [exact Hrun|].
    destruct (reachable_map_state _ _ _ _ Hinv) as [Hs|(m & cbs & t1 & t2 & Hs & Hl & Ht)].
    - left. split; [exact Hs|]. by apply componentWillUnmount_unbuilt.
    - right. exists m, cbs, t1, t2. split; [exact Hs|]. split; [exact Hl|].
      split; [exact Ht|]. rewrite (componentWillUnmount_built _ _ _ _ Hs Hl).
      reflexivity. }
  split; [exact marker_componentWillUnmount_run|].
  intros this mk w Hm.
  destruct (marker_bindEvents_run this mk w Hm) as (cbs & h' & Hk & _ & Hb).
  unfold runs at 1. rewrite Hb.
  exists (bound cbs Marker.eventKeys). split; [reflexivity|].
  split; [unfold bound; by rewrite length_fmap|].
  split; [reflexivity|]. split; [reflexivity|].
  unfold runs. erewrite marker_componentWillUnmount_run; [|exact Hm|reflexivity].
  split; [reflexivity|]. split; [reflexivity|].
  cbn [registry emits set_registry set_heap].
  apply remove_all_perm. apply Permutation_app_comm.
Qed.

Lemma teardown_witness :
  AMap.componentWillUnmount
    (AMap.with_state_map VUndefined false Example.amap) (Example.page true)
  = Ok tt (Example.page true)
  ∧ AMap.componentWillUnmount Example.amap (Example.page true)
    = Ok tt (emits [ECall 7 "destroy" []] (Example.page true))
  ∧ Marker.componentWillUnmount Example.amarker (Example.page true)
    = Ok (Marker.with_marker VNull Example.amarker)
         (emits [ECall 9 "setMap" [VNull]] (Example.page true)).
Proof.
  destruct (teardown_on_unmount Utils.isShallowEqual Utils.version2Flag)
    as (Hu & Hb & _ & Hm & _).
  split; [exact (Hu (AMap.with_state_map VUndefined false Example.amap) (Example.page true) eq_refl)|].
  split; [exact (Hb Example.amap 7%nat [] (Example.page true) eq_refl eq_refl)|].
  exact (Hm Example.amarker 9%nat [] (Example.page true) eq_refl eq_refl).
Defined.

(** ** The bounds *)

Lemma setBounds_in_setters : ("setBounds", "boundsProp", "bounds") ∈ AMap.setters.
Proof. by apply (bool_decide_unpack _); vm_compute. Qed.

Lemma returned_mono {A} (r : result A) (P Q : A → world → Prop) :
  returned r P → (∀ a w, P a w → Q a w) → returned r Q.
Proof. destruct r; cbn [returned]; [auto|done]. Qed.

(** C5, as the code has it.  With the SDK loaded and an array for the
    bounds prop, [parseMapOptions] gives under [bounds] a new
    [AMap.Bounds] made of the elements of the array, and under
    [boundsProp] the prop as given; before the SDK is loaded it gives
    [undefined] under both.  Once the map is built, [componentDidUpdate]
    keeps the bounds prop under [boundsProp] and calls [setBounds] exactly
    when the [boundsProp] kept from the parse before and the bounds prop
    are not shallow-equal, with the [bounds] parsed anew as the argument:
    the new [AMap.Bounds] plays no part in the comparison. *)
Theorem bounds_are_diffed_by_the_memoised_prop
    (isShallowEqual : list obj → value → value → bool) :
  (∀ p w b es,
     windowAMap w = true → get p "bounds" = VRef b → heap w !! b = Some (Arr es) →
     runs (AMap.parseMapOptions p) w (λ o w',
       get o "bounds" = VRef (length (heap w)) ∧ get o "boundsProp" = VRef b
       ∧ heap w' = heap w ++ [Foreign CBounds es]
       ∧ trace w' = trace w ++ [ENew CBounds es (length (heap w))]))
  ∧ (∀ p w,
       windowAMap w = false →
       runs (AMap.parseMapOptions p) w (λ o w',
         get o "bounds" = VUndefined ∧ get o "boundsProp" = VUndefined ∧ w' = w))
  ∧ (∀ this m w,
       AMap.this_map this = VRef m → windowAMap w = true →
       runs (AMap.componentDidUpdate isShallowEqual this) w (λ this' w',
         ∃ t, trace w' = trace w ++ t
              ∧ get (AMap.mapOptions this') "boundsProp" = get (AMap.props this) "bounds"
              ∧ (called m "setBounds" t ↔
                   isShallowEqual (heap w') (get (AMap.mapOptions this) "boundsProp")
                     (get (AMap.props this) "bounds") = false)
              ∧ (∀ args, ECall m "setBounds" args ∈ t →
                   args = [get (AMap.mapOptions this') "bounds"]))).
Proof.
  split; [|split].
  - intros p w b es Hw Hb Hes.
    eapply runs_mono; [apply parseMapOptions_spec|].
    intros o w' (_ & _ & _ & Hbp & Hbo & Hw').
    assert (as_array (heap w) (get p "bounds") = Some es) as Ha.
    { rewrite Hb. unfold as_array. cbn [lookup_obj]. by rewrite Hes. }
    rewrite Hw, (as_array_instanceof _ _ _ _ Ha), Ha in Hbo.
    rewrite Hw, Hb in Hbp. rewrite Ha, Hw in Hw'.
    unfold get. rewrite Hbp, Hbo. subst w'. done.
  - intros p w Hw.
    eapply runs_mono; [apply parseMapOptions_spec|].
    intros o w' (_ & _ & _ & Hbp & Hbo & Hw').
    rewrite Hw in Hbp, Hbo, Hw'. unfold get. rewrite Hbp, Hbo.
    split; [done|]. split; [done|]. by destruct (as_array _ _).
  - intros this m w Hm Hw.
    eapply runs_mono; [by apply componentDidUpdate_trace|].
    intros this' w' (w1 & news & Hp & _ & _ & Ht & Hn & ->).
    pose proof (parseMapOptions_spec (AMap.props this) w) as Hs.
    unfold runs in Hs. rewrite Hp in Hs. destruct Hs as (_ & _ & _ & Hbp & _).
    rewrite Hw in Hbp.
    set (prev := AMap.mapOptions this) in *. set (next := AMap.mapOptions this') in *.
    assert (get next "boundsProp" = get (AMap.props this) "bounds") as Hnext
      by (unfold get at 1; by rewrite Hbp).
    exists (news ++ flat_map (map_patch isShallowEqual (heap w1) m prev next) AMap.setters).
    split; [cbn [trace emits]; by rewrite Ht, app_assoc|]. split; [exact Hnext|].
    cbn [heap emits]. split.
    + rewrite called_app, (map_patches_called _ _ _ _ _ _ _ _ setBounds_in_setters), Hnext.
      split.
      * intros [Hc|[H _]]; [by apply called_news in Hc|exact H].
      * intros H. right. by split.
    + intros args [Hin|Hin]%elem_of_app.
      { rewrite Forall_forall in Hn. by apply Hn in Hin. }
      apply list_elem_of_In, in_flat_map in Hin as ([[api k] k'] & Hs & He).
      apply list_elem_of_In in Hs, He. unfold map_patch in He. cbn [fst snd] in He.
      apply map_call_elem in He as ([= <- ->] & _).
      by destruct (setters_functional _ _ _ _ _ Hs setBounds_in_setters) as [-> ->].
Qed.

Lemma bounds_witness :
  runs (AMap.parseMapOptions Example.map_props) (Example.page true) (λ o w',
    get o "bounds" = VRef 10%nat ∧ get o "boundsProp" = VRef 0%nat
    ∧ trace w' = [ENew CBounds [VRef 1%nat; VRef 2%nat] 10%nat])
  ∧ runs (AMap.parseMapOptions Example.map_props) (Example.page false) (λ o w',
      get o "boundsProp" = VUndefined)
  ∧ runs (AMap.componentDidUpdate Utils.isShallowEqual Example.amap) (Example.page true)
      (λ this' w', ∃ t, trace w' = t ∧ ¬ called 7%nat "setBounds" t).
Proof.
  destruct (bounds_are_diffed_by_the_memoised_prop Utils.isShallowEqual)
    as (Hloaded & Hearly & Hupdate).
  split; [|split].
  - eapply runs_mono;
      [exact (Hloaded Example.map_props (Example.page true) 0%nat
                [VRef 1%nat; VRef 2%nat] eq_refl eq_refl eq_refl)|].
    intros o w' (Hb & Hbp & _ & Ht). split; [exact Hb|]. split; [exact Hbp|exact Ht].
  - eapply runs_mono; [exact (Hearly Example.map_props (Example.page false) eq_refl)|].
    intros o w' (_ & Hbp & _). exact Hbp.
  - eapply runs_mono;
      [exact (Hupdate Example.amap 7%nat (Example.page true) eq_refl eq_refl)|].
    intros this' w' (t & Ht & _ & Hiff & _). exists t. split; [exact Ht|].
    intros Hc. apply Hiff in Hc. discriminate Hc.
Defined.

(** C5, as the claim has it, fails for a component mounted before the SDK
    is loaded: the constructor memoises [undefined], and when the scripts
    have loaded and the map is built, the update that follows the
    [setState] calls [setBounds], though the props are those the component
    was constructed with. *)
Lemma setBounds_without_a_change_of_bounds :
  returned
    (AMap.run Utils.isShallowEqual Utils.version2Flag
       [AMap.Mount; AMap.Onload 0; AMap.Onload 1; AMap.Onload 2]
       (AMap.constructor Example.map_props (Example.page false)))
    (λ this w',
       AMap.props this = Example.map_props
       ∧ AMap.this_map this = VRef 12%nat
       ∧ called 12%nat "setBounds" (trace w')).
Proof.
  eapply returned_mono.
  - instantiate (1 := λ this w',
      (bool_decide (AMap.props this = Example.map_props)
       && bool_decide (AMap.this_map this = VRef 12%nat)
       && bool_decide (Exists (is_call_of 12%nat "setBounds") (trace w')))%bool = true).
    vm_compute. reflexivity.
  - intros this w' [[H1 H2]%andb_prop H3]%andb_prop.
    apply bool_decide_eq_true in H1, H2, H3. by rewrite called_Exists.
Qed.

(** * Further properties *)

(** ** The listeners *)

Lemma remove_first_sublist (x : addr * listener) r : remove_first x r `sublist_of` r.
Proof.
  induction r as [|y r IH]; cbn [remove_first]; [done|].
  case_decide; [by apply sublist_cons|by apply sublist_skip].
Qed.

Lemma remove_first_others (a : addr) (x : addr * listener) r :
  x.1 = a →
  filter (λ y : addr * listener, y.1 ≠ a) (remove_first x r)
  = filter (λ y : addr * listener, y.1 ≠ a) r.
Proof.
  intros Hx. induction r as [|y r IH]; cbn [remove_first]; [done|].
  case_decide as Hxy.
  - subst y. rewrite filter_cons_False; [done|]. intros H. by apply H.
  - rewrite !filter_cons. by rewrite IH.
Qed.

Lemma remove_first_length (x : addr * listener) r :
  (length r ≤ S (length (remove_first x r)))%nat.
Proof.
  induction r as [|y r IH]; cbn [remove_first length]; [lia|].
  case_decide; cbn [length]; lia.
Qed.

Lemma remove_all_frame (a : addr) (l : list listener) : ∀ r,
  let r' := foldl (λ r x, remove_first (a, x) r) r l in
  r' `sublist_of` r
  ∧ filter (λ y : addr * listener, y.1 ≠ a) r' = filter (λ y : addr * listener, y.1 ≠ a) r
  ∧ (length r ≤ length r' + length l)%nat.
Proof.
  induction l as [|x l IH]; intros r; cbn [foldl length].
  - split; [done|]. split; [done|lia].
  - destruct (IH (remove_first (a, x) r)) as (Hs & Hf & Hl). cbv zeta in *.
    split; [etrans; [exact Hs|apply remove_first_sublist]|].
    split; [by rewrite Hf, remove_first_others|].
    pose proof (remove_first_length (a, x) r). lia.
Qed.

(** X1.  [removeInstanceEvent], given an instance and a list of records, calls
    [off] once for each record, in order, and nothing else; it only removes
    listeners: those left are a sublist of those there were, at most one
    is gone for each record, and the listeners of every other instance are
    the same. *)
Theorem removeInstanceEvent_only_removes (a : addr) (l : list listener) (w : world) :
  ∃ w',
    removeInstanceEvent (VRef a) (Some l) w = Ok tt w'
    ∧ trace w' = trace w ++ (offCall a <$> l)
    ∧ heap w' = heap w
    ∧ registry w' `sublist_of` registry w
    ∧ filter (λ y : addr * listener, y.1 ≠ a) (registry w')
      = filter (λ y : addr * listener, y.1 ≠ a) (registry w)
    ∧ (length (registry w) ≤ length (registry w') + length l)%nat.
Proof.
  destruct (offAll_spec a l w) as (w' & Ho & Hh & _ & _ & Ht & Hr).
  exists w'. split; [exact Ho|]. split; [exact Ht|]. split; [exact Hh|].
  rewrite Hr. apply remove_all_frame.
Qed.

(** X2.  On something that is not an object, [bindInstanceEvent] returns the
    list it was given when the callback object has no key, and otherwise
    throws a [TypeError] at the first key, before any call;
    [removeInstanceEvent] returns when the list is empty and throws at the
    first record otherwise.  Given [undefined] for the list,
    [removeInstanceEvent] throws whatever the instance. *)
Theorem event_helpers_without_an_instance (instance : value)
    (eventCallbacks : entries) (eventCBList : list listener) (w : world) :
  (∀ a, instance ≠ VRef a) →
  bindInstanceEvent instance eventCallbacks eventCBList w
  = match eventCallbacks with
    | [] => Ok eventCBList w
    | _ :: _ => Throw TypeError w
    end
  ∧ removeInstanceEvent instance (Some eventCBList) w
    = match eventCBList with
      | [] => Ok tt w
      | _ :: _ => Throw TypeError w
      end
  ∧ ∀ instance', removeInstanceEvent instance' None w = Throw TypeError w.
Proof.
  intros Hi.
  assert (∀ method args, call instance method args w = Throw TypeError w) as Hcall.
  { intros method args. destruct instance as [| | | | |a]; try reflexivity.
    by destruct (Hi a). }
  split; [|split; [|reflexivity]].
  - unfold bindInstanceEvent. destruct eventCallbacks as [|[k v] cbs]; [reflexivity|].
    cbn [keys fmap list_fmap fst bindKeys]. unfold mbind, M_bind. by rewrite Hcall.
  - destruct eventCBList as [|[e h] l]; [reflexivity|].
    cbn [removeInstanceEvent offAll]. unfold mbind, M_bind. by rewrite Hcall.
Qed.

Lemma event_helpers_witness :
  bindInstanceEvent VUndefined [("onClick", VRef 4%nat)] [] (Example.page true)
  = Throw TypeError (Example.page true)
  ∧ removeInstanceEvent VUndefined (Some []) (Example.page true)
    = Ok tt (Example.page true).
Proof.
  assert (∀ a, VUndefined ≠ VRef a) as Hne by (intros a; discriminate).
  split.
  - exact (proj1 (event_helpers_without_an_instance VUndefined [("onClick", VRef 4%nat)] []
                    (Example.page true) Hne)).
  - exact (proj1 (proj2 (event_helpers_without_an_instance VUndefined [] []
                           (Example.page true) Hne))).
Defined.







Lemma bound_names cbs ks : (bound cbs ks).*1 = eventName <$> ks.
Proof. unfold bound. rewrite <- list_fmap_compose. reflexivity. Qed.

Lemma map_event_names_NoDup : NoDup (eventName <$> AMap.eventKeys).
Proof. by apply (bool_decide_unpack _); vm_compute. Qed.

Lemma marker_event_names_NoDup : NoDup (eventName <$> Marker.eventKeys).
Proof. by apply (bool_decide_unpack _); vm_compute. Qed.

(** X4.  [bindEvents] of a component whose map, or marker, is there binds one
    listener for each key of the object [parseEvents] returns, 26 for a
    map and 17 for a marker, under names that are pairwise distinct, with
    one [on] call for each in the order of the keys and no other call, and
    records exactly those listeners. *)
Theorem bindEvents_binds_each_event_once :
  (∀ this m w,
     AMap.this_map this = VRef m →
     runs (AMap.bindEvents this) w (λ this' w',
       ∃ l, AMap.AMapEventListeners this' = Some l
            ∧ l.*1 = eventName <$> AMap.eventKeys ∧ NoDup l.*1 ∧ length l = 26%nat
            ∧ trace w' = trace w ++ (onCall m <$> l)
            ∧ registry w' = registry w ++ (pair m <$> l)))
  ∧ (∀ this mk w,
       Marker.marker this = VRef mk →
       runs (Marker.bindEvents this) w (λ this' w',
         ∃ l, Marker.AMapEventListeners this' = Some l
              ∧ l.*1 = eventName <$> Marker.eventKeys ∧ NoDup l.*1 ∧ length l = 17%nat
              ∧ trace w' = trace w ++ (onCall mk <$> l)
              ∧ registry w' = registry w ++ (pair mk <$> l))).
Proof.
  split.
  - intros this m w Hm.
    destruct (bindEvents_run this m w Hm) as (cbs & h' & _ & _ & Hb).
    unfold runs. rewrite Hb. exists (bound cbs AMap.eventKeys).
    split; [reflexivity|]. rewrite bound_names.
    split; [reflexivity|]. split; [exact map_event_names_NoDup|].
    split; [unfold bound; by rewrite length_fmap|]. by split.
  - intros this mk w Hm.
    destruct (marker_bindEvents_run this mk w Hm) as (cbs & h' & _ & _ & Hb).
    unfold runs. rewrite Hb. exists (bound cbs Marker.eventKeys).
    split; [reflexivity|]. rewrite bound_names.
    split; [reflexivity|]. split; [exact marker_event_names_NoDup|].
    split; [unfold bound; by rewrite length_fmap|]. by split.
Qed.

Lemma bindEvents_witness :
  runs (AMap.bindEvents Example.amap) (Example.page true) (λ this' w',
    ∃ l, AMap.AMapEventListeners this' = Some l ∧ length (trace w') = length l
         ∧ length l = 26%nat).
Proof.
  destruct bindEvents_binds_each_event_once as [H _].
  eapply runs_mono; [exact (H Example.amap 7%nat (Example.page true) eq_refl)|].
  intros this' w' (l & Hl & _ & _ & Hn & Ht & _). exists l.
  split; [exact Hl|]. split; [|exact Hn].
  rewrite Ht. cbn [trace Example.page app]. by rewrite length_fmap.
Defined.

(** ** Parsing the options of a marker *)

Lemma reshaped_not_callbacks :
  ("icon" ∉ Marker.callbackKeys) ∧ ("label" ∉ Marker.callbackKeys)
  ∧ ("offset" ∉ Marker.callbackKeys).
Proof. repeat split; by apply (bool_decide_unpack _); vm_compute. Qed.

Lemma pixel_throws v x y w :
  windowAMap w = false → Marker.pixel v x y w = Throw TypeError w.
Proof. intros Hw. unfold Marker.pixel, Marker.instanceofAMap. unfold_M. by rewrite Hw. Qed.

Lemma pixel_run v x y w :
  windowAMap w = true →
  Marker.pixel v x y w
  = if instanceof (heap w) v CPixel then Ok v w
    else let args := default [VNum x; VNum y] (as_array (heap w) v) in
         Ok (VRef (length (heap w)))
            (emit (ENew CPixel args (length (heap w)))
               (set_heap (heap w ++ [Foreign CPixel args]) w)).
Proof.
  intros Hw. unfold Marker.pixel, Marker.instanceofAMap. unfold_M. rewrite Hw.
  destruct (instanceof (heap w) v CPixel); [done|].
  destruct (as_array (heap w) v); unfold new; by rewrite Hw.
Qed.

(** X5.  While [window.AMap] is undefined [Marker.parseMarkerOptions] throws a
    [TypeError] whatever the props, having called nothing, and so does
    [shouldComponentUpdate]: the offset is tested against
    [window.AMap.Pixel] unconditionally. *)
Theorem marker_options_need_the_SDK (isShallowEqual : list obj → value → value → bool)
    (p : gmap string value) (w : world) :
  windowAMap w = false →
  (∃ w', Marker.parseMarkerOptions p w = Throw TypeError w'
         ∧ trace w' = trace w ∧ registry w' = registry w
         ∧ heap w `prefix_of` heap w')
  ∧ ∀ this, ∃ w', Marker.shouldComponentUpdate isShallowEqual this p w = Throw TypeError w'
                  ∧ trace w' = trace w.
Proof.
  intros Hw.
  assert (∃ w', Marker.parseMarkerOptions p w = Throw TypeError w'
                ∧ trace w' = trace w ∧ registry w' = registry w
                ∧ heap w `prefix_of` heap w') as (w' & Hp & Ht & Hr & Hh).
  { unfold Marker.parseMarkerOptions. cbv zeta.
    set (label := get (omit Marker.callbackKeys p) "label").
    set (icon := get (omit Marker.callbackKeys p) "icon").
    set (offset := get (omit Marker.callbackKeys p) "offset").
    assert (∃ l w0,
              (if decide (label = VUndefined) then alloc (Plain ∅) else mret label) w
              = Ok l w0 ∧ windowAMap w0 = false ∧ trace w0 = trace w
              ∧ registry w0 = registry w ∧ heap w `prefix_of` heap w0)
      as (l & w0 & H0 & Hw0 & Ht0 & Hr0 & Hh0).
    { case_decide.
      - eexists _, _. split; [reflexivity|]. split; [exact Hw|].
        split; [done|]. split; [done|]. by apply prefix_app_r.
      - by exists label, w. }
    exists w0. split; [|done]. rewrite (bind_ok _ _ _ _ _ H0).
    unfold Marker.parseIcon. destruct (Utils.isNullVoid icon).
    - erewrite bind_ok by reflexivity.
      unfold Marker.parseLabel. destruct (Utils.isNullVoid l).
      + erewrite bind_ok by reflexivity.
        unfold mbind, M_bind. by rewrite pixel_throws.
      + unfold mbind, M_bind, get_world. by rewrite pixel_throws.
    - unfold mbind, M_bind, Marker.instanceofAMap. by rewrite Hw0. }
  split; [by exists w'|].
  intros this. exists w'. split; [|exact Ht].
  unfold Marker.shouldComponentUpdate. unfold mbind, M_bind. by rewrite Hp.
Qed.

Lemma marker_options_need_the_SDK_witness :
  ∃ w', Marker.parseMarkerOptions Example.marker_props (Example.page false)
        = Throw TypeError w' ∧ trace w' = [].
Proof.
  destruct (marker_options_need_the_SDK Utils.isShallowEqual Example.marker_props
              (Example.page false) eq_refl) as [(w' & Hp & Ht & _) _].
  exists w'. split; [exact Hp|exact Ht].
Defined.

(** X6.  With the SDK loaded, props whose [icon] is [null], [undefined] or an
    [AMap.Icon], whose [label] is [null] and whose [offset] is an
    [AMap.Pixel] are parsed without constructing or allocating anything:
    the icon and the offset returned are the objects given, and the world
    is unchanged. *)
Theorem SDK_objects_are_kept_by_parseMarkerOptions (p : gmap string value) (w : world) :
  windowAMap w = true →
  Utils.isNullVoid (get p "icon") = true ∨ instanceof (heap w) (get p "icon") CIcon = true →
  get p "label" = VNull →
  instanceof (heap w) (get p "offset") CPixel = true →
  Marker.parseMarkerOptions p w
  = Ok (<["offset" := get p "offset"]>
          (<["label" := VNull]>
             (<["icon" := if Utils.isNullVoid (get p "icon") then VNull else get p "icon"]>
                (omit Marker.callbackKeys p)))) w.
Proof.
  intros Hw Hicon Hlabel Hoffset.
  destruct reshaped_not_callbacks as (Hi & Hl & Ho).
  unfold Marker.parseMarkerOptions. cbv zeta.
  rewrite !get_omit by assumption. rewrite Hlabel.
  rewrite decide_False by discriminate.
  erewrite bind_ok by reflexivity.
  assert (Marker.parseIcon (get p "icon") w
          = Ok (if Utils.isNullVoid (get p "icon") then VNull else get p "icon") w) as Hpi.
  { unfold Marker.parseIcon. destruct (Utils.isNullVoid (get p "icon")) eqn:Hn;
      [reflexivity|].
    destruct Hicon as [?|Hicon]; [congruence|].
    unfold mbind, M_bind, Marker.instanceofAMap. rewrite Hw, Hicon. reflexivity. }
  rewrite (bind_ok _ _ _ _ _ Hpi).
  erewrite bind_ok by reflexivity.
  erewrite bind_ok by (rewrite pixel_run by exact Hw; rewrite Hoffset; reflexivity).
  reflexivity.
Qed.

Lemma SDK_objects_are_kept_witness :
  let w := set_heap (Example.objects ++ [Foreign CPixel [VNum 1; VNum 2]]) (Example.page true) in
  let p : gmap string value := <["offset" := VRef 10%nat]> (<["label" := VNull]> Example.marker_props) in
  Marker.parseMarkerOptions p w
  = Ok (<["offset" := VRef 10%nat]> (<["label" := VNull]> (<["icon" := VNull]>
          (omit Marker.callbackKeys p)))) w.
Proof.
  intros w p.
  exact (SDK_objects_are_kept_by_parseMarkerOptions p w eq_refl (or_introl eq_refl)
           eq_refl eq_refl).
Defined.

Lemma lookup_snoc {A} (l : list A) x : (l ++ [x]) !! length l = Some x.
Proof. by rewrite lookup_app_r, Nat.sub_diag by lia. Qed.

Lemma parseLabel_of_empty a w :
  windowAMap w = true → heap w !! a = Some (Plain ∅) →
  Marker.parseLabel (VRef a) w
  = Ok (VRef (S (length (heap w))))
       (set_heap (heap w ++ [Foreign CPixel [VNum 0; VNum 0];
                             Plain (<["offset" := VRef (length (heap w))]> ∅)])
          (emit (ENew CPixel [VNum 0; VNum 0] (length (heap w))) w)).
Proof.
  intros Hw Ha. unfold Marker.parseLabel. cbn [Utils.isNullVoid].
  unfold get_world. unfold mbind at 1. unfold M_bind at 1. cbv zeta.
  unfold field, own_fields, lookup_obj. rewrite Ha.
  erewrite bind_ok by (rewrite pixel_run by exact Hw; reflexivity).
  unfold alloc. cbn [heap set_heap emit]. rewrite length_app. cbn [length].
  f_equal; [f_equal; lia|].
  unfold set_heap, emit. cbn [heap windowAMap head registry trace].
  by rewrite <- app_assoc.
Qed.

(** X7.  With the SDK loaded, props that give no [icon], no [label] and no
    [offset] are parsed into options with a [null] icon, a label that is a
    new object holding nothing but a new [Pixel(0, 0)] under [offset], for
    the default [{}] of the destructuring is not [null], and a new
    [Pixel(-10, -34)] for the offset; the two pixels are all that is
    constructed. *)
Theorem defaults_of_parseMarkerOptions (p : gmap string value) (w : world) :
  windowAMap w = true →
  get p "icon" = VUndefined → get p "label" = VUndefined → get p "offset" = VUndefined →
  let n := length (heap w) in
  ∃ w',
    Marker.parseMarkerOptions p w
    = Ok (<["offset" := VRef (n + 3)%nat]>
            (<["label" := VRef (n + 2)%nat]>
               (<["icon" := VNull]> (omit Marker.callbackKeys p)))) w'
    ∧ heap w' = heap w ++ [Plain ∅; Foreign CPixel [VNum 0; VNum 0];
                           Plain (<["offset" := VRef (n + 1)%nat]> ∅);
                           Foreign CPixel [VNum (-10); VNum (-34)]]
    ∧ trace w' = trace w ++ [ENew CPixel [VNum 0; VNum 0] (n + 1)%nat;
                             ENew CPixel [VNum (-10); VNum (-34)] (n + 3)%nat].
Proof.
  intros Hw Hicon Hlabel Hoffset n.
  destruct reshaped_not_callbacks as (Hi & Hl & Ho).
  unfold Marker.parseMarkerOptions. cbv zeta.
  rewrite !get_omit by assumption. rewrite Hicon, Hlabel, Hoffset.
  rewrite decide_True by reflexivity.
  erewrite bind_ok by reflexivity.
  erewrite bind_ok by reflexivity.
  erewrite bind_ok by (apply parseLabel_of_empty; [exact Hw|apply lookup_snoc]).
  erewrite bind_ok by (rewrite pixel_run by exact Hw; reflexivity).
  cbn [instanceof lookup_obj as_array default heap set_heap emit].
  rewrite !length_app. cbn [length]. fold n.
  replace (n + 1 + 2)%nat with (n + 3)%nat by lia.
  replace (S (n + 1)) with (n + 2)%nat by lia.
  eexists. split; [reflexivity|].
  cbn [heap trace set_heap emit]. by rewrite <- !app_assoc.
Qed.

Lemma defaults_witness :
  ∃ w',
    Marker.parseMarkerOptions Example.marker_props (Example.page true)
    = Ok (<["offset" := VRef 13%nat]> (<["label" := VRef 12%nat]> (<["icon" := VNull]>
            (omit Marker.callbackKeys Example.marker_props)))) w'
    ∧ trace w' = [ENew CPixel [VNum 0; VNum 0] 11%nat;
                  ENew CPixel [VNum (-10); VNum (-34)] 13%nat].
Proof.
  destruct (defaults_of_parseMarkerOptions Example.marker_props (Example.page true)
              eq_refl eq_refl eq_refl eq_refl) as (w' & Hp & _ & Ht).
  exists w'. split; [exact Hp|exact Ht].
Defined.

(** X8.  With the SDK loaded, an icon that is neither [null], [undefined] nor an
    [AMap.Icon] is replaced by a new [AMap.Icon] made from a new object
    with four keys: [image], [imageSize] and [size] as read from the icon,
    and [imageOffset], a Pixel.  Nothing else of the icon is passed on; in
    particular an icon given as the URL of an image, a string, gives an
    [AMap.Icon] whose [image] is [undefined], with a [Pixel(0, 0)]: the URL
    is not passed on. *)
Theorem parseIcon_builds_from_four_fields (icon : value) (w : world) :
  windowAMap w = true →
  Utils.isNullVoid icon = false →
  instanceof (heap w) icon CIcon = false →
  ∃ px w1 w',
    Marker.pixel (field (heap w) icon "imageOffset") 0 0 w = Ok px w1
    ∧ Marker.parseIcon icon w = Ok (VRef (S (length (heap w1)))) w'
    ∧ heap w' = heap w1 ++
        [Plain (<["size" := field (heap w) icon "size"]>
               (<["imageSize" := field (heap w) icon "imageSize"]>
               (<["imageOffset" := px]>
               (<["image" := field (heap w) icon "image"]> ∅))));
         Foreign CIcon [VRef (length (heap w1))]]
    ∧ trace w' = trace w1 ++ [ENew CIcon [VRef (length (heap w1))] (S (length (heap w1)))]
    ∧ (∀ s, icon = VStr s →
         heap w' = heap w ++
           [Foreign CPixel [VNum 0; VNum 0];
            Plain (<["size" := VUndefined]> (<["imageSize" := VUndefined]>
                  (<["imageOffset" := VRef (length (heap w))]>
                  (<["image" := VUndefined]> ∅))));
            Foreign CIcon [VRef (S (length (heap w)))]]).
Proof.
  intros Hw Hn Hi.
  assert (∃ px w1, Marker.pixel (field (heap w) icon "imageOffset") 0 0 w = Ok px w1
                   ∧ windowAMap w1 = true
                   ∧ (∀ s, icon = VStr s →
                        px = VRef (length (heap w))
                        ∧ heap w1 = heap w ++ [Foreign CPixel [VNum 0; VNum 0]]))
    as (px & w1 & Hpx & Hw1 & Hstr).
  { rewrite pixel_run by exact Hw.
    destruct (instanceof (heap w) (field (heap w) icon "imageOffset") CPixel) eqn:Hip.
    - eexists _, _. split; [reflexivity|]. split; [exact Hw|].
      intros s ->. discriminate Hip.
    - eexists _, _. split; [reflexivity|]. split; [exact Hw|].
      intros s ->. by split. }
  exists px, w1. eexists. split; [exact Hpx|].
  assert (Marker.parseIcon icon w
          = Ok (VRef (S (length (heap w1))))
               (emit (ENew CIcon [VRef (length (heap w1))] (S (length (heap w1))))
                  (set_heap
                     ((heap w1 ++
                       [Plain (<["size" := field (heap w) icon "size"]>
                              (<["imageSize" := field (heap w) icon "imageSize"]>
                              (<["imageOffset" := px]>
                              (<["image" := field (heap w) icon "image"]> ∅))))])
                      ++ [Foreign CIcon [VRef (length (heap w1))]])
                     (set_heap
                        (heap w1 ++
                         [Plain (<["size" := field (heap w) icon "size"]>
                                (<["imageSize" := field (heap w) icon "imageSize"]>
                                (<["imageOffset" := px]>
                                (<["image" := field (heap w) icon "image"]> ∅))))])
                        w1)))) as Hrun.
  { unfold Marker.parseIcon. rewrite Hn.
    unfold mbind at 1. unfold M_bind at 1. unfold Marker.instanceofAMap.
    rewrite Hw, Hi. unfold get_world. unfold mbind at 1. unfold M_bind at 1. cbv zeta.
    rewrite (bind_ok _ _ _ _ _ Hpx).
    erewrite bind_ok by reflexivity.
    unfold new. cbn [windowAMap set_heap heap]. rewrite Hw1.
    rewrite length_app. cbn [length].
    by replace (length (heap w1) + 1)%nat with (S (length (heap w1))) by lia. }
  split; [exact Hrun|]. cbn [heap trace emit set_heap].
  split; [by rewrite <- app_assoc|]. split; [reflexivity|].
  intros s Hs. destruct (Hstr s Hs) as [-> ->]. subst icon.
  rewrite length_app. cbn [length].
  replace (length (heap w) + 1)%nat with (S (length (heap w))) by lia.
  by rewrite <- !app_assoc.
Qed.

Lemma parseIcon_witness :
  ∃ w',
    Marker.parseIcon (VStr "https://example.com/pin.png") (Example.page true)
    = Ok (VRef 12%nat) w'
    ∧ heap w' !! 11%nat
      = Some (Plain (<["size" := VUndefined]> (<["imageSize" := VUndefined]>
                    (<["imageOffset" := VRef 10%nat]> (<["image" := VUndefined]> ∅))))).
Proof.
  destruct (parseIcon_builds_from_four_fields (VStr "https://example.com/pin.png")
              (Example.page true) eq_refl eq_refl eq_refl)
    as (px & w1 & w' & Hpx & Hrun & _ & _ & Hs).
  injection Hpx as <- <-.
  exists w'. split; [exact Hrun|]. by rewrite (Hs _ eq_refl).
Defined.

(** ** Updating twice *)

Lemma compared_keys_pass_through :
  Forall (λ s : string * string * string,
            (s.1.2 ∉ AMap.loaderKeys ++ AMap.eventKeys) ∧ s.1.2 ≠ "bounds")
         AMap.setters.
Proof. by apply (bool_decide_unpack _); vm_compute. Qed.

Lemma parsed_compared_key p w o w' s :
  windowAMap w = true → s ∈ AMap.setters →
  AMap.parseMapOptions p w = Ok o w' →
  get o s.1.2 = if decide (s.1.2 = "boundsProp") then get p "bounds" else get p s.1.2.
Proof.
  intros Hw Hs Hp.
  destruct (runs_inv _ _ _ _ _ (parseMapOptions_spec p w) Hp)
    as (_ & _ & Hother & Hbp & _).
  pose proof compared_keys_pass_through as Hk. rewrite Forall_forall in Hk.
  destruct (Hk _ Hs) as [Hn Hb]. case_decide as Hd.
  - rewrite Hd. unfold get at 1. by rewrite Hbp, Hw.
  - unfold get. by rewrite Hother.
Qed.

(** X9.  Once the map is built, an update that follows an update with the same
    props calls no method of the map, as long as every value is
    shallow-equal to itself: [componentDidUpdate] keeps the options it
    parsed, and the next parse of the same props gives the same value
    under every key compared, the bounds prop under [boundsProp] too.  All
    the second update does is construct the [AMap.Bounds] again. *)
Theorem repeated_update_calls_nothing
    (isShallowEqual : list obj → value → value → bool)
    (this : AMap.component) (m : addr) (w : world) :
  AMap.this_map this = VRef m → windowAMap w = true →
  (∀ h v, isShallowEqual h v v = true) →
  runs (AMap.componentDidUpdate isShallowEqual this) w (λ this1 w1,
    runs (AMap.componentDidUpdate isShallowEqual this1) w1 (λ this2 w2,
      ∃ t, trace w2 = trace w1 ++ t ∧ Forall is_new t
           ∧ registry w2 = registry w1
           ∧ ∀ s, s ∈ AMap.setters →
               get (AMap.mapOptions this2) s.1.2 = get (AMap.mapOptions this1) s.1.2)).
Proof.
  intros Hm Hw Hrefl.
  eapply runs_mono; [by apply componentDidUpdate_trace|].
  intros this1 w1 (w1' & news1 & Hp1 & Hthis1 & Hg1 & _ & _ & ->).
  assert (AMap.this_map this1 = VRef m) as Hm1 by (by rewrite Hthis1).
  assert (AMap.props this1 = AMap.props this) as Hprops by (by rewrite Hthis1).
  set (w1 := emits _ w1').
  assert (windowAMap w1 = true) as Hw1.
  { destruct Hg1 as (_ & Hwin & _). subst w1. cbn [windowAMap emits]. congruence. }
  eapply runs_mono; [by apply componentDidUpdate_trace|].
  intros this2 w2 (w2' & news2 & Hp2 & _ & Hg2 & Ht2 & Hn2 & ->).
  rewrite Hprops in Hp2.
  assert (∀ s, s ∈ AMap.setters →
               get (AMap.mapOptions this2) s.1.2 = get (AMap.mapOptions this1) s.1.2) as Heq.
  { intros s Hs. rewrite (parsed_compared_key _ _ _ _ s Hw1 Hs Hp2).
    by rewrite (parsed_compared_key _ _ _ _ s Hw Hs Hp1). }
  exists news2.
  assert (flat_map (map_patch isShallowEqual (heap w2') m (AMap.mapOptions this1)
                      (AMap.mapOptions this2)) AMap.setters = []) as ->.
  { apply flat_map_nil. intros s Hs. unfold map_patch, map_call.
    by rewrite (Heq s Hs), Hrefl. }
  rewrite emits_nil. split; [exact Ht2|]. split; [exact Hn2|].
  split; [by destruct Hg2 as (_ & _ & _ & ? & _)|exact Heq].
Qed.

Lemma repeated_update_witness :
  runs (AMap.componentDidUpdate Utils.isShallowEqual Example.amap) (Example.page true)
    (λ this1 w1,
       runs (AMap.componentDidUpdate Utils.isShallowEqual this1) w1 (λ _ w2,
         ∃ t, trace w2 = trace w1 ++ t ∧ Forall is_new t)).
Proof.
  assert (∀ h v, Utils.isShallowEqual h v v = true) as Hrefl.
  { intros h v. unfold Utils.isShallowEqual. by rewrite decide_True. }
  eapply runs_mono;
    [exact (repeated_update_calls_nothing Utils.isShallowEqual Example.amap 7%nat
              (Example.page true) eq_refl eq_refl Hrefl)|].
  intros this1 w1 H. eapply runs_mono; [exact H|].
  intros this2 w2 (t & Ht & Hn & _). exists t. by split.
Defined.

(** ** Unmounted before the map is built *)

Lemma fire_onload_registry tag w w1 :
  AMap.fire_onload tag w = Some w1 → registry w1 = registry w.
Proof.
  unfold AMap.fire_onload. destruct (head w !! tag) as [s|]; [|done].
  destruct (loaded s); [done|]. intros [= <-]. by destruct (lib s).
Qed.

Lemma quiet_on m l : Forall quiet (onCall m <$> l).
Proof. apply Forall_fmap, Forall_forall. by intros x _. Qed.

Lemma orphaned_same this w : orphaned this w (Ok this w).
Proof.
  cbn [orphaned]. split; [done|]. split; [done|]. split; [done|]. split; [done|].
  exists []. by rewrite app_nil_r.
Qed.

Lemma createMap_orphaned this w :
  AMap.status this = AMap.Unmounted → orphaned this w (AMap.createMap this w).
Proof.
  intros Hst. destruct (windowAMap w) eqn:Hw.
  - destruct (createMap_run this w Hw) as (cbs & h' & _ & _ & Hrun). cbv zeta in Hrun.
    rewrite Hrun, Hst. cbn [orphaned]. fields.
    split; [done|]. split; [done|]. split; [done|].
    split; [by apply prefix_app_r|].
    eexists. split; [reflexivity|].
    constructor; [done|]. apply Forall_app. split; [apply quiet_on|by repeat constructor].
  - unfold AMap.createMap. erewrite bind_ok by reflexivity.
    unfold mbind, M_bind, new. cbn [windowAMap set_heap]. rewrite Hw.
    cbn [orphaned]. fields. split; [done|]. exists []. by rewrite app_nil_r.
Qed.

Lemma resumeLoca_orphaned this loca w :
  AMap.status this = AMap.Unmounted → orphaned this w (AMap.resumeLoca loca this w).
Proof.
  intros Hst. destruct (AMap.resolved loca w) eqn:Hr.
  - rewrite resumeLoca_loaded by exact Hr. by apply createMap_orphaned.
  - rewrite resumeLoca_pending by exact Hr. by apply (orphaned_same (AMap.with_pc _ this)).
Qed.

Lemma resume_orphaned v2 this w :
  AMap.status this = AMap.Unmounted → orphaned this w (AMap.resume v2 this w).
Proof.
  intros Hst. destruct (AMap.pc this) as [|p|ui loca|loca| |e] eqn:Hpc.
  - rewrite resume_idle by (by left). apply orphaned_same.
  - destruct (AMap.resolved p w) eqn:Hr.
    + destruct (resume_AwaitAMap_loaded v2 this p w Hpc Hr) as (s1 & s2 & _ & _ & ->).
      cbn [orphaned]. fields. split; [done|]. split; [done|]. split; [done|].
      split; [done|]. exists []. by rewrite app_nil_r.
    + rewrite (resume_AwaitAMap_pending v2 this p w Hpc Hr). apply orphaned_same.
  - destruct (AMap.resolved ui w) eqn:Hr.
    + rewrite (resume_AwaitAMapUI_loaded v2 this ui loca w Hpc Hr).
      pose proof (resumeLoca_orphaned this loca (emit EInitAMapUI w) Hst) as H.
      destruct (AMap.resumeLoca loca this (emit EInitAMapUI w)) as [this' w'|e w'];
        cbn [orphaned] in *; fields.
      * destruct H as (? & ? & ? & ? & t & Ht & Hq).
        split; [done|]. split; [done|]. split; [done|]. split; [done|].
        exists (EInitAMapUI :: t). split; [by rewrite Ht, <- app_assoc|].
        by constructor.
      * destruct H as (? & t & Ht & Hq). split; [done|].
        exists (EInitAMapUI :: t). split; [by rewrite Ht, <- app_assoc|].
        by constructor.
    + rewrite (resume_AwaitAMapUI_pending v2 this ui loca w Hpc Hr). apply orphaned_same.
  - rewrite (resume_AwaitLoca v2 this loca w Hpc). by apply resumeLoca_orphaned.
  - rewrite resume_idle by (by right). apply orphaned_same.
  - unfold AMap.resume. unfold_M. rewrite Hpc. apply orphaned_same.
Qed.

Lemma async_resume_orphaned v2 this w :
  AMap.status this = AMap.Unmounted →
  ∃ this' w', AMap.async (AMap.resume v2) this w = Ok this' w'
              ∧ orphaned this w (Ok this' w').
Proof.
  intros Hst. pose proof (resume_orphaned v2 this w Hst) as H.
  unfold AMap.async. destruct (AMap.resume v2 this w) as [this' w'|e w'].
  - by exists this', w'.
  - eexists _, w'. split; [reflexivity|]. cbn [orphaned] in *. fields.
    split; [done|]. split; [done|]. split; [done|]. exact H.
Qed.

Lemma handle_orphaned isEq v2 ev this w :
  AMap.status this = AMap.Unmounted → AMap.dirty this = false →
  ∃ this' w', AMap.handle isEq v2 ev this w = Ok this' w'
              ∧ orphaned this w (Ok this' w').
Proof.
  intros Hst Hd.
  destruct ev as [|p|tag|tag|]; cbn [AMap.handle]; rewrite ?Hst;
    try (exists this, w; split; [reflexivity|apply orphaned_same]).
  destruct (AMap.fire_onload tag w) as [w1|] eqn:Hf;
    [|exists this, w; split; [reflexivity|apply orphaned_same]].
  destruct (async_resume_orphaned v2 this w1 Hst) as (this' & w' & Hrun & Ho).
  exists this', w'. rewrite (bind_ok _ _ _ _ _ Hrun).
  cbn [orphaned] in Ho. destruct Ho as (H1 & H2 & H3 & H4 & H5).
  rewrite flush_clean by congruence. split; [reflexivity|]. cbn [orphaned].
  rewrite (fire_onload_registry _ _ _ Hf) in H4.
  destruct (fire_onload_spec _ _ _ Hf) as (s & _ & _ & _ & Ht & _).
  rewrite Ht in H5. done.
Qed.

Lemma run_orphaned isEq v2 evs : ∀ this w,
  AMap.status this = AMap.Unmounted → AMap.dirty this = false →
  ∃ this' w', AMap.run isEq v2 evs (Ok this w) = Ok this' w'
              ∧ orphaned this w (Ok this' w').
Proof.
  induction evs as [|ev evs IH]; intros this w Hst Hd.
  - exists this, w. split; [reflexivity|apply orphaned_same].
  - destruct (handle_orphaned isEq v2 ev this w Hst Hd) as (this1 & w1 & Hh & Ho1).
    cbn [orphaned] in Ho1. destruct Ho1 as (Hs1 & Hm1 & Hd1 & Hr1 & t1 & Ht1 & Hq1).
    destruct (IH this1 w1 ltac:(congruence) ltac:(congruence))
      as (this' & w' & Hrun & Ho).
    cbn [orphaned] in Ho. destruct Ho as (Hs & Hm & Hd' & Hr & t & Ht & Hq).
    exists this', w'. unfold AMap.run in *. cbn [foldl AMap.step]. rewrite Hh.
    split; [exact Hrun|]. cbn [orphaned].
    split; [congruence|]. split; [congruence|]. split; [congruence|].
    split; [by etrans|]. exists (t1 ++ t).
    split; [by rewrite Ht, Ht1, app_assoc|]. by apply Forall_app.
Qed.

(** X10.  A component unmounted while it has no map in its state never destroys
    a map: whatever happens next, its state holds no map, it renders no
    children, no listener is removed, and all that reaches the trace is
    [initAMapUI()], the construction of the map by [initAMap] when the
    scripts have loaded, the binding of its listeners and a [setState]
    that is ignored.  The map such a component builds after the unmount is
    never passed to [destroy], and its listeners stay bound. *)
Theorem unmounted_without_a_map_never_destroys
    (isShallowEqual : list obj → value → value → bool) (version2Flag : value → bool)
    (p : gmap string value) (w : world) (evs1 evs2 : list AMap.event) :
  ∃ this0 w0 this1 w1 this2 w2,
    AMap.constructor p w = Ok this0 w0
    ∧ AMap.run isShallowEqual version2Flag evs1 (Ok this0 w0) = Ok this1 w1
    ∧ AMap.run isShallowEqual version2Flag evs2 (Ok this1 w1) = Ok this2 w2
    ∧ (AMap.status this1 = AMap.Unmounted → AMap.state_map this1 = VUndefined →
       AMap.status this2 = AMap.Unmounted ∧ AMap.state_map this2 = VUndefined
       ∧ AMap.render this2 = Container false
       ∧ registry w1 `prefix_of` registry w2
       ∧ ∃ t, trace w2 = trace w1 ++ t ∧ Forall quiet t).
Proof.
  destruct (constructor_invariant p w) as (this0 & w0 & Hc & Hinv0 & _).
  destruct (run_invariant isShallowEqual version2Flag w0 evs1 [] this0 w0 Hinv0)
    as (this1 & w1 & Hrun1 & Hinv1 & _).
  destruct (run_invariant isShallowEqual version2Flag w0 evs2 _ this1 w1 Hinv1)
    as (this2 & w2 & Hrun2 & _).
  exists this0, w0, this1, w1, this2, w2.
  split; [exact Hc|]. split; [exact Hrun1|]. split; [exact Hrun2|].
  intros Hst Hsm. destruct Hinv1 as (Hd & _).
  destruct (run_orphaned isShallowEqual version2Flag evs2 this1 w1 Hst Hd)
    as (this2' & w2' & Hrun2' & Ho).
  rewrite Hrun2 in Hrun2'. injection Hrun2' as <- <-.
  cbn [orphaned] in Ho. destruct Ho as (Hs & Hm & _ & Hr & Ht).
  split; [congruence|]. split; [congruence|].
  split; [unfold AMap.render; by rewrite Hm, Hsm|]. by split.
Qed.

Lemma unmounted_without_a_map_witness :
  ∃ this2 w2,
    AMap.run Utils.isShallowEqual Utils.version2Flag
      [AMap.Onload 0; AMap.Onload 1; AMap.Onload 2]
      (AMap.run Utils.isShallowEqual Utils.version2Flag [AMap.Mount; AMap.Unmount]
         (AMap.constructor Example.map_props (Example.page false))) = Ok this2 w2
    ∧ AMap.state_map this2 = VUndefined
    ∧ AMap.this_map this2 = VRef 12%nat
    ∧ length (registry w2) = 26%nat.
Proof.
  destruct (unmounted_without_a_map_never_destroys Utils.isShallowEqual
              Utils.version2Flag Example.map_props (Example.page false)
              [AMap.Mount; AMap.Unmount] [AMap.Onload 0; AMap.Onload 1; AMap.Onload 2])
    as (this0 & w0 & this1 & w1 & this2 & w2 & Hc & Hrun1 & Hrun2 & H).
  assert (returned
            (AMap.run Utils.isShallowEqual Utils.version2Flag [AMap.Mount; AMap.Unmount]
               (AMap.constructor Example.map_props (Example.page false)))
            (λ this _, AMap.status this = AMap.Unmounted
                       ∧ AMap.state_map this = VUndefined)) as H1
    by (vm_compute; split; reflexivity).
  assert (returned
            (AMap.run Utils.isShallowEqual Utils.version2Flag
               [AMap.Onload 0; AMap.Onload 1; AMap.Onload 2]
               (AMap.run Utils.isShallowEqual Utils.version2Flag [AMap.Mount; AMap.Unmount]
                  (AMap.constructor Example.map_props (Example.page false))))
            (λ this w, AMap.this_map this = VRef 12%nat
                       ∧ length (registry w) = 26%nat)) as H2
    by (vm_compute; split; reflexivity).
  rewrite Hc in H1, H2 |- *. rewrite Hrun1 in H1, H2 |- *. rewrite Hrun2 in H2 |- *.
  cbn [returned] in H1, H2. destruct H1 as [Hst Hsm]. destruct H2 as [Hm Hr].
  destruct (H Hst Hsm) as (_ & Hsm2 & _).
  exists this2, w2. split; [reflexivity|]. split; [exact Hsm2|]. split; [exact Hm|exact Hr].
Defined.

(** ** The scripts *)

Lemma invariant_no_script w0 evs this w :
  invariant w0 evs this w → length (head w) = length (head w0) →
  (AMap.pc this = AMap.NotStarted ∧ AMap.status this = AMap.Created)
  ∨ (AMap.pc this = AMap.Returned ∧ AMap.status this ≠ AMap.Created
     ∧ windowAMap w = true ∧ ∃ m, AMap.this_map this = VRef m).
Proof.
  intros (_ & _ & _ & t & _ & Hpc) Hl.
  destruct (AMap.pc this).
  - left. by destruct Hpc as (? & _).
  - destruct Hpc as (_ & _ & _ & _ & ? & _). lia.
  - destruct Hpc as (_ & _ & _ & _ & _ & ? & _). lia.
  - destruct Hpc as (_ & _ & _ & _ & ? & _). lia.
  - right. destruct Hpc as (? & (m & ? & ? & ? & ? & ? & Hm & _) & ? & _).
    split; [done|]. split; [done|]. split; [done|]. by exists m.
  - done.
Qed.

Lemma handle_with_SDK isEq v2 w0 evs ev this w :
  invariant w0 evs this w → windowAMap w = true →
  length (head w) = length (head w0) →
  ∃ this' w',
    AMap.handle isEq v2 ev this w = Ok this' w'
    ∧ invariant w0 (evs ++ [ev]) this' w'
    ∧ windowAMap w' = true ∧ length (head w') = length (head w0).
Proof.
  intros Hinv Hw Hl.
  pose proof (invariant_no_script _ _ _ _ Hinv Hl) as Hpc.
  destruct ev as [|p|tag|tag|].
  - destruct (handle_Mount isEq v2 w0 evs this w Hinv)
      as (this' & w' & Hh & Hinv' & _ & _ & Htrue).
    exists this', w'. split; [exact Hh|]. split; [exact Hinv'|].
    destruct (AMap.status this) eqn:Hst.
    + destruct (Htrue eq_refl Hw) as [Hpc' Hh'].
      split; [|by rewrite Hh'].
      destruct Hinv' as (_ & _ & _ & t & _ & H). rewrite Hpc' in H.
      by destruct H as (_ & _ & ? & _).
    + cbn [AMap.handle] in Hh. rewrite Hst in Hh. injection Hh as <- <-. done.
    + cbn [AMap.handle] in Hh. rewrite Hst in Hh. injection Hh as <- <-. done.
  - destruct (handle_Update isEq v2 w0 evs p this w Hinv) as (this' & w' & Hh & Hinv' & Hhd).
    exists this', w'. split; [exact Hh|]. split; [exact Hinv'|].
    split; [|by rewrite Hhd].
    cbn [AMap.handle] in Hh. destruct (AMap.status this) eqn:Hst;
      try (injection Hh as <- <-; done).
    destruct Hpc as [[_ ?]|(_ & _ & _ & m & Hm)]; [done|].
    apply bind_Ok_inv in Hh as ([] & w1 & [= <-] & Hcdu).
    pose proof (componentDidUpdate_built isEq (AMap.with_props p this) m
                  (emit (ERender (AMap.render (AMap.with_props p this))) w) Hm) as Hb.
    unfold runs in Hb. rewrite Hcdu in Hb. destruct Hb as (_ & -> & _). done.
  - destruct (handle_Onload isEq v2 w0 evs tag this w Hinv) as (this' & w' & Hh & Hinv' & _).
    exists this', w'. split; [exact Hh|]. split; [exact Hinv'|].
    cbn [AMap.handle] in Hh.
    destruct (AMap.fire_onload tag w) as [w1|] eqn:Hf; [|by injection Hh as <- <-].
    assert (AMap.resume v2 this w1 = Ok this w1) as Hres.
    { apply resume_idle. destruct Hpc as [[? _]|(? & _)]; [by left|by right]. }
    rewrite (bind_ok _ _ _ _ _ (async_ok _ _ _ _ _ Hres)) in Hh.
    rewrite flush_clean in Hh by (by destruct Hinv). injection Hh as <- <-.
    split; [by eapply fire_onload_window|].
    by rewrite (fire_onload_length _ _ _ Hf).
  - exists this, w. split; [reflexivity|]. split; [by apply invariant_more|done].
  - destruct (handle_Unmount isEq v2 w0 evs this w Hinv) as (this' & w' & Hh & Hinv' & Hhd).
    exists this', w'. split; [exact Hh|]. split; [exact Hinv'|].
    split; [|by rewrite Hhd].
    cbn [AMap.handle] in Hh. destruct (AMap.status this) eqn:Hst;
      try (injection Hh as <- <-; done).
    destruct Hpc as [[_ ?]|(Hp & _)]; [done|].
    apply bind_Ok_inv in Hh as ([] & w1 & _ & [= <- <-]).
    destruct Hinv' as (_ & _ & _ & t & _ & H). fields. rewrite Hp in H.
    by destruct H as (_ & _ & ? & _).
Qed.

Lemma run_with_SDK isEq v2 w0 evs : ∀ evs0 this w,
  invariant w0 evs0 this w → windowAMap w = true →
  length (head w) = length (head w0) →
  ∃ this' w',
    AMap.run isEq v2 evs (Ok this w) = Ok this' w'
    ∧ windowAMap w' = true ∧ length (head w') = length (head w0).
Proof.
  induction evs as [|ev evs IH]; intros evs0 this w Hinv Hw Hl.
  - by exists this, w.
  - destruct (handle_with_SDK isEq v2 w0 evs0 ev this w Hinv Hw Hl)
      as (this1 & w1 & Hh & Hinv1 & Hw1 & Hl1).
    destruct (IH _ this1 w1 Hinv1 Hw1 Hl1) as (this' & w' & Hrun & Hw' & Hl').
    exists this', w'. unfold AMap.run in *. cbn [foldl AMap.step]. by rewrite Hh.
Qed.

(** X11.  Whatever the events, a component appends no script tag, one, or
    three: none as long as [initAMap] has not run, one while the script of
    the SDK is pending, three once it has loaded.  A component constructed
    while [window.AMap] is defined appends none at all. *)
Theorem at_most_three_scripts
    (isShallowEqual : list obj → value → value → bool) (version2Flag : value → bool)
    (p : gmap string value) (w : world) (evs : list AMap.event) :
  ∃ this w',
    AMap.run isShallowEqual version2Flag evs (AMap.constructor p w) = Ok this w'
    ∧ (length (head w') = length (head w)
       ∨ (length (head w') = S (length (head w))
          ∧ AMap.resolved (length (head w)) w' = false)
       ∨ (length (head w') = S (S (S (length (head w))))
          ∧ AMap.resolved (length (head w)) w' = true))
    ∧ (windowAMap w = true → length (head w') = length (head w)).
Proof.
  destruct (constructor_invariant p w) as (this0 & w0 & Hc & Hinv0 & _ & _ & Hh0 & Hw0).
  destruct (run_invariant isShallowEqual version2Flag w0 evs [] this0 w0 Hinv0)
    as (this & w' & Hrun & Hinv & _).
  exists this, w'. rewrite Hc. split; [exact Hrun|]. rewrite <- Hh0. split.
  - destruct Hinv as (_ & _ & _ & t & _ & Hpc). destruct (AMap.pc this).
    + left. by destruct Hpc as (_ & _ & _ & ?).
    + right. left. destruct Hpc as (_ & _ & _ & -> & Hl & s & Hs & _ & Hp).
      split; [exact Hl|]. unfold AMap.resolved. by rewrite Hs.
    + right. right. by destruct Hpc as (_ & _ & _ & _ & _ & ? & _ & ? & _).
    + right. right. by destruct Hpc as (_ & _ & _ & _ & ? & _ & ? & _).
    + destruct Hpc as (_ & _ & _ & [?|[? (? & _)]]); [by left|by right; right].
    + done.
  - intros Hw. rewrite <- Hw0 in Hw.
    destruct (run_with_SDK isShallowEqual version2Flag w0 evs [] this0 w0 Hinv0 Hw eq_refl)
      as (this2 & w2 & Hrun2 & _ & Hl).
    rewrite Hrun in Hrun2. by injection Hrun2 as <- <-.
Qed.

Lemma at_most_three_scripts_witness :
  ∃ this w',
    AMap.run Utils.isShallowEqual Utils.version2Flag
      [AMap.Mount; AMap.Update Example.map_props; AMap.Unmount]
      (AMap.constructor Example.map_props (Example.page true)) = Ok this w'
    ∧ head w' = [].
Proof.
  destruct (at_most_three_scripts Utils.isShallowEqual Utils.version2Flag
              Example.map_props (Example.page true)
              [AMap.Mount; AMap.Update Example.map_props; AMap.Unmount])
    as (this & w' & Hrun & _ & Hl).
  exists this, w'. split; [exact Hrun|]. by apply nil_length_inv, Hl.
Defined.

Lemma string_app_assoc (s1 s2 s3 : string) : (s1 +:+ s2) +:+ s3 = s1 +:+ s2 +:+ s3.
Proof.
  induction s1 as [|a s1 IH]; [reflexivity|].
  change (String a ((s1 +:+ s2) +:+ s3) = String a (s1 +:+ s2 +:+ s3)). by rewrite IH.
Qed.

Lemma mount_without_SDK isEq v2 this w :
  AMap.status this = AMap.Created → AMap.dirty this = false →
  AMap.state_map this = VUndefined → windowAMap w = false →
  let p := AMap.props this in
  AMap.handle isEq v2 AMap.Mount this w
  = Ok (AMap.with_pc (AMap.AwaitAMap (length (head w)))
          (AMap.with_mapContainer (VRef (length (heap w)))
             (AMap.with_status AMap.Mounted this)))
       (set_head
          (head w ++
           [{| src := (if truthy (get p "proxyUrl") then to_str (get p "proxyUrl")
                       else to_str (get p "protocol") +:+ "://webapi.amap.com")
                      +:+ "/maps?v=" +:+ to_str (get p "version")
                      +:+ "&key=" +:+ to_str (get p "appKey");
               lib := LibAMap; loaded := false |}])
          (set_heap (heap w ++ [Foreign CElement []])
             (emit (ERender (Container false)) w))).
Proof.
  intros Hst Hd Hsm Hw p. cbn [AMap.handle]. rewrite Hst.
  unfold AMap.render. rewrite Hsm, bool_decide_true by done. cbn [negb].
  erewrite bind_ok by reflexivity. erewrite bind_ok by reflexivity.
  erewrite bind_ok.
  2:{ unfold AMap.componentDidMount. apply async_ok. unfold AMap.initAMap.
      unfold get_world, mbind, M_bind. fields. rewrite Hw. cbn [negb].
      unfold AMap.requireAMap, AMap.loadScript. fields. reflexivity. }
  rewrite flush_clean by exact Hd. f_equal. fields. unfold set_head. fields.
  do 4 f_equal. subst p. destruct (truthy (get (AMap.props this) "proxyUrl")); [done|].
  by rewrite string_app_assoc.
Qed.

Lemma onload_of_the_SDK isEq v2 this w n s :
  AMap.pc this = AMap.AwaitAMap n → AMap.dirty this = false →
  head w !! n = Some s → loaded s = false → lib s = LibAMap →
  let p := AMap.props this in
  let base := if truthy (get p "proxyUrl") then to_str (get p "proxyUrl")
              else to_str (get p "protocol") +:+ "://webapi.amap.com" in
  AMap.handle isEq v2 (AMap.Onload n) this w
  = Ok (AMap.with_pc (AMap.AwaitAMapUI (length (head w)) (S (length (head w)))) this)
       (set_head
          (<[n := {| src := src s; lib := LibAMap; loaded := true |}]> (head w) ++
           [{| src := base +:+ "/ui/"
                      +:+ (if v2 (get p "version") then "1.1" else to_str (get p "uiVersion"))
                      +:+ "/main-async.js";
               lib := LibUI; loaded := false |};
            {| src := base +:+ "/loca?key=" +:+ to_str (get p "appKey")
                      +:+ "&v=" +:+ to_str (get p "locaVersion");
               lib := LibLoca; loaded := false |}])
          (set_windowAMap true w)).
Proof.
  intros Hpc Hd Hs Hl Hlib p base. cbn [AMap.handle].
  unfold AMap.fire_onload. rewrite Hs, Hl, Hlib.
  set (w1 := set_windowAMap true _).
  assert (AMap.resolved n w1 = true) as Hres.
  { unfold AMap.resolved. subst w1. fields.
    rewrite list_lookup_insert_eq; [done|]. by eapply lookup_lt_Some. }
  erewrite bind_ok.
  2:{ apply async_ok. unfold AMap.resume. unfold get_world. unfold mbind at 1.
      unfold M_bind at 1. rewrite Hpc, Hres. cbv zeta.
      unfold AMap.requireAMapUI, AMap.requireLoca, AMap.loadScript.
      erewrite bind_ok by reflexivity. erewrite bind_ok by reflexivity. reflexivity. }
  rewrite flush_clean by exact Hd. subst w1. fields. unfold set_head. fields.
  rewrite !length_app, length_insert. cbn [length].
  replace (length (head w) + 1)%nat with (S (length (head w))) by lia.
  f_equal. f_equal. rewrite <- app_assoc. cbn [app]. f_equal.
  subst base p. destruct (truthy (get (AMap.props this) "proxyUrl")).
  - by destruct (v2 (get (AMap.props this) "version")).
  - rewrite !string_app_assoc. by destruct (v2 (get (AMap.props this) "version")).
Qed.

Lemma constructor_without_SDK p w :
  windowAMap w = false →
  ∃ this0, AMap.constructor p w = Ok this0 w
           ∧ AMap.props this0 = p ∧ AMap.status this0 = AMap.Created
           ∧ AMap.pc this0 = AMap.NotStarted ∧ AMap.dirty this0 = false
           ∧ unbuilt this0.
Proof.
  intros Hw.
  destruct (proj1 (runs_ok _ _ _) (parseMapOptions_spec p w))
    as (o & w0 & Hp & _ & _ & _ & _ & _ & Hw0).
  rewrite Hw in Hw0.
  assert (w0 = w) as -> by (by destruct (as_array _ _)).
  unfold AMap.constructor. rewrite (bind_ok _ _ _ _ _ Hp).
  eexists. split; [reflexivity|]. by repeat split.
Qed.

(** X12.  A component constructed and mounted while [window.AMap] is undefined
    appends the script of the SDK, and nothing more until that script has
    loaded; its [onload] appends the scripts of AMapUI and of Loca, both
    at once, and defines [window.AMap].  The three URLs start with the
    proxy URL when one is given and with [protocol://webapi.amap.com]
    otherwise; the version of AMapUI asked for is 1.1, whatever the
    [uiVersion] prop, when the version of the SDK is flagged as 2.  Up to
    there the component has rendered once, without children, and called
    nothing. *)
Theorem scripts_and_their_URLs
    (isShallowEqual : list obj → value → value → bool) (version2Flag : value → bool)
    (p : gmap string value) (w : world) :
  windowAMap w = false →
  let base := if truthy (get p "proxyUrl") then to_str (get p "proxyUrl")
              else to_str (get p "protocol") +:+ "://webapi.amap.com" in
  let maps := base +:+ "/maps?v=" +:+ to_str (get p "version")
              +:+ "&key=" +:+ to_str (get p "appKey") in
  let ui := base +:+ "/ui/"
            +:+ (if version2Flag (get p "version") then "1.1"
                 else to_str (get p "uiVersion"))
            +:+ "/main-async.js" in
  let loca := base +:+ "/loca?key=" +:+ to_str (get p "appKey")
              +:+ "&v=" +:+ to_str (get p "locaVersion") in
  ∃ this1 w1 this2 w2,
    AMap.run isShallowEqual version2Flag [AMap.Mount] (AMap.constructor p w) = Ok this1 w1
    ∧ head w1 = head w ++ [{| src := maps; lib := LibAMap; loaded := false |}]
    ∧ windowAMap w1 = false
    ∧ AMap.run isShallowEqual version2Flag [AMap.Onload (length (head w))] (Ok this1 w1)
      = Ok this2 w2
    ∧ head w2 = head w ++ [{| src := maps; lib := LibAMap; loaded := true |};
                           {| src := ui; lib := LibUI; loaded := false |};
                           {| src := loca; lib := LibLoca; loaded := false |}]
    ∧ windowAMap w2 = true
    ∧ trace w2 = trace w ++ [ERender (Container false)]
    ∧ AMap.this_map this2 = VUndefined.
Proof.
  intros Hw base maps ui loca.
  destruct (constructor_without_SDK p w Hw)
    as (this0 & Hc & Hp & Hst & Hpc & Hd & Hm & Hsm & _).
  pose proof (mount_without_SDK isShallowEqual version2Flag this0 w Hst Hd Hsm Hw) as Hmount.
  cbv zeta in Hmount. rewrite Hp in Hmount. fold base in Hmount. fold maps in Hmount.
  eexists _, _. eexists _, _. rewrite Hc. unfold AMap.run. cbn [foldl AMap.step].
  split; [exact Hmount|]. split; [reflexivity|]. split; [exact Hw|].
  split.
  { eapply (onload_of_the_SDK isShallowEqual version2Flag _ _ (length (head w))
              {| src := maps; lib := LibAMap; loaded := false |});
      [reflexivity|exact Hd| |reflexivity|reflexivity].
    fields. apply lookup_snoc. }
  cbv zeta. fields. rewrite Hp. fold base. fold ui. fold loca.
  split.
  { rewrite insert_app_r_alt by lia. rewrite Nat.sub_diag. cbn [insert list_insert].
    by rewrite <- app_assoc. }
  split; [reflexivity|]. split; [reflexivity|exact Hm].
Qed.

Lemma scripts_witness :
  ∃ this2 w2,
    AMap.run Utils.isShallowEqual Utils.version2Flag [AMap.Mount; AMap.Onload 0]
      (AMap.constructor (<["version" := VStr "2.0"]> Example.map_props) (Example.page false))
    = Ok this2 w2
    ∧ head w2 = [{| src := "https://webapi.amap.com/maps?v=2.0&key=key";
                    lib := LibAMap; loaded := true |};
                 {| src := "https://webapi.amap.com/ui/1.1/main-async.js";
                    lib := LibUI; loaded := false |};
                 {| src := "https://webapi.amap.com/loca?key=key&v=1.0.5";
                    lib := LibLoca; loaded := false |}].
Proof.
  destruct (scripts_and_their_URLs Utils.isShallowEqual Utils.version2Flag
              (<["version" := VStr "2.0"]> Example.map_props) (Example.page false) eq_refl)
    as (this1 & w1 & this2 & w2 & Hrun1 & _ & _ & Hrun2 & Hh & _).
  exists this2, w2. split; [|exact Hh].
  unfold AMap.run in *. cbn [foldl AMap.step] in *.
  destruct (AMap.constructor _ _) as [this0 w0|]; [|discriminate Hrun1].
  cbn [AMap.step] in Hrun1 |- *. rewrite Hrun1. exact Hrun2.
Defined.

(** ** The listeners and [destroy] over the life of a map *)

Lemma destroys_app t1 t2 : destroys (t1 ++ t2) = (destroys t1 + destroys t2)%nat.
Proof.
  induction t1 as [|e t1 IH]; [done|]. destruct e; cbn [app destroys]; rewrite IH; lia.
Qed.

Lemma destroys_none t :
  Forall (λ e, match e with ECall _ method _ => method ≠ "destroy" | _ => True end) t →
  destroys t = 0%nat.
Proof.
  induction 1 as [|e t He _ IH]; [done|]. destruct e; cbn [destroys]; try exact IH.
  by rewrite decide_False, IH.
Qed.

Lemma destroys_on m l : destroys (onCall m <$> l) = 0%nat.
Proof. apply destroys_none, Forall_fmap, Forall_forall. by intros x _. Qed.

Lemma destroys_off m l : destroys (offCall m <$> l) = 0%nat.
Proof. apply destroys_none, Forall_fmap, Forall_forall. by intros x _. Qed.

Lemma destroys_update m t : Forall (update_event m) t → destroys t = 0%nat.
Proof.
  intros H. apply destroys_none. eapply Forall_impl; [exact H|].
  intros [c args a|a api args| | | |]; cbn [update_event]; try done.
  destruct args as [|? [|]]; try done. intros [_ Hin] ->.
  by apply destroy_not_a_setter.
Qed.

Lemma destroys_quiet t : Forall quiet t → destroys t = 0%nat.
Proof.
  intros H. apply destroys_none. eapply Forall_impl; [exact H|].
  intros [c args a|a api args| | | |]; cbn [quiet]; try done. by intros ->.
Qed.

Lemma destroys_new t : Forall is_new t → destroys t = 0%nat.
Proof.
  intros H. apply destroys_none. eapply Forall_impl; [exact H|]. by intros [].
Qed.

(** The end of [initAMap] and the render it makes due, with the listeners
    it registers. *)
Lemma build_ledger isEq this w :
  windowAMap w = true → AMap.status this ≠ AMap.Created → unbuilt this →
  AMap.dirty this = false →
  ∃ this' w' tb m l,
    (AMap.createMap this ≫= AMap.flush isEq) w = Ok this' w'
    ∧ AMap.this_map this' = VRef m ∧ AMap.AMapEventListeners this' = Some l
    ∧ AMap.status this' = AMap.status this
    ∧ AMap.state_map this'
      = (if decide (AMap.status this = AMap.Unmounted) then VUndefined else VRef m)
    ∧ registry w' = registry w ++ (pair m <$> l)
    ∧ trace w' = trace w ++ tb ∧ destroys tb = 0%nat.
Proof.
  intros Hw Hst (_ & Hsm & _) Hd.
  destruct (createMap_run this w Hw) as (cbs & h' & _ & _ & Hrun). cbv zeta in Hrun.
  set (m := S (length (heap w))) in *. set (l := bound cbs AMap.eventKeys) in *.
  rewrite (bind_ok _ _ _ _ _ Hrun). clear Hrun.
  destruct (AMap.status this) eqn:Hs; [done| |].
  - unfold AMap.flush. fields. cbv zeta.
    rewrite (render_built _ m) by reflexivity.
    erewrite bind_ok by reflexivity.
    match goal with
    | |- context [AMap.componentDidUpdate isEq ?c ?w1] =>
        destruct (proj1 (runs_ok _ _ _) (componentDidUpdate_trace isEq c m w1 eq_refl))
          as (this' & w' & Hcdu & w2 & news & _ & Hthis & Hg & Ht & Hn & ->)
    end.
    exists this'. eexists. 
    exists (ENew CMap [AMap.mapContainer this; VRef (length (heap w))] m
            :: (onCall m <$> l) ++ ESetState (VRef m) :: ERender (Container true)
            :: news ++ flat_map (map_patch isEq (heap w2) m
                                   (AMap.mapOptions
                                      (AMap.with_dirty false
                                         (AMap.with_pc AMap.Returned
                                            (AMap.with_state_map (VRef m) true
                                               (AMap.with_events (Some cbs) (Some l)
                                                  (AMap.with_this_map (VRef m) this))))))
                                   (AMap.mapOptions this')) AMap.setters), m, l.
    split; [exact Hcdu|].
    split; [by rewrite Hthis|]. split; [by rewrite Hthis|].
    split; [rewrite Hthis; fields; by rewrite Hs|].
    split; [by rewrite Hthis|].
    destruct Hg as (_ & _ & _ & Hr & _). fields.
    split; [exact Hr|]. rewrite Ht. split.
    { rewrite <- !app_assoc. cbn [app]. rewrite <- !app_assoc. reflexivity. }
    cbn [destroys]. rewrite destroys_app, destroys_on. cbn [destroys].
    rewrite destroys_app.
    rewrite (destroys_new news Hn), (destroys_update m) by apply map_patch_events.
    done.
  - rewrite flush_clean by exact Hd.
    eexists _, _, _, m, l. split; [reflexivity|]. fields. rewrite Hs.
    split; [done|]. split; [done|]. split; [done|]. split; [exact Hsm|].
    split; [done|]. split; [reflexivity|].
    cbn [destroys]. by rewrite destroys_app, destroys_on.
Qed.

Lemma invariant_shape w0 evs this w : invariant w0 evs this w → shape this (windowAMap w).
Proof.
  intros (Hd & _ & _ & t & _ & Hpc). split; [exact Hd|].
  destruct (AMap.pc this).
  - by destruct Hpc as (? & ? & _).
  - by destruct Hpc as (? & ? & _).
  - by destruct Hpc as (? & ? & _ & _ & _ & _ & ? & _).
  - by destruct Hpc as (? & ? & _ & _ & _ & ? & _).
  - destruct Hpc as (? & (m & cbs & ? & ? & ? & ? & Hm & _ & Hl & _ & _ & _ & _ & Hs) & ? & _).
    split; [done|]. split; [done|]. by exists m, (bound cbs AMap.eventKeys).
  - done.
Qed.

Lemma ledger_world w0 this w w1 :
  trace w1 = trace w → registry w1 = registry w → ledger w0 this w → ledger w0 this w1.
Proof. intros Ht Hr (t & H). exists t. by rewrite Ht, Hr. Qed.

(** A step that changes neither the listeners recorded, nor the map, nor
    whether the map was destroyed, nor the listeners of the SDK, and makes
    no [destroy()] call. *)
Lemma ledger_keep w0 this w this' w' d :
  ledger w0 this w →
  AMap.AMapEventListeners this' = AMap.AMapEventListeners this →
  AMap.this_map this' = AMap.this_map this →
  (torn_down this' ↔ torn_down this) →
  registry w' = registry w → trace w' = trace w ++ d → destroys d = 0%nat →
  ledger w0 this' w'.
Proof.
  intros (t & Ht & H) Hl Hm Htd Hr Htr Hd. exists (t ++ d).
  split; [by rewrite Htr, Ht, app_assoc|].
  rewrite Hl, Hr, destroys_app, Hd, Nat.add_0_r.
  destruct (AMap.AMapEventListeners this) as [l|].
  - destruct H as (m & Hm' & H). exists m. split; [congruence|].
    destruct (decide (torn_down this)) as [Ht1|Ht1].
    + by rewrite decide_True by (by apply Htd).
    + by rewrite decide_False by (by rewrite Htd).
  - destruct H as (Hn & H). split; [by rewrite Htd|exact H].
Qed.

Lemma ledger_same w0 this w this' w' d :
  ledger w0 this w →
  AMap.AMapEventListeners this' = AMap.AMapEventListeners this →
  AMap.this_map this' = AMap.this_map this →
  AMap.state_map this' = AMap.state_map this →
  AMap.status this' = AMap.status this →
  registry w' = registry w → trace w' = trace w ++ d → destroys d = 0%nat →
  ledger w0 this' w'.
Proof.
  intros H Hl Hm Hs Hst. apply (ledger_keep w0 this w); try done.
  unfold torn_down. by rewrite Hs, Hst.
Qed.

(** The step that builds the map. *)
Lemma ledger_built isEq w0 this w this' w' d :
  ledger w0 this w → windowAMap w' = true →
  AMap.status this ≠ AMap.Created → unbuilt this → AMap.dirty this = false →
  registry w' = registry w → trace w' = trace w ++ d → destroys d = 0%nat →
  ∀ w'', (AMap.createMap this ≫= AMap.flush isEq) w' = Ok this' w'' →
         ledger w0 this' w''.
Proof.
  intros (t & Ht & H) Hw Hst Hub Hd Hr Htr Hdd w'' Hrun.
  destruct (build_ledger isEq this w' Hw Hst Hub Hd)
    as (this2 & w2 & tb & m & l & Hrun2 & Hm & Hl & Hst2 & Hsm & Hr2 & Ht2 & Hd2).
  rewrite Hrun in Hrun2. injection Hrun2 as <- <-.
  destruct Hub as (_ & _ & Hnone). rewrite Hnone in H. destruct H as (_ & Hreg & Hdes).
  exists (t ++ d ++ tb). split; [by rewrite Ht2, Htr, Ht, <- !app_assoc|].
  rewrite Hl. exists m. split; [exact Hm|].
  rewrite decide_False.
  - rewrite Hr2, Hr, Hreg, !destroys_app, Hdes, Hdd, Hd2. done.
  - intros [Hu Hs]. rewrite Hst2 in Hu. rewrite Hsm, decide_True in Hs by exact Hu. done.
Qed.

Lemma async_createMap isEq body this w w2 :
  body this w = AMap.createMap this w2 →
  (∃ a w3, (AMap.createMap this ≫= AMap.flush isEq) w2 = Ok a w3) →
  (AMap.async body this ≫= AMap.flush isEq) w
  = (AMap.createMap this ≫= AMap.flush isEq) w2.
Proof.
  intros Hb (a & w3 & (this1 & w4 & Hc & _)%bind_Ok_inv).
  rewrite (bind_ok _ _ _ _ _ (async_ok _ _ _ _ _ (eq_trans Hb Hc))).
  by rewrite (bind_ok _ _ _ _ _ Hc).
Qed.

Lemma resumeLoca_ledger isEq w0 this wpre w loca body d :
  ledger w0 this wpre → registry w = registry wpre → trace w = trace wpre ++ d →
  destroys d = 0%nat → windowAMap w = true →
  AMap.status this ≠ AMap.Created → unbuilt this → AMap.dirty this = false →
  body this wpre = AMap.resumeLoca loca this w →
  ∀ this' w', (AMap.async body this ≫= AMap.flush isEq) wpre = Ok this' w' →
              ledger w0 this' w'.
Proof.
  intros Hled Hr Ht Hd Hw Hst Hub Hdirty Hbody this' w' Hrun.
  destruct (AMap.resolved loca w) eqn:Hres.
  - rewrite resumeLoca_loaded in Hbody by exact Hres.
    rewrite (async_createMap isEq body this wpre w Hbody) in Hrun.
    + by eapply (ledger_built isEq w0 this wpre this' w d).
    + destruct (build_ledger isEq this w Hw Hst Hub Hdirty) as (a & w3 & _ & _ & _ & H & _).
      by exists a, w3.
  - rewrite resumeLoca_pending in Hbody by exact Hres.
    rewrite (bind_ok _ _ _ _ _ (async_ok _ _ _ _ _ Hbody)) in Hrun.
    rewrite flush_clean in Hrun by exact Hdirty. injection Hrun as <- <-.
    by apply (ledger_same w0 this wpre _ w d).
Qed.

Lemma resume_ledger isEq v2 w0 this w :
  shape this (windowAMap w) → ledger w0 this w →
  ∀ this' w', (AMap.async (AMap.resume v2) this ≫= AMap.flush isEq) w = Ok this' w' →
              ledger w0 this' w'.
Proof.
  intros [Hd Hsh] Hled this' w' Hrun.
  assert (∀ this1 w1, AMap.resume v2 this w = Ok this1 w1 →
            AMap.AMapEventListeners this1 = AMap.AMapEventListeners this →
            AMap.this_map this1 = AMap.this_map this →
            AMap.state_map this1 = AMap.state_map this →
            AMap.status this1 = AMap.status this → AMap.dirty this1 = false →
            registry w1 = registry w → trace w1 = trace w →
            ledger w0 this' w') as Hquiet.
  { intros this1 w1 Hres ? ? ? ? Hd1 ? Ht1.
    rewrite (bind_ok _ _ _ _ _ (async_ok _ _ _ _ _ Hres)) in Hrun.
    rewrite flush_clean in Hrun by exact Hd1. injection Hrun as <- <-.
    apply (ledger_same w0 this w this1 w1 []); try done. by rewrite app_nil_r. }
  destruct (AMap.pc this) as [|p|ui loca|loca| |e] eqn:Hpc.
  - by apply (Hquiet this w); [apply resume_idle; by left|..].
  - destruct (AMap.resolved p w) eqn:Hres.
    + destruct (resume_AwaitAMap_loaded v2 this p w Hpc Hres) as (s1 & s2 & _ & _ & Heq).
      by eapply Hquiet; [exact Heq|..].
    + by apply (Hquiet this w); [by apply (resume_AwaitAMap_pending v2 this p)|..].
  - destruct Hsh as (Hst & Hub & Hw).
    destruct (AMap.resolved ui w) eqn:Hres.
    + eapply (resumeLoca_ledger isEq w0 this w (emit EInitAMapUI w) loca
                (AMap.resume v2) [EInitAMapUI]); try done.
      by apply (resume_AwaitAMapUI_loaded v2 this ui loca).
    + by apply (Hquiet this w); [by apply (resume_AwaitAMapUI_pending v2 this ui loca)|..].
  - destruct Hsh as (Hst & Hub & Hw).
    eapply (resumeLoca_ledger isEq w0 this w w loca (AMap.resume v2) []); try done.
    + by rewrite app_nil_r.
    + by apply (resume_AwaitLoca v2 this loca).
  - by apply (Hquiet this w); [apply resume_idle; by right|..].
  - done.
Qed.

Lemma handle_ledger isEq v2 w0 evs ev this w this' w' :
  invariant w0 evs this w → ledger w0 this w →
  AMap.handle isEq v2 ev this w = Ok this' w' → ledger w0 this' w'.
Proof.
  intros Hinv Hled Hh.
  pose proof (invariant_shape _ _ _ _ Hinv) as [Hd Hsh].
  destruct ev as [|p|tag|tag|]; cbn [AMap.handle] in Hh.
  - (* Mount *)
    destruct (AMap.status this) eqn:Hst; try (by injection Hh as <- <-).
    destruct (AMap.pc this) eqn:Hpc; try (by destruct Hsh as (? & _)); [|done].
    destruct Hsh as (_ & Hub).
    rewrite render_unbuilt in Hh by exact Hub.
    erewrite bind_ok in Hh by reflexivity. erewrite bind_ok in Hh by reflexivity.
    unfold AMap.componentDidMount in Hh.
    set (this1 := AMap.with_mapContainer _ _) in Hh.
    set (w2 := set_heap _ _) in Hh.
    assert (ledger w0 this1 w2) as Hled2.
    { apply (ledger_keep w0 this w this1 w2 [ERender (Container false)]); try done.
      unfold torn_down. subst this1. fields. rewrite Hst. by split; intros [? _]. }
    assert (unbuilt this1) as Hub1 by exact Hub.
    destruct (windowAMap w) eqn:Hw.
    + assert (AMap.initAMap this1 w2 = AMap.createMap this1 w2) as Hinit.
      { unfold AMap.initAMap. unfold get_world, mbind, M_bind.
        change (windowAMap w2) with (windowAMap w). by rewrite Hw. }
      change ((AMap.async AMap.initAMap this1 ≫= AMap.flush isEq) w2 = Ok this' w') in Hh.
      rewrite (async_createMap isEq AMap.initAMap this1 w2 w2 Hinit) in Hh.
      * eapply (ledger_built isEq w0 this1 w2 this' w2 []); try done.
        by rewrite app_nil_r.
      * destruct (build_ledger isEq this1 w2 Hw ltac:(done) Hub1 Hd)
          as (a & w3 & _ & _ & _ & H & _). by exists a, w3.
    + erewrite bind_ok in Hh.
      2:{ apply async_ok. unfold AMap.initAMap. unfold get_world, mbind, M_bind.
          change (windowAMap w2) with (windowAMap w). rewrite Hw. cbn [negb].
          unfold AMap.requireAMap, AMap.loadScript. reflexivity. }
      rewrite flush_clean in Hh by exact Hd. injection Hh as <- <-.
      apply (ledger_same w0 this1 w2 _ _ []); try done. by rewrite app_nil_r.
  - (* Update *)
    destruct (AMap.status this) eqn:Hst; try (by injection Hh as <- <-).
    destruct (AMap.pc this) eqn:Hpc.
    + by destruct Hsh as (? & _).
    + destruct Hsh as (_ & Hub). rewrite update_unbuilt in Hh by exact Hub.
      injection Hh as <- <-.
      by apply (ledger_same w0 this w _ _ [ERender (Container false)]).
    + destruct Hsh as (_ & Hub & _). rewrite update_unbuilt in Hh by exact Hub.
      injection Hh as <- <-.
      by apply (ledger_same w0 this w _ _ [ERender (Container false)]).
    + destruct Hsh as (_ & Hub & _). rewrite update_unbuilt in Hh by exact Hub.
      injection Hh as <- <-.
      by apply (ledger_same w0 this w _ _ [ERender (Container false)]).
    + destruct Hsh as (_ & _ & m & l & Hm & _).
      apply bind_Ok_inv in Hh as ([] & w1 & [= <-] & Hcdu).
      pose proof (componentDidUpdate_trace isEq (AMap.with_props p this) m
                    (emit (ERender (AMap.render (AMap.with_props p this))) w) Hm) as Hb.
      unfold runs in Hb. rewrite Hcdu in Hb.
      destruct Hb as (w2 & news & _ & Hthis & Hg & Ht & Hn & ->).
      destruct Hg as (_ & _ & _ & Hr & _).
      eapply (ledger_same w0 this w this' _
                (ERender (AMap.render (AMap.with_props p this)) :: news ++ _));
        [exact Hled|by rewrite Hthis|by rewrite Hthis|by rewrite Hthis|by rewrite Hthis
        |..].
      * exact Hr.
      * cbn [trace emits]. rewrite Ht. cbn [trace emit].
        rewrite <- !app_assoc. reflexivity.
      * cbn [destroys]. rewrite destroys_app, (destroys_new news Hn).
        by rewrite (destroys_update m) by apply map_patch_events.
    + done.
  - (* Onload *)
    destruct (AMap.fire_onload tag w) as [w1|] eqn:Hf; [|by injection Hh as <- <-].
    destruct (fire_onload_spec _ _ _ Hf) as (s & _ & _ & _ & Ht & _).
    eapply (resume_ledger isEq v2 w0 this w1); [| |exact Hh].
    + split; [exact Hd|]. destruct (AMap.pc this); try done.
      * destruct Hsh as (? & ? & Hw). split; [done|]. split; [done|].
        by apply (fire_onload_window _ _ _ Hf).
      * destruct Hsh as (? & ? & Hw). split; [done|]. split; [done|].
        by apply (fire_onload_window _ _ _ Hf).
      * destruct Hsh as (? & Hw & ?). split; [done|]. split; [|done].
        by apply (fire_onload_window _ _ _ Hf).
    + apply (ledger_world w0 this w w1); [exact Ht|by eapply fire_onload_registry|done].
  - by injection Hh as <- <-.
  - (* Unmount *)
    destruct (AMap.status this) eqn:Hst; try (by injection Hh as <- <-).
    destruct Hled as (t & Ht & Hled).
    assert (unbuilt this → ledger w0 this' w') as Hcase.
    { intros Hub. pose proof Hub as (_ & Hsm & Hnone).
      erewrite bind_ok in Hh by (by apply componentWillUnmount_unbuilt).
      injection Hh as <- <-. exists t. split; [exact Ht|]. fields.
      rewrite Hnone in Hled |- *. destruct Hled as (_ & Hled).
      split; [|exact Hled]. intros [_ H]. by apply H. }
    destruct (AMap.pc this) eqn:Hpc.
    + by destruct Hsh as (? & _).
    + apply Hcase, Hsh.
    + apply Hcase, Hsh.
    + apply Hcase, Hsh.
    + destruct Hsh as (_ & _ & m & l & Hm & Hl & Hsm). specialize (Hsm eq_refl).
      erewrite bind_ok in Hh by (by apply (componentWillUnmount_built this m l)).
      injection Hh as <- <-. rewrite Hl in Hled.
      destruct Hled as (m' & Hm' & Hled).
      rewrite decide_False in Hled by (intros [? _]; congruence).
      destruct Hled as [Hr Hdes].
      exists (t ++ (offCall m <$> l) ++ [ECall m "destroy" []]).
      fields. split; [by rewrite Ht, <- app_assoc|].
      rewrite Hl. exists m. split; [exact Hm|].
      rewrite decide_True
        by (unfold torn_down; cbn [AMap.state_map AMap.status AMap.with_status];
            by rewrite Hsm).
      split.
      * apply remove_all_perm. rewrite Hr.
        assert (m' = m) as -> by congruence. apply Permutation_app_comm.
      * rewrite !destroys_app, Hdes, destroys_off. cbn [destroys].
        by rewrite decide_True.
    + done.
Qed.

Lemma run_ledger isEq v2 w0 evs : ∀ evs0 this w,
  invariant w0 evs0 this w → ledger w0 this w →
  ∃ this' w',
    AMap.run isEq v2 evs (Ok this w) = Ok this' w'
    ∧ invariant w0 (evs0 ++ evs) this' w' ∧ ledger w0 this' w'.
Proof.
  induction evs as [|ev evs IH]; intros evs0 this w Hinv Hled.
  - exists this, w. by rewrite app_nil_r.
  - destruct (handle_invariant isEq v2 w0 evs0 ev this w Hinv) as (this1 & w1 & Hh & Hinv1 & _).
    pose proof (handle_ledger isEq v2 w0 evs0 ev this w this1 w1 Hinv Hled Hh) as Hled1.
    destruct (IH _ this1 w1 Hinv1 Hled1) as (this' & w' & Hrun & Hinv' & Hled').
    exists this', w'. unfold AMap.run in *. cbn [foldl AMap.step]. rewrite Hh.
    split; [exact Hrun|]. split; [by rewrite <- app_assoc in Hinv'|exact Hled'].
Qed.

Lemma constructor_ledger p w :
  ∃ this0 w0 news,
    AMap.constructor p w = Ok this0 w0
    ∧ invariant w0 [] this0 w0 ∧ ledger w0 this0 w0
    ∧ trace w0 = trace w ++ news ∧ Forall is_new news ∧ registry w0 = registry w.
Proof.
  destruct (constructor_invariant p w) as (this0 & w0 & Hc & Hinv & _ & Hst & _).
  pose proof (parseMapOptions_spec p w) as Hp. unfold runs in Hp.
  unfold AMap.constructor in Hc. apply bind_Ok_inv in Hc as (o & w1 & Hpo & [= <- <-]).
  rewrite Hpo in Hp. destruct Hp as ((_ & _ & _ & Hr & news & Ht & Hn) & _).
  eexists _, w1, news. split; [unfold AMap.constructor; by rewrite (bind_ok _ _ _ _ _ Hpo)|].
  split; [exact Hinv|]. split; [|done].
  exists []. split; [by rewrite app_nil_r|]. fields.
  split; [|done]. by intros [? _].
Qed.

(** X13.  Whatever the events, [destroy()] is called at most once in the life of
    a component, and it has been called exactly when the component was
    unmounted with a map in its state. *)
Theorem destroy_at_most_once
    (isShallowEqual : list obj → value → value → bool) (version2Flag : value → bool)
    (p : gmap string value) (w : world) (evs : list AMap.event) :
  ∃ this w' t,
    AMap.run isShallowEqual version2Flag evs (AMap.constructor p w) = Ok this w'
    ∧ trace w' = trace w ++ t
    ∧ (destroys t ≤ 1)%nat
    ∧ (destroys t = 1%nat ↔ torn_down this).
Proof.
  destruct (constructor_ledger p w) as (this0 & w0 & news & Hc & Hinv0 & Hled0 & Ht0 & Hn & _).
  destruct (run_ledger isShallowEqual version2Flag w0 evs [] this0 w0 Hinv0 Hled0)
    as (this & w' & Hrun & _ & t & Ht & Hled).
  exists this, w', (news ++ t). rewrite Hc. split; [exact Hrun|].
  split; [by rewrite Ht, Ht0, app_assoc|].
  rewrite destroys_app, (destroys_new news Hn). cbn [Nat.add].
  destruct (AMap.AMapEventListeners this) as [l|].
  - destruct Hled as (m & _ & Hled).
    destruct (decide (torn_down this)) as [Htd|Htd]; destruct Hled as [_ ->].
    + split; [lia|done].
    + split; [lia|]. split; [done|]. intros ?. by destruct Htd.
  - destruct Hled as (Htd & _ & ->). split; [lia|]. split; [done|]. intros ?. by destruct Htd.
Qed.

(** X14.  The listeners of the SDK over the life of a component: as long as the
    component has no map they are those there were; once it has built its
    map they are those and the 26 listeners recorded, bound on the map;
    and when the component was unmounted with the map in its state they
    are, up to their order, those there were before: every listener the
    component bound has been removed. *)
Theorem listeners_over_a_life
    (isShallowEqual : list obj → value → value → bool) (version2Flag : value → bool)
    (p : gmap string value) (w : world) (evs : list AMap.event) :
  ∃ this w',
    AMap.run isShallowEqual version2Flag evs (AMap.constructor p w) = Ok this w'
    ∧ (AMap.this_map this = VUndefined → registry w' = registry w)
    ∧ (∀ m, AMap.this_map this = VRef m →
         ∃ l, AMap.AMapEventListeners this = Some l ∧ length l = 26%nat
              ∧ (torn_down this → registry w' ≡ₚ registry w)
              ∧ (¬ torn_down this → registry w' = registry w ++ (pair m <$> l))).
Proof.
  destruct (constructor_ledger p w) as (this0 & w0 & news & Hc & Hinv0 & Hled0 & _ & _ & Hr0).
  destruct (run_ledger isShallowEqual version2Flag w0 evs [] this0 w0 Hinv0 Hled0)
    as (this & w' & Hrun & Hinv & t & Ht & Hled).
  exists this, w'. rewrite Hc. split; [exact Hrun|]. rewrite <- Hr0.
  destruct Hinv as (_ & _ & _ & t' & _ & Hpc).
  split.
  - intros Hm. destruct (AMap.AMapEventListeners this) as [l|].
    + destruct Hled as (m & ? & _). congruence.
    + by destruct Hled as (_ & ? & _).
  - intros m Hm. destruct (AMap.pc this);
      try (destruct Hpc as (_ & (Hu & _) & _); congruence).
    + destruct Hpc as (_ & (m' & cbs & ? & ? & ? & ? & Hm' & _ & Hl & _) & _).
      rewrite Hl in Hled. destruct Hled as (m'' & Hm'' & Hled).
      assert (m'' = m) as -> by congruence.
      exists (bound cbs AMap.eventKeys). split; [exact Hl|].
      split; [unfold bound; by rewrite length_fmap|].
      destruct (decide (torn_down this)) as [Htd|Htd]; destruct Hled as [Hr _].
      * split; [done|]. intros H. by destruct H.
      * split; [|done]. intros H. by destruct Htd.
    + done.
Qed.

Lemma destroy_at_most_once_witness :
  ∃ this w',
    AMap.run Utils.isShallowEqual Utils.version2Flag
      [AMap.Mount; AMap.Onload 0; AMap.Onload 1; AMap.Onload 2; AMap.Unmount;
       AMap.Unmount; AMap.Update Example.map_props]
      (AMap.constructor Example.map_props (Example.page false)) = Ok this w'
    ∧ destroys (trace w') = 1%nat.
Proof.
  set (evs := [AMap.Mount; AMap.Onload 0; AMap.Onload 1; AMap.Onload 2; AMap.Unmount;
               AMap.Unmount; AMap.Update Example.map_props]).
  destruct (destroy_at_most_once Utils.isShallowEqual Utils.version2Flag Example.map_props
              (Example.page false) evs) as (this & w' & t & Hrun & Ht & _ & Hiff).
  assert (returned
            (AMap.run Utils.isShallowEqual Utils.version2Flag evs
               (AMap.constructor Example.map_props (Example.page false)))
            (λ this _, bool_decide (torn_down this) = true)) as H
    by (vm_compute; reflexivity).
  rewrite Hrun in H. cbn [returned] in H. apply bool_decide_eq_true in H.
  exists this, w'. split; [exact Hrun|]. rewrite Ht. by apply Hiff.
Defined.

Lemma listeners_over_a_life_witness :
  ∃ this w',
    AMap.run Utils.isShallowEqual Utils.version2Flag
      [AMap.Mount; AMap.Onload 0; AMap.Onload 1; AMap.Onload 2; AMap.Unmount]
      (AMap.constructor Example.map_props (Example.page false)) = Ok this w'
    ∧ registry w' = [].
Proof.
  set (evs := [AMap.Mount; AMap.Onload 0; AMap.Onload 1; AMap.Onload 2; AMap.Unmount]).
  destruct (listeners_over_a_life Utils.isShallowEqual Utils.version2Flag Example.map_props
              (Example.page false) evs) as (this & w' & Hrun & _ & Hbuilt).
  assert (returned
            (AMap.run Utils.isShallowEqual Utils.version2Flag evs
               (AMap.constructor Example.map_props (Example.page false)))
            (λ this _, AMap.this_map this = VRef 12%nat
                       ∧ bool_decide (torn_down this) = true)) as H
    by (vm_compute; split; reflexivity).
  rewrite Hrun in H. cbn [returned] in H. destruct H as [Hm Htd%bool_decide_eq_true].
  destruct (Hbuilt _ Hm) as (l & _ & _ & Hperm & _).
  exists this, w'. split; [exact Hrun|]. by apply Permutation_nil_r, Hperm.
Defined.

(** ** After the unmount *)

Lemma handle_spent isEq v2 ev this w :
  AMap.status this = AMap.Unmounted → AMap.pc this = AMap.Returned →
  AMap.dirty this = false →
  ∃ w', AMap.handle isEq v2 ev this w = Ok this w'
        ∧ trace w' = trace w ∧ registry w' = registry w ∧ heap w' = heap w.
Proof.
  intros Hst Hpc Hd. destruct ev as [|p|tag|tag|]; cbn [AMap.handle]; rewrite ?Hst;
    try (by exists w).
  destruct (AMap.fire_onload tag w) as [w1|] eqn:Hf; [|by exists w].
  exists w1.
  erewrite bind_ok by (apply async_ok, resume_idle; by right).
  rewrite flush_clean by exact Hd. split; [reflexivity|].
  destruct (fire_onload_spec _ _ _ Hf) as (s & _ & _ & Hh & Ht & _).
  split; [exact Ht|]. split; [by eapply fire_onload_registry|exact Hh].
Qed.

(** X15.  A component that was unmounted and has built its map does nothing
    more: whatever events follow, it makes no call and no render, and it
    is left as it is. *)
Theorem nothing_after_the_unmount
    (isShallowEqual : list obj → value → value → bool) (version2Flag : value → bool)
    (p : gmap string value) (w : world) (evs1 evs2 : list AMap.event) :
  ∃ this1 w1,
    AMap.run isShallowEqual version2Flag evs1 (AMap.constructor p w) = Ok this1 w1
    ∧ (AMap.status this1 = AMap.Unmounted → AMap.this_map this1 ≠ VUndefined →
       ∃ w2, AMap.run isShallowEqual version2Flag evs2 (Ok this1 w1) = Ok this1 w2
             ∧ trace w2 = trace w1 ∧ registry w2 = registry w1 ∧ heap w2 = heap w1).
Proof.
  destruct (constructor_invariant p w) as (this0 & w0 & Hc & Hinv0 & _).
  destruct (run_invariant isShallowEqual version2Flag w0 evs1 [] this0 w0 Hinv0)
    as (this1 & w1 & Hrun1 & Hinv1 & _).
  exists this1, w1. rewrite Hc. split; [exact Hrun1|].
  intros Hst Hm. destruct Hinv1 as (Hd & _ & _ & t & _ & Hpc).
  assert (AMap.pc this1 = AMap.Returned) as Hp.
  { destruct (AMap.pc this1); try done;
      by destruct Hpc as (_ & (? & _) & _). }
  clear Hpc Hrun1. revert w1. induction evs2 as [|ev evs2 IH]; intros w1.
  - by exists w1.
  - destruct (handle_spent isShallowEqual version2Flag ev this1 w1 Hst Hp Hd)
      as (w1' & Hh & Ht1 & Hr1 & Hh1).
    destruct (IH w1') as (w2 & Hrun & Ht2 & Hr2 & Hh2).
    exists w2. unfold AMap.run in *. cbn [foldl AMap.step]. rewrite Hh.
    split; [exact Hrun|]. split; [congruence|]. split; congruence.
Qed.

Lemma nothing_after_the_unmount_witness :
  ∃ this1 w1 w2,
    AMap.run Utils.isShallowEqual Utils.version2Flag [AMap.Mount; AMap.Unmount]
      (AMap.constructor Example.map_props (Example.page true)) = Ok this1 w1
    ∧ AMap.run Utils.isShallowEqual Utils.version2Flag
        [AMap.Update Example.loader_props; AMap.Mount; AMap.Unmount] (Ok this1 w1)
      = Ok this1 w2
    ∧ trace w2 = trace w1.
Proof.
  destruct (nothing_after_the_unmount Utils.isShallowEqual Utils.version2Flag
              Example.map_props (Example.page true) [AMap.Mount; AMap.Unmount]
              [AMap.Update Example.loader_props; AMap.Mount; AMap.Unmount])
    as (this1 & w1 & Hrun1 & H).
  assert (returned
            (AMap.run Utils.isShallowEqual Utils.version2Flag [AMap.Mount; AMap.Unmount]
               (AMap.constructor Example.map_props (Example.page true)))
            (λ this _, AMap.status this = AMap.Unmounted
                       ∧ bool_decide (AMap.this_map this ≠ VUndefined) = true)) as H1
    by (vm_compute; split; reflexivity).
  rewrite Hrun1 in H1. cbn [returned] in H1. destruct H1 as [Hst Hm%bool_decide_eq_true].
  destruct (H Hst Hm) as (w2 & Hrun2 & Ht & _).
  exists this1, w1, w2. split; [exact Hrun1|]. split; [exact Hrun2|exact Ht].
Defined.

(** ** Constructing a marker *)

Lemma initMarker_registry this map w :
  windowAMap w = true →
  runs (Marker.initMarker this map) w (λ _ w', registry w' = registry w).
Proof.
  intros Hw. unfold Marker.initMarker. cbv zeta.
  apply runs_bind. eapply runs_mono; [apply cloneDeep_frame|].
  intros f w1 [h ->]. apply runs_bind, runs_alloc, runs_bind, runs_new; [exact Hw|].
  apply runs_bind, runs_call. rewrite sdk_effect_single. apply runs_bind.
  destruct (decide (get (Marker.props this) "visible" = VBool false)).
  - apply runs_call. rewrite sdk_effect_none. by apply runs_ret.
  - by apply runs_ret, runs_ret.
Qed.

(** X16.  Inside a map, with the SDK loaded, the constructor of a marker does,
    in this order: it parses the options, which only constructs SDK value
    objects; it constructs the [AMap.Marker] and calls [setMap(map)] on
    it, then [hide()] exactly when the [visible] prop is [false]; it binds
    its 17 listeners and records them; and it calls [onComplete(map,
    marker)] exactly when that prop is a function.  Nothing else is
    called. *)
Theorem marker_constructor_sequence (p : gmap string value) (map : value) (w : world) :
  Utils.breakIfNotChildOfAMap map w = Ok tt w →
  windowAMap w = true →
  sourced (length (heap w)) (heap w) (get p "position") →
  runs (Marker.constructor p map) w (λ this w',
    ∃ mk options l news,
      Marker.marker this = VRef mk ∧ Marker.props this = p ∧ Marker.context this = map
      ∧ Marker.AMapEventListeners this = Some l ∧ length l = 17%nat
      ∧ Forall is_new news
      ∧ trace w' = trace w ++ news
          ++ [ENew CMarker [options] mk; ECall mk "setMap" [map]]
          ++ (if decide (get p "visible" = VBool false) then [ECall mk "hide" []] else [])
          ++ (onCall mk <$> l)
          ++ (if is_function (heap w') (get p "onComplete")
              then [EUserCall (get p "onComplete") [map; VRef mk]] else [])
      ∧ registry w' = registry w ++ (pair mk <$> l)).
Proof.
  intros Hbreak Hw Hsrc. unfold Marker.constructor. cbv zeta.
  unfold runs. rewrite (bind_ok _ _ _ _ _ Hbreak). fold (runs (A := Marker.component)).
  apply runs_bind. eapply runs_mono; [by apply parse_keeps_position|].
  intros o w1 (Hg1 & Hpos). cbv beta.
  pose proof Hg1 as (_ & Hw1 & _ & Hr1 & news & Ht1 & Hn1).
  set (this0 := {| Marker.props := p; Marker.context := map; Marker.markerOptions := o;
                   Marker.marker := VUndefined; Marker.AMapEventListeners := None |}).
  apply runs_bind. eapply runs_mono.
  { apply runs_and; [apply initMarker_spec|apply initMarker_registry]; [congruence| |congruence].
    cbn [Marker.markerOptions this0]. rewrite Hpos.
    eapply sourced_weaken; [apply (grows_length _ _ Hg1)|].
    by apply (sourced_grows _ w). }
  intros mk0 w2 [(w1' & f & Hg2 & _ & Hh2 & -> & Ht2 & _) Hr2]. cbv beta in *.
  set (mk := S (length (heap w1'))) in *.
  destruct (marker_bindEvents_run (Marker.with_marker (VRef mk) this0) mk w2 eq_refl)
    as (cbs & h' & _ & _ & Hb).
  apply runs_bind. unfold runs at 1. rewrite Hb.
  apply runs_bind, runs_get_world.
  set (l := bound cbs Marker.eventKeys).
  set (w3 := emits _ _).
  assert (trace w3 = trace w ++ news
            ++ [ENew CMarker [VRef (length (heap w1'))] mk; ECall mk "setMap" [map]]
            ++ (if decide (get p "visible" = VBool false) then [ECall mk "hide" []] else [])
            ++ (onCall mk <$> l)) as Ht3.
  { subst w3. cbn [trace emits set_registry set_heap]. rewrite Ht2, Ht1.
    rewrite <- !app_assoc. reflexivity. }
  assert (registry w3 = registry w ++ (pair mk <$> l)) as Hr3.
  { subst w3. cbn [registry emits set_registry]. by rewrite Hr2, Hr1. }
  assert (length l = 17%nat) as Hl by (unfold l, bound; by rewrite length_fmap).
  destruct (is_function (heap w3) (get p "onComplete")) eqn:Hf.
  - apply runs_bind, runs_modify, runs_ret.
    exists mk, (VRef (length (heap w1'))), l, news.
    cbn [heap trace registry emit]. rewrite Hf, Ht3, Hr3.
    split; [done|]. split; [done|]. split; [done|]. split; [done|]. split; [done|].
    split; [done|]. split; [|done]. by rewrite <- !app_assoc.
  - apply runs_bind, runs_ret, runs_ret.
    exists mk, (VRef (length (heap w1'))), l, news. rewrite Hf, Ht3, Hr3.
    split; [done|]. split; [done|]. split; [done|]. split; [done|]. split; [done|].
    split; [done|]. split; [|done]. by rewrite !app_nil_r.
Qed.

Lemma marker_constructor_witness :
  runs (Marker.constructor Example.marker_props (VRef 7%nat)) (Example.page true)
    (λ this w', ∃ mk, Marker.marker this = VRef mk ∧ length (registry w') = 17%nat).
Proof.
  eapply runs_mono;
    [exact (marker_constructor_sequence Example.marker_props (VRef 7%nat) (Example.page true)
              eq_refl eq_refl example_position_sourced)|].
  intros this w' (mk & options & l & news & Hm & _ & _ & _ & Hl & _ & _ & Hr).
  exists mk. split; [exact Hm|]. rewrite Hr. cbn [registry Example.page app].
  by rewrite length_fmap.
Defined.

(** ** A prop that is taken away *)

Lemma passed_keys_pass_through :
  Forall (λ s : string * string * string,
            (s.2 ∉ AMap.loaderKeys ++ AMap.eventKeys) ∧ s.2 ≠ "boundsProp")
         AMap.setters.
Proof. by apply (bool_decide_unpack _); vm_compute. Qed.

Lemma parsed_undefined p w o w' s :
  windowAMap w = true → s ∈ AMap.setters →
  AMap.parseMapOptions p w = Ok o w' →
  get p s.2 = VUndefined → get o s.1.2 = VUndefined ∧ get o s.2 = VUndefined.
Proof.
  intros Hw Hs Hp Hu.
  destruct (runs_inv _ _ _ _ _ (parseMapOptions_spec p w) Hp)
    as (_ & _ & Hother & Hbp & Hb & _).
  pose proof compared_keys_pass_through as Hk. rewrite Forall_forall in Hk.
  pose proof passed_keys_pass_through as Hk'. rewrite Forall_forall in Hk'.
  destruct (Hk _ Hs) as [Hn1 Hb1]. destruct (Hk' _ Hs) as [Hn2 Hb2].
  assert (s.1.2 = s.2 ∨ (s.1.2 = "boundsProp" ∧ s.2 = "bounds")) as Hkeys.
  { revert Hs. generalize s. apply Forall_forall.
    by apply (bool_decide_unpack _); vm_compute. }
  destruct Hkeys as [Heq|[H1 H2]].
  - rewrite Heq. assert (get o s.2 = VUndefined) as ->; [|done].
    unfold get. rewrite Hother; [exact Hu|done|congruence|done].
  - rewrite H1, H2 in *. unfold get at 1 2. rewrite Hbp, Hb, Hw, Hu. by split.
Qed.

(** X17.  Only [setCenter] is guarded against a value that is missing: once
    the map is built, when the prop behind any other setter is taken away
    and the value kept for it is not shallow-equal to [undefined], the
    update calls that setter with [undefined]. *)
Theorem a_removed_prop_reaches_its_setter
    (isShallowEqual : list obj → value → value → bool)
    (this : AMap.component) (m : addr) (w : world) (s : string * string * string) :
  AMap.this_map this = VRef m → windowAMap w = true →
  s ∈ AMap.setters → s.1.1 ≠ "setCenter" →
  get (AMap.props this) s.2 = VUndefined →
  (∀ h, isShallowEqual h (get (AMap.mapOptions this) s.1.2) VUndefined = false) →
  runs (AMap.componentDidUpdate isShallowEqual this) w (λ this' w',
    ∃ t, trace w' = trace w ++ t ∧ ECall m s.1.1 [VUndefined] ∈ t
         ∧ get (AMap.mapOptions this') s.1.2 = VUndefined).
Proof.
  intros Hm Hw Hs Hapi Hu Hne.
  eapply runs_mono; [by apply componentDidUpdate_trace|].
  intros this' w' (w1 & news & Hp & _ & _ & Ht & _ & ->).
  destruct (parsed_undefined _ _ _ _ s Hw Hs Hp Hu) as [Hc Hpass].
  eexists. split; [cbn [trace emits]; rewrite Ht, <- app_assoc; reflexivity|].
  split; [|exact Hc].
  apply elem_of_app. right. apply list_elem_of_In, in_flat_map.
  exists s. split; [by apply list_elem_of_In|]. apply list_elem_of_In.
  unfold map_patch. apply map_call_elem. rewrite Hc, Hpass.
  split; [done|]. split; [apply Hne|]. intros ?. by destruct Hapi.
Qed.

Lemma a_removed_prop_witness :
  runs (AMap.componentDidUpdate Utils.isShallowEqual
          (AMap.with_props Example.loader_props Example.amap)) (Example.page true)
    (λ _ w', ECall 7%nat "setZoom" [VUndefined] ∈ trace w').
Proof.
  assert (("setZoom", "zoom", "zoom") ∈ AMap.setters) as Hs
    by (by apply (bool_decide_unpack _); vm_compute).
  eapply runs_mono;
    [apply (a_removed_prop_reaches_its_setter Utils.isShallowEqual
              (AMap.with_props Example.loader_props Example.amap) 7%nat (Example.page true)
              ("setZoom", "zoom", "zoom") eq_refl eq_refl Hs);
       [discriminate|reflexivity|intros h; reflexivity]|].
  intros this' w' (t & Ht & Hin & _). rewrite Ht. apply elem_of_app. by right.
Defined.

(** ** The options the map is built with *)

Lemma createMap_options this w :
  windowAMap w = true →
  ∃ cbs h',
    (heap w ++ [Plain (AMap.mapOptions this)]) `prefix_of` h'
    ∧ let m := S (length (heap w)) in
      let l := bound cbs AMap.eventKeys in
      let built := AMap.with_events (Some cbs) (Some l) (AMap.with_this_map (VRef m) this) in
      AMap.createMap this w
      = Ok (AMap.with_pc AMap.Returned
              (match AMap.status this with
               | AMap.Unmounted => built
               | _ => AMap.with_state_map (VRef m) true built
               end))
           (emits (ENew CMap [AMap.mapContainer this; VRef (length (heap w))] m
                   :: (onCall m <$> l) ++ [ESetState (VRef m)])
              (set_registry (registry w ++ (pair m <$> l)) (set_heap h' w))).
Proof.
  intros Hw.
  set (m := S (length (heap w))).
  set (w2 := emit (ENew CMap [AMap.mapContainer this; VRef (length (heap w))] m)
               (set_heap ((heap w ++ [Plain (AMap.mapOptions this)])
                          ++ [Foreign CMap [AMap.mapContainer this;
                                            VRef (length (heap w))]]) w)).
  destruct (bindEvents_run (AMap.with_this_map (VRef m) this) m w2 eq_refl)
    as (cbs & h' & Hk & Hp & Hb).
  exists cbs, h'. split.
  { etrans; [|exact Hp]. subst w2. cbn [heap emit set_heap]. by apply prefix_app_r. }
  cbv zeta. unfold AMap.createMap.
  erewrite bind_ok by reflexivity.
  erewrite bind_ok.
  2:{ unfold new. cbn [windowAMap set_heap]. rewrite Hw. cbn [heap set_heap].
      rewrite length_app. cbn [length].
      replace (length (heap w) + 1)%nat with m by (subst m; lia). reflexivity. }
  fold w2. rewrite (bind_ok _ _ _ _ _ Hb).
  unfold AMap.setState. unfold_M.
  cbn [AMap.status AMap.with_events AMap.with_this_map AMap.this_map].
  f_equal.
  subst w2. unfold emits, emit, set_registry, set_heap.
  cbn [heap windowAMap head registry trace]. f_equal.
  rewrite <- !app_assoc. reflexivity.
Qed.

Lemma build_options isEq this w :
  windowAMap w = true → AMap.status this ≠ AMap.Created →
  AMap.dirty this = false →
  ∃ this' w' tb,
    (AMap.createMap this ≫= AMap.flush isEq) w = Ok this' w'
    ∧ AMap.this_map this' = VRef (S (length (heap w)))
    ∧ (heap w ++ [Plain (AMap.mapOptions this)]) `prefix_of` heap w'
    ∧ trace w' = trace w
        ++ ENew CMap [AMap.mapContainer this; VRef (length (heap w))] (S (length (heap w)))
        :: tb.
Proof.
  intros Hw Hst Hd.
  destruct (createMap_options this w Hw) as (cbs & h' & Hpre & Hrun). cbv zeta in Hrun.
  set (m := S (length (heap w))) in *. set (l := bound cbs AMap.eventKeys) in *.
  rewrite (bind_ok _ _ _ _ _ Hrun). clear Hrun.
  destruct (AMap.status this) eqn:Hs; [done| |].
  - unfold AMap.flush. fields. cbv zeta.
    rewrite (render_built _ m) by reflexivity.
    erewrite bind_ok by reflexivity.
    match goal with
    | |- context [AMap.componentDidUpdate isEq ?c ?w1] =>
        destruct (proj1 (runs_ok _ _ _) (componentDidUpdate_trace isEq c m w1 eq_refl))
          as (this' & w' & Hcdu & w2 & news & _ & Hthis & Hg & Ht & Hn & ->)
    end.
    exists this'. eexists. eexists. split; [exact Hcdu|].
    split; [by rewrite Hthis|]. destruct Hg as (Hh & _). fields.
    split; [by etrans|]. rewrite Ht. rewrite <- !app_assoc. cbn [app]. reflexivity.
  - rewrite flush_clean by exact Hd.
    eexists _, _, _. split; [reflexivity|]. fields.
    split; [done|]. split; [done|]. reflexivity.
Qed.

Lemma options_same this0 this w t this' w' d :
  from_constructor this0 this w t →
  AMap.this_map this' = AMap.this_map this →
  (AMap.this_map this = VUndefined → AMap.mapOptions this' = AMap.mapOptions this) →
  heap w `prefix_of` heap w' →
  from_constructor this0 this' w' (t ++ d).
Proof.
  intros [Hu Hb] Hm Ho Hh. split.
  - intros H. rewrite Hm in H. rewrite (Ho H). by apply Hu.
  - intros m H. rewrite Hm in H. destruct (Hb m H) as (c & a & Hin & Ha).
    exists c, a. split; [apply elem_of_app; by left|].
    by apply (prefix_lookup_Some _ _ _ _ Ha).
Qed.

Lemma options_built isEq this0 this w t this1 w1 d this' w' :
  from_constructor this0 this w t →
  AMap.this_map this = VUndefined → AMap.mapOptions this1 = AMap.mapOptions this →
  trace w1 = trace w ++ d →
  windowAMap w1 = true → AMap.status this1 ≠ AMap.Created → AMap.dirty this1 = false →
  (AMap.createMap this1 ≫= AMap.flush isEq) w1 = Ok this' w' →
  ∃ d', trace w' = trace w ++ d' ∧ from_constructor this0 this' w' (t ++ d').
Proof.
  intros [Hu _] Hm Ho Ht Hw Hst Hd Hrun.
  destruct (build_options isEq this1 w1 Hw Hst Hd)
    as (this2 & w2 & tb & Hrun2 & Hm2 & Hh2 & Ht2).
  rewrite Hrun in Hrun2. injection Hrun2 as <- <-.
  eexists. split; [rewrite Ht2, Ht, <- app_assoc; reflexivity|].
  split; [intros H; congruence|].
  intros m H. rewrite Hm2 in H. injection H as <-.
  exists (AMap.mapContainer this1), (length (heap w1)). split.
  - apply elem_of_app. right. apply elem_of_app. right. by left.
  - rewrite <- (Hu Hm), <- Ho. apply (prefix_lookup_Some _ _ _ _ (lookup_snoc _ _) Hh2).
Qed.

Lemma resumeLoca_options isEq this0 this wpre t w loca body d :
  from_constructor this0 this wpre t → AMap.this_map this = VUndefined →
  heap wpre `prefix_of` heap w → trace w = trace wpre ++ d →
  windowAMap w = true →
  AMap.status this ≠ AMap.Created → AMap.dirty this = false →
  body this wpre = AMap.resumeLoca loca this w →
  ∀ this' w', (AMap.async body this ≫= AMap.flush isEq) wpre = Ok this' w' →
    ∃ d', trace w' = trace wpre ++ d' ∧ from_constructor this0 this' w' (t ++ d').
Proof.
  intros Hfc Hm Hh Ht Hw Hst Hdirty Hbody this' w' Hrun.
  destruct (AMap.resolved loca w) eqn:Hres.
  - rewrite resumeLoca_loaded in Hbody by exact Hres.
    rewrite (async_createMap isEq body this wpre w Hbody) in Hrun.
    + by eapply (options_built isEq this0 this wpre t this w d).
    + destruct (build_options isEq this w Hw Hst Hdirty) as (a & w3 & _ & H & _).
      by exists a, w3.
  - rewrite resumeLoca_pending in Hbody by exact Hres.
    rewrite (bind_ok _ _ _ _ _ (async_ok _ _ _ _ _ Hbody)) in Hrun.
    rewrite flush_clean in Hrun by exact Hdirty. injection Hrun as <- <-.
    exists d. split; [exact Ht|]. by apply (options_same this0 this wpre).
Qed.

Lemma resume_options isEq v2 this0 this w t :
  shape this (windowAMap w) → from_constructor this0 this w t →
  ∀ this' w', (AMap.async (AMap.resume v2) this ≫= AMap.flush isEq) w = Ok this' w' →
    ∃ d, trace w' = trace w ++ d ∧ from_constructor this0 this' w' (t ++ d).
Proof.
  intros [Hd Hsh] Hfc this' w' Hrun.
  assert (∀ this1 w1, AMap.resume v2 this w = Ok this1 w1 →
            AMap.this_map this1 = AMap.this_map this →
            AMap.mapOptions this1 = AMap.mapOptions this →
            AMap.dirty this1 = false →
            heap w1 = heap w → trace w1 = trace w →
            ∃ d, trace w' = trace w ++ d ∧ from_constructor this0 this' w' (t ++ d))
    as Hquiet.
  { intros this1 w1 Hres Hm Ho Hd1 Hh Ht1.
    rewrite (bind_ok _ _ _ _ _ (async_ok _ _ _ _ _ Hres)) in Hrun.
    rewrite flush_clean in Hrun by exact Hd1. injection Hrun as <- <-.
    exists []. split; [by rewrite app_nil_r|].
    apply (options_same this0 this w); try done. by rewrite Hh. }
  destruct (AMap.pc this) as [|p|ui loca|loca| |e] eqn:Hpc.
  - by apply (Hquiet this w); [apply resume_idle; by left|..].
  - destruct (AMap.resolved p w) eqn:Hres.
    + destruct (resume_AwaitAMap_loaded v2 this p w Hpc Hres) as (s1 & s2 & _ & _ & Heq).
      by eapply Hquiet; [exact Heq|..].
    + by apply (Hquiet this w); [by apply (resume_AwaitAMap_pending v2 this p)|..].
  - destruct Hsh as (Hst & (Hm & _) & Hw).
    destruct (AMap.resolved ui w) eqn:Hres.
    + eapply (resumeLoca_options isEq this0 this w t (emit EInitAMapUI w) loca
                (AMap.resume v2) [EInitAMapUI]); try done.
      by apply (resume_AwaitAMapUI_loaded v2 this ui loca).
    + by apply (Hquiet this w); [by apply (resume_AwaitAMapUI_pending v2 this ui loca)|..].
  - destruct Hsh as (Hst & (Hm & _) & Hw).
    eapply (resumeLoca_options isEq this0 this w t w loca (AMap.resume v2) []); try done.
    + by rewrite app_nil_r.
    + by apply (resume_AwaitLoca v2 this loca).
  - by apply (Hquiet this w); [apply resume_idle; by right|..].
  - done.
Qed.

Lemma handle_options isEq v2 w0 evs this0 ev this w t this' w' :
  invariant w0 evs this w → from_constructor this0 this w t →
  AMap.handle isEq v2 ev this w = Ok this' w' →
  ∃ d, trace w' = trace w ++ d ∧ from_constructor this0 this' w' (t ++ d).
Proof.
  intros Hinv Hfc Hh.
  pose proof (invariant_shape _ _ _ _ Hinv) as [Hd Hsh].
  assert (∃ d, trace w = trace w ++ d ∧ from_constructor this0 this w (t ++ d)) as Hnone.
  { exists []. rewrite !app_nil_r. by split. }
  destruct ev as [|p|tag|tag|]; cbn [AMap.handle] in Hh.
  - (* Mount *)
    destruct (AMap.status this) eqn:Hst; try (by injection Hh as <- <-).
    destruct (AMap.pc this) eqn:Hpc; try (by destruct Hsh as (? & _)); [|done].
    destruct Hsh as (_ & Hub). pose proof Hub as (Hm & _).
    rewrite render_unbuilt in Hh by exact Hub.
    erewrite bind_ok in Hh by reflexivity. erewrite bind_ok in Hh by reflexivity.
    unfold AMap.componentDidMount in Hh.
    set (this1 := AMap.with_mapContainer _ _) in Hh.
    set (w2 := set_heap _ _) in Hh.
    destruct (windowAMap w) eqn:Hw.
    + assert (AMap.initAMap this1 w2 = AMap.createMap this1 w2) as Hinit.
      { unfold AMap.initAMap. unfold get_world, mbind, M_bind.
        change (windowAMap w2) with (windowAMap w). by rewrite Hw. }
      change ((AMap.async AMap.initAMap this1 ≫= AMap.flush isEq) w2 = Ok this' w') in Hh.
      rewrite (async_createMap isEq AMap.initAMap this1 w2 w2 Hinit) in Hh.
      * by eapply (options_built isEq this0 this w t this1 w2 [ERender (Container false)]).
      * destruct (build_options isEq this1 w2 Hw ltac:(done) Hd) as (a & w3 & _ & H & _).
        by exists a, w3.
    + erewrite bind_ok in Hh.
      2:{ apply async_ok. unfold AMap.initAMap. unfold get_world, mbind, M_bind.
          change (windowAMap w2) with (windowAMap w). rewrite Hw. cbn [negb].
          unfold AMap.requireAMap, AMap.loadScript. reflexivity. }
      rewrite flush_clean in Hh by exact Hd. injection Hh as <- <-.
      exists [ERender (Container false)]. split; [reflexivity|].
      apply (options_same this0 this w); try done.
      subst w2. fields. by apply prefix_app_r.
  - (* Update *)
    destruct (AMap.status this) eqn:Hst; try (by injection Hh as <- <-).
    assert (unbuilt this →
            ∃ d, trace w' = trace w ++ d ∧ from_constructor this0 this' w' (t ++ d))
      as Hcase.
    { intros Hub. rewrite update_unbuilt in Hh by exact Hub. injection Hh as <- <-.
      exists [ERender (Container false)]. split; [reflexivity|].
      by apply (options_same this0 this w). }
    destruct (AMap.pc this) eqn:Hpc.
    + by destruct Hsh as (? & _).
    + apply Hcase, Hsh.
    + apply Hcase, Hsh.
    + apply Hcase, Hsh.
    + destruct Hsh as (_ & _ & m & l & Hm & _).
      apply bind_Ok_inv in Hh as ([] & w1 & [= <-] & Hcdu).
      pose proof (componentDidUpdate_trace isEq (AMap.with_props p this) m
                    (emit (ERender (AMap.render (AMap.with_props p this))) w) Hm) as Hb.
      unfold runs in Hb. rewrite Hcdu in Hb.
      destruct Hb as (w2 & news & _ & Hthis & Hg & Ht & Hn & ->).
      destruct Hg as (Hhp & _).
      eexists. split.
      { cbn [trace emits]. rewrite Ht. cbn [trace emit]. rewrite <- !app_assoc.
        reflexivity. }
      apply (options_same this0 this w); [exact Hfc|by rewrite Hthis| |exact Hhp].
      intros H. congruence.
    + done.
  - (* Onload *)
    destruct (AMap.fire_onload tag w) as [w1|] eqn:Hf; [|by injection Hh as <- <-].
    destruct (fire_onload_spec _ _ _ Hf) as (s & _ & _ & Hheap & Ht & _).
    destruct (resume_options isEq v2 this0 this w1 t) with (this' := this') (w' := w')
      as (d & Htd & Hfc').
    + split; [exact Hd|]. destruct (AMap.pc this); try done.
      * destruct Hsh as (? & ? & Hw). split; [done|]. split; [done|].
        by apply (fire_onload_window _ _ _ Hf).
      * destruct Hsh as (? & ? & Hw). split; [done|]. split; [done|].
        by apply (fire_onload_window _ _ _ Hf).
      * destruct Hsh as (? & Hw & ?). split; [done|]. split; [|done].
        by apply (fire_onload_window _ _ _ Hf).
    + destruct Hfc as [Hu Hb]. split; [exact Hu|]. by rewrite Hheap.
    + exact Hh.
    + exists d. by rewrite Htd, Ht.
  - by injection Hh as <- <-.
  - (* Unmount *)
    destruct (AMap.status this) eqn:Hst; try (by injection Hh as <- <-).
    assert (unbuilt this →
            ∃ d, trace w' = trace w ++ d ∧ from_constructor this0 this' w' (t ++ d))
      as Hcase.
    { intros Hub. pose proof Hub as (_ & Hsm & _).
      erewrite bind_ok in Hh by (by apply componentWillUnmount_unbuilt).
      injection Hh as <- <-. exists []. split; [by rewrite app_nil_r|].
      by apply (options_same this0 this w). }
    destruct (AMap.pc this) eqn:Hpc.
    + by destruct Hsh as (? & _).
    + apply Hcase, Hsh.
    + apply Hcase, Hsh.
    + apply Hcase, Hsh.
    + destruct Hsh as (_ & _ & m & l & Hm & Hl & Hsm). specialize (Hsm eq_refl).
      erewrite bind_ok in Hh by (by apply (componentWillUnmount_built this m l)).
      injection Hh as <- <-. eexists. split; [reflexivity|].
      by apply (options_same this0 this w).
    + done.
Qed.

Lemma run_options isEq v2 w0 this0 evs : ∀ evs0 this w t,
  invariant w0 evs0 this w → trace w = trace w0 ++ t →
  from_constructor this0 this w t →
  ∃ this' w' t',
    AMap.run isEq v2 evs (Ok this w) = Ok this' w'
    ∧ invariant w0 (evs0 ++ evs) this' w'
    ∧ trace w' = trace w0 ++ t' ∧ from_constructor this0 this' w' t'.
Proof.
  induction evs as [|ev evs IH]; intros evs0 this w t Hinv Ht Hfc.
  - exists this, w, t. by rewrite app_nil_r.
  - destruct (handle_invariant isEq v2 w0 evs0 ev this w Hinv) as (this1 & w1 & Hh & Hinv1 & _).
    destruct (handle_options isEq v2 w0 evs0 this0 ev this w t this1 w1 Hinv Hfc Hh)
      as (d & Ht1 & Hfc1).
    destruct (IH _ this1 w1 (t ++ d) Hinv1 ltac:(by rewrite Ht1, Ht, app_assoc) Hfc1)
      as (this' & w' & t' & Hrun & Hinv' & Ht' & Hfc').
    exists this', w', t'. unfold AMap.run in *. cbn [foldl AMap.step]. rewrite Hh.
    split; [exact Hrun|]. split; [by rewrite <- app_assoc in Hinv'|by split].
Qed.

Lemma built_one_map this t c o m :
  built this t → ENew CMap [c; o] m ∈ t →
  AMap.this_map this = VRef m
  ∧ ∃ pre post, t = pre ++ ENew CMap [c; o] m :: post
                ∧ ∀ c' o' m', ENew CMap [c'; o'] m' ∈ t → c' = c ∧ o' = o ∧ m' = m.
Proof.
  intros (m0 & cbs & pre & post & c0 & o0 & Hm & _ & _ & -> & Hpre & Hpost & _) Hin.
  assert (∀ c' o' m',
            ENew CMap [c'; o'] m'
              ∈ pre ++ ENew CMap [c0; o0] m0
                  :: (onCall m0 <$> bound cbs AMap.eventKeys) ++ ESetState (VRef m0) :: post →
            c' = c0 ∧ o' = o0 ∧ m' = m0) as Huniq.
  { intros c' o' m' [H|H]%elem_of_app.
    { rewrite Forall_forall in Hpre. apply Hpre in H. by destruct H. }
    apply elem_of_cons in H as [[= -> -> ->]|H]; [done|].
    apply elem_of_app in H as [H|H].
    { apply list_elem_of_fmap in H as (x & Hx & _). discriminate Hx. }
    apply elem_of_cons in H as [[=]|H].
    rewrite Forall_forall in Hpost. apply Hpost in H. by cbn in H. }
  destruct (Huniq _ _ _ Hin) as (-> & -> & ->).
  split; [exact Hm|]. eexists _, _. split; [reflexivity|exact Huniq].
Qed.

(** X18.  The map is constructed from the options the constructor of the
    component parsed, whatever props the component was given while the
    scripts were loading: as long as there is no map the options kept
    are those of the constructor, and the second argument of the one
    [new AMap.Map] there is in the trace is an object that holds them, a
    copy of the options kept.  For a component constructed while
    [window.AMap] was undefined they hold no bounds. *)
Theorem map_is_built_from_the_constructor_options
    (isShallowEqual : list obj → value → value → bool) (version2Flag : value → bool)
    (p : gmap string value) (w : world) (evs : list AMap.event) :
  ∃ this0 w0 this w' t,
    AMap.constructor p w = Ok this0 w0
    ∧ AMap.run isShallowEqual version2Flag evs (Ok this0 w0) = Ok this w'
    ∧ trace w' = trace w0 ++ t
    ∧ (AMap.this_map this = VUndefined → AMap.mapOptions this = AMap.mapOptions this0)
    ∧ (∀ c o m, ENew CMap [c; o] m ∈ t →
         AMap.this_map this = VRef m
         ∧ ∃ a, o = VRef a ∧ heap w' !! a = Some (Plain (AMap.mapOptions this0)))
    ∧ (windowAMap w = false →
       get (AMap.mapOptions this0) "bounds" = VUndefined
       ∧ get (AMap.mapOptions this0) "boundsProp" = VUndefined).
Proof.
  destruct (constructor_invariant p w) as (this0 & w0 & Hc & Hinv0 & _).
  assert (from_constructor this0 this0 w0 []) as Hfc0.
  { split; [done|]. intros m Hm. destruct Hinv0 as (_ & _ & _ & t & _ & Hpc).
    cbn [AMap.pc] in Hpc. unfold AMap.constructor in Hc.
    apply bind_Ok_inv in Hc as (o & w1 & _ & [= <- <-]). done. }
  destruct (run_options isShallowEqual version2Flag w0 this0 evs [] this0 w0 []
              Hinv0 ltac:(by rewrite app_nil_r) Hfc0)
    as (this & w' & t & Hrun & Hinv & Ht & Hu & Hb).
  exists this0, w0, this, w', t. split; [exact Hc|]. split; [exact Hrun|].
  split; [exact Ht|]. split; [exact Hu|]. split.
  - intros c o m Hin. destruct Hinv as (_ & _ & _ & t' & Ht' & Hpc).
    assert (t' = t) as -> by (rewrite Ht in Ht'; by apply app_inv_head in Ht').
    assert (built this t) as Hbuilt.
    { destruct (AMap.pc this); try by destruct Hpc as (_ & ? & _).
      - destruct Hpc as (_ & _ & -> & _). by apply elem_of_nil in Hin.
      - destruct Hpc as (_ & _ & Hpre & _). rewrite Forall_forall in Hpre.
        apply Hpre in Hin. by destruct Hin.
      - destruct Hpc as (_ & _ & Hpre & _). rewrite Forall_forall in Hpre.
        apply Hpre in Hin. by destruct Hin.
      - destruct Hpc as (_ & _ & Hpre & _). rewrite Forall_forall in Hpre.
        apply Hpre in Hin. by destruct Hin.
      - done. }
    destruct (built_one_map _ _ _ _ _ Hbuilt Hin) as (Hm & _ & _ & _ & Huniq).
    split; [exact Hm|]. destruct (Hb m Hm) as (c' & a & Hin' & Ha).
    destruct (Huniq _ _ _ Hin') as (_ & <- & _). by exists a.
  - intros Hw. unfold AMap.constructor in Hc.
    apply bind_Ok_inv in Hc as (o & w1 & Hp & [= <- <-]). cbn [AMap.mapOptions].
    destruct (runs_inv _ _ _ _ _ (parseMapOptions_spec p w) Hp)
      as (_ & _ & _ & Hbp & Hbo & _).
    rewrite Hw in Hbp, Hbo. unfold get. by rewrite Hbp, Hbo.
Qed.

Lemma map_options_witness :
  ∃ this w' f,
    AMap.run Utils.isShallowEqual Utils.version2Flag
      [AMap.Mount; AMap.Update (<["zoom" := VNum 5]> Example.map_props);
       AMap.Onload 0; AMap.Onload 1; AMap.Onload 2]
      (AMap.constructor Example.map_props (Example.page false)) = Ok this w'
    ∧ heap w' !! 11%nat = Some (Plain f)
    ∧ get f "zoom" = VNum 3 ∧ get f "bounds" = VUndefined.
Proof.
  set (evs := [AMap.Mount; AMap.Update (<["zoom" := VNum 5]> Example.map_props);
               AMap.Onload 0; AMap.Onload 1; AMap.Onload 2]).
  destruct (map_is_built_from_the_constructor_options Utils.isShallowEqual
              Utils.version2Flag Example.map_props (Example.page false) evs)
    as (this0 & w0 & this & w' & t & Hc & Hrun & Ht & _ & Hnew & Hearly).
  assert (returned (AMap.constructor Example.map_props (Example.page false))
            (λ this w, trace w = [] ∧ get (AMap.mapOptions this) "zoom" = VNum 3)) as H0
    by (vm_compute; split; reflexivity).
  assert (returned
            (AMap.run Utils.isShallowEqual Utils.version2Flag evs
               (AMap.constructor Example.map_props (Example.page false)))
            (λ _ w, existsb (λ e, match e with
                                  | ENew CMap [_; VRef a] _ => Nat.eqb a 11
                                  | _ => false
                                  end) (trace w) = true)) as H1
    by (vm_compute; reflexivity).
  rewrite Hc in H0, H1 |- *. rewrite Hrun in H1 |- *. cbn [returned] in H0, H1.
  destruct H0 as [Ht0 Hzoom]. rewrite Ht, Ht0 in H1. cbn [app] in H1.
  apply existsb_exists in H1 as (e & Hin%list_elem_of_In & He).
  destruct e as [[] [|c [|[| | | | |a] [|]]] m| | | | |]; try discriminate He.
  apply Nat.eqb_eq in He as ->.
  destruct (Hnew _ _ _ Hin) as (_ & a & [= <-] & Ha).
  exists this, w', (AMap.mapOptions this0). split; [reflexivity|].
  split; [exact Ha|]. split; [exact Hzoom|]. by apply Hearly.
Defined.

(** ** The children *)

(** X19.  Whenever an AMap component renders its children, the SDK is
    loaded and the state, which is the value of the context the children
    read, holds the map the component built: a marker constructed as a
    child gets that map, and parsing its options returns, for any props,
    where outside of a map it throws. *)
Theorem children_are_rendered_with_the_map
    (isShallowEqual : list obj → value → value → bool) (version2Flag : value → bool)
    (p : gmap string value) (w : world) (evs : list AMap.event) :
  ∃ this w',
    AMap.run isShallowEqual version2Flag evs (AMap.constructor p w) = Ok this w'
    ∧ (AMap.render this = Container true →
       windowAMap w' = true
       ∧ (∃ m, AMap.state_map this = VRef m ∧ AMap.this_map this = VRef m)
       ∧ ∀ props, runs (Marker.parseMarkerOptions props) w' (λ o w'', grows w' w'')).
Proof.
  destruct (constructor_invariant p w) as (this0 & w0 & Hc & Hinv0 & _).
  destruct (run_invariant isShallowEqual version2Flag w0 evs [] this0 w0 Hinv0)
    as (this & w' & Hrun & Hinv & _).
  exists this, w'. rewrite Hc. split; [exact Hrun|].
  intros Hr. destruct Hinv as (_ & _ & _ & t & _ & Hpc).
  assert (AMap.state_map this ≠ VUndefined) as Hsm.
  { intros H. unfold AMap.render in Hr. rewrite H, bool_decide_true in Hr by done.
    discriminate Hr. }
  assert (unbuilt this → False) as Hno by (intros (_ & H & _); by apply Hsm).
  destruct (AMap.pc this).
  1-4: exfalso; apply Hno, Hpc.
  2: destruct Hpc.
  destruct Hpc as (_ & (m & ? & ? & ? & ? & ? & Hm & _ & _ & _ & _ & _ & [Hs|Hs] & _) & Hw & _);
    [|by destruct Hsm].
  split; [exact Hw|]. split; [by exists m|].
  intros props. eapply runs_mono; [by apply parseMarkerOptions_spec|].
  by intros o w'' (Hg & _).
Qed.

Lemma children_witness :
  ∃ this w',
    AMap.run Utils.isShallowEqual Utils.version2Flag
      [AMap.Mount; AMap.Onload 0; AMap.Onload 1; AMap.Onload 2]
      (AMap.constructor Example.map_props (Example.page false)) = Ok this w'
    ∧ windowAMap w' = true ∧ AMap.state_map this = AMap.this_map this.
Proof.
  set (evs := [AMap.Mount; AMap.Onload 0; AMap.Onload 1; AMap.Onload 2]).
  destruct (children_are_rendered_with_the_map Utils.isShallowEqual Utils.version2Flag
              Example.map_props (Example.page false) evs) as (this & w' & Hrun & H).
  assert (returned
            (AMap.run Utils.isShallowEqual Utils.version2Flag evs
               (AMap.constructor Example.map_props (Example.page false)))
            (λ this _, AMap.render this = Container true)) as Hr
    by (vm_compute; reflexivity).
  rewrite Hrun in Hr. cbn [returned] in Hr.
  destruct (H Hr) as (Hw & (m & Hs & Hm) & _).
  exists this, w'. split; [exact Hrun|]. split; [exact Hw|congruence].
Defined.
